(** * LiveRecorder: a shallow embedding of the recording orchestration engine

    The development follows [src/liverecorder/live_recorder.py] and the
    timeout callback of [src/liverecorder/gui.py].

    - [Py]           : the strings and dictionaries of Python the code uses.
    - [Signature]    : [Kwai.create_signature] (request signing).
    - [State]        : the objects of the process, the module-level
                       [recording] registry and the attributes of the GUI.
    - [Orchestrator] : [start], [run_loop], [add_user], [stop] and the
                       timeout callback of the GUI.
    - [Capture]      : [run_record], [stream_writer], [Kwai.run] and the
                       duration conversion.
    - [Monitor]      : the per-user loop [_record_task].
    - [Scenario]     : concrete states and scripts.

    The properties follow the definitions, one module of facts for each
    module of definitions.

    Python [str] values are modelled by [string]: the byte string of the
    UTF-8 encoding, whose byte-wise lexicographic order coincides with
    Python's code-point order. *)

From Stdlib Require Import ZArith Ascii String DecimalString.
From stdpp Require Import gmap strings list sorting.

Local Open Scope string_scope.

(* ===================================================================== *)
(** * Python strings and dictionaries *)
(* ===================================================================== *)

Module Py.

(** [c in s] for a one-character [c]. *)
Fixpoint contains (c : ascii) (s : string) : bool :=
  match s with
  | EmptyString => false
  | String a r => if Ascii.eqb a c then true else contains c r
  end.

(** [s.split(sep)] for a one-character separator: [n] separators give
    [n + 1] pieces, and the empty string gives one empty piece. *)
Fixpoint split (sep : ascii) (s : string) : list string :=
  match s with
  | EmptyString => [EmptyString]
  | String a r =>
      if Ascii.eqb a sep then EmptyString :: split sep r
      else match split sep r with
           | p :: ps => String a p :: ps
           | [] => [String a EmptyString]
           end
  end.

(** [s.split(sep, 1)] when [sep in s]: the text before and after the
    first separator; [None] when [s] has no separator. *)
Fixpoint split1 (sep : ascii) (s : string) : option (string * string) :=
  match s with
  | EmptyString => None
  | String a r =>
      if Ascii.eqb a sep then Some (EmptyString, r)
      else match split1 sep r with
           | Some (k, v) => Some (String a k, v)
           | None => None
           end
  end.

(** [sep.join(l)]. *)
Fixpoint join (sep : ascii) (l : list string) : string :=
  match l with
  | [] => EmptyString
  | [p] => p
  | p :: ps => p +:+ String sep (join sep ps)
  end.

(** A [dict] with [str] keys keeps its items in insertion order;
    [d[k] = v] replaces the value of an existing key in place and appends
    a new key at the end. *)
Fixpoint dict_set {V : Type} (k : string) (v : V) (d : list (string * V))
  : list (string * V) :=
  match d with
  | [] => [(k, v)]
  | (k', v') :: r =>
      if String.eqb k' k then (k', v) :: r else (k', v') :: dict_set k v r
  end.

(** [d.update(items)]: every item is stored in turn. *)
Definition dict_update {V : Type} (d : list (string * V))
    (items : list (string * V)) : list (string * V) :=
  fold_left (fun acc kv => dict_set kv.1 kv.2 acc) items d.

(** [sorted(items, key=lambda x: x[0])]: a stable sort by key with the
    order [<] of [str]. *)
Fixpoint insert_by_key {V : Type} (x : string * V) (l : list (string * V))
  : list (string * V) :=
  match l with
  | [] => [x]
  | y :: r =>
      if String.ltb y.1 x.1 then y :: insert_by_key x r else x :: y :: r
  end.

Definition sorted_by_key {V : Type} (l : list (string * V))
  : list (string * V) :=
  foldr insert_by_key [] l.

(** The order of two items by their keys. *)
Definition key_le {V : Type} (x y : string * V) : Prop := String.le x.1 y.1.

(** The values a request dictionary holds, and [str(v)]. *)
Inductive value : Type :=
| VStr (s : string)
| VInt (z : Z)
| VBool (b : bool)
| VNone.

Definition str (v : value) : string :=
  match v with
  | VStr s => s
  | VInt z => NilZero.string_of_int (Z.to_int z)
  | VBool true => "True"
  | VBool false => "False"
  | VNone => "None"
  end.

End Py.

(* ===================================================================== *)
(** * Kwai.create_signature *)
(* ===================================================================== *)

Module Signature.

Section WithLibrary.

(** [urllib.parse.unquote] and [hashlib.md5(s.encode('utf-8')).hexdigest()]
    come from the Python standard library. *)
Variable unquote : string -> string.
Variable md5_hexdigest : string -> string.

Definition excluded : list string := ["sig"; "__NS_sig3"; "__NStokensig"].

Definition secret : string := "382700b563f4".

(** The loop over [query_str.split('&')]. *)
Definition parse_pair (query_obj : list (string * string)) (pair : string)
  : list (string * string) :=
  match Py.split1 "=" pair with
  | Some (k, v) => Py.dict_set k v query_obj
  | None => Py.dict_set pair "" query_obj
  end.

Definition query_obj (query_str : string) : list (string * string) :=
  fold_left parse_pair (Py.split "&" query_str) [].

(** [{k: str(v) for k, v in post_dict.items()}]. *)
Definition post_obj (post_dict : list (string * Py.value))
  : list (string * string) :=
  Py.dict_update [] (map (fun kv => (kv.1, Py.str kv.2)) post_dict).

(** [{**query_obj, **post_obj}]. *)
Definition map_object (query_str : string)
    (post_dict : list (string * Py.value)) : list (string * string) :=
  Py.dict_update (Py.dict_update [] (query_obj query_str))
                 (post_obj post_dict).

(** The loop that builds [url_string]. *)
Definition add_item (url_string : string) (kv : string * string) : string :=
  if existsb (String.eqb kv.1) excluded then url_string
  else url_string +:+ kv.1 +:+ "=" +:+ unquote kv.2.

Definition url_string (query_str : string)
    (post_dict : list (string * Py.value)) : string :=
  fold_left add_item
    (Py.sorted_by_key (map_object query_str post_dict)) "" +:+ secret.

Definition create_signature (query_str : string)
    (post_dict : list (string * Py.value)) : string :=
  md5_hexdigest (url_string query_str post_dict).

(** ** The signature as the specification words it *)

(** A query string of ampersand-separated [key=value] pairs. *)
Definition render_pair (kv : string * string) : string :=
  kv.1 +:+ "=" +:+ kv.2.

Definition render_query (pairs : list (string * string)) : string :=
  Py.join "&" (map render_pair pairs).

Definition well_formed_pair (kv : string * string) : Prop :=
  Py.contains "&" kv.1 = false /\ Py.contains "=" kv.1 = false /\
  Py.contains "&" kv.2 = false.

(** Parameters as a finite map, a later occurrence of a key winning. *)
Definition params (l : list (string * string)) : gmap string string :=
  list_to_map (reverse l).

(** Merged parameters: the post parameters override the query's. *)
Definition merged (pairs : list (string * string))
    (post_dict : list (string * Py.value)) : gmap string string :=
  params (map (fun kv => (kv.1, Py.str kv.2)) post_dict) ∪ params pairs.

Definition sorted_keys (m : gmap string string) : list string :=
  merge_sort String.le (elements (dom m)).

Definition signed_key (k : string) : bool :=
  negb (existsb (String.eqb k) excluded).

Definition canonical (m : gmap string string) : string :=
  foldr String.append ""
    (map (fun k => k +:+ "=" +:+ unquote (default "" (m !! k)))
         (filter (fun k => signed_key k = true) (sorted_keys m))).

Definition spec_signature (pairs : list (string * string))
    (post_dict : list (string * Py.value)) : string :=
  md5_hexdigest (canonical (merged pairs post_dict) +:+ secret).

End WithLibrary.

End Signature.

(* ===================================================================== *)
(** * The process state: objects, the [recording] registry, the GUI *)
(* ===================================================================== *)

(** Exceptions by class. [KeyboardInterrupt], [SystemExit] and
    [asyncio.CancelledError] derive from [BaseException] only; the others
    are subclasses of [Exception]. *)
Inductive exn : Type :=
| KeyError
| TypeError
| OSError
| TimeoutError
| RuntimeError
| KeyboardInterrupt
| SystemExit
| CancelledError.

Global Instance exn_eq_dec : EqDecision exn.
Proof. solve_decision. Defined.

Definition is_Exception (e : exn) : bool :=
  match e with
  | KeyboardInterrupt | SystemExit | CancelledError => false
  | _ => true
  end.

(** A [threading.Timer]. *)
Inductive timer_state : Type :=
| Armed (timeout : Z)
| Fired
| Cancelled.

(** An [asyncio] task created for one user by [_record_task]. *)
Record task : Type := {
  task_user : nat;               (* [task._recorder.id] *)
  task_done : bool;              (* [task.done()] *)
  task_cancel_requested : bool;  (* [task.cancel()] was called *)
}.

(** An event loop made by [asyncio.new_event_loop()]. *)
Record event_loop : Type := {
  loop_is_running : bool;      (* [loop.is_running()] *)
  loop_stop_requested : bool;  (* [loop.stop] was scheduled *)
}.

(** One entry of [config['user']]. *)
Record user : Type := {
  user_id : nat;
  user_name : string;
  user_platform : string;
  user_init_fails : bool;  (* the constructor of the recorder class raises *)
}.

(** The orchestrating [LiveRecorder] instance: [self.running],
    [self.tasks], [self.loop] and the configured users. *)
Record recorder : Type := {
  running : bool;
  tasks : list nat;             (* references to task objects *)
  loop : option nat;            (* [None]: no attribute [loop] yet *)
  config_user : list user;      (* [self.config['user']] *)
}.

(** The heap of the process and the attributes of the GUI application. *)
Record state : Type := {
  streams : gmap nat bool;             (* StreamIO objects: [closed] *)
  outputs : gmap nat bool;             (* FileOutput objects: [opened] *)
  timers : gmap nat timer_state;
  task_objs : gmap nat task;
  loops : gmap nat event_loop;
  recorders : gmap nat recorder;
  next_obj : nat;                      (* the next fresh object identity *)
  recording : gmap string (nat * nat); (* module-level [recording] *)
  app_recorder : option nat;           (* [app.recorder] *)
  app_recording : bool;                (* [app.recording] *)
  user_recorders : gmap nat nat;       (* [app.user_recorders] *)
  user_recording_status : gmap nat bool;
}.

Module State.

Definition set_streams (f : gmap nat bool -> gmap nat bool) (st : state) : state :=
  {| streams := f (streams st); outputs := outputs st; timers := timers st;
     task_objs := task_objs st; loops := loops st; recorders := recorders st;
     next_obj := next_obj st; recording := recording st;
     app_recorder := app_recorder st; app_recording := app_recording st;
     user_recorders := user_recorders st;
     user_recording_status := user_recording_status st |}.

Definition set_outputs (f : gmap nat bool -> gmap nat bool) (st : state) : state :=
  {| streams := streams st; outputs := f (outputs st); timers := timers st;
     task_objs := task_objs st; loops := loops st; recorders := recorders st;
     next_obj := next_obj st; recording := recording st;
     app_recorder := app_recorder st; app_recording := app_recording st;
     user_recorders := user_recorders st;
     user_recording_status := user_recording_status st |}.

Definition set_timers (f : gmap nat timer_state -> gmap nat timer_state)
    (st : state) : state :=
  {| streams := streams st; outputs := outputs st; timers := f (timers st);
     task_objs := task_objs st; loops := loops st; recorders := recorders st;
     next_obj := next_obj st; recording := recording st;
     app_recorder := app_recorder st; app_recording := app_recording st;
     user_recorders := user_recorders st;
     user_recording_status := user_recording_status st |}.

Definition set_task_objs (f : gmap nat task -> gmap nat task) (st : state) : state :=
  {| streams := streams st; outputs := outputs st; timers := timers st;
     task_objs := f (task_objs st); loops := loops st; recorders := recorders st;
     next_obj := next_obj st; recording := recording st;
     app_recorder := app_recorder st; app_recording := app_recording st;
     user_recorders := user_recorders st;
     user_recording_status := user_recording_status st |}.

Definition set_loops (f : gmap nat event_loop -> gmap nat event_loop)
    (st : state) : state :=
  {| streams := streams st; outputs := outputs st; timers := timers st;
     task_objs := task_objs st; loops := f (loops st); recorders := recorders st;
     next_obj := next_obj st; recording := recording st;
     app_recorder := app_recorder st; app_recording := app_recording st;
     user_recorders := user_recorders st;
     user_recording_status := user_recording_status st |}.

Definition set_recorders (f : gmap nat recorder -> gmap nat recorder)
    (st : state) : state :=
  {| streams := streams st; outputs := outputs st; timers := timers st;
     task_objs := task_objs st; loops := loops st; recorders := f (recorders st);
     next_obj := next_obj st; recording := recording st;
     app_recorder := app_recorder st; app_recording := app_recording st;
     user_recorders := user_recorders st;
     user_recording_status := user_recording_status st |}.

Definition set_next_obj (n : nat) (st : state) : state :=
  {| streams := streams st; outputs := outputs st; timers := timers st;
     task_objs := task_objs st; loops := loops st; recorders := recorders st;
     next_obj := n; recording := recording st;
     app_recorder := app_recorder st; app_recording := app_recording st;
     user_recorders := user_recorders st;
     user_recording_status := user_recording_status st |}.

Definition set_recording
    (f : gmap string (nat * nat) -> gmap string (nat * nat)) (st : state) : state :=
  {| streams := streams st; outputs := outputs st; timers := timers st;
     task_objs := task_objs st; loops := loops st; recorders := recorders st;
     next_obj := next_obj st; recording := f (recording st);
     app_recorder := app_recorder st; app_recording := app_recording st;
     user_recorders := user_recorders st;
     user_recording_status := user_recording_status st |}.

Definition set_app (r : option nat) (rec : bool) (st : state) : state :=
  {| streams := streams st; outputs := outputs st; timers := timers st;
     task_objs := task_objs st; loops := loops st; recorders := recorders st;
     next_obj := next_obj st; recording := recording st;
     app_recorder := r; app_recording := rec;
     user_recorders := user_recorders st;
     user_recording_status := user_recording_status st |}.

Definition set_user_recording_status
    (f : gmap nat bool -> gmap nat bool) (st : state) : state :=
  {| streams := streams st; outputs := outputs st; timers := timers st;
     task_objs := task_objs st; loops := loops st; recorders := recorders st;
     next_obj := next_obj st; recording := recording st;
     app_recorder := app_recorder st; app_recording := app_recording st;
     user_recorders := user_recorders st;
     user_recording_status := f (user_recording_status st) |}.

(** A new object identity. *)
Definition fresh (st : state) : nat * state :=
  (next_obj st, set_next_obj (S (next_obj st)) st).

(** The empty process: nothing allocated, nothing registered. *)
Definition init : state :=
  {| streams := ∅; outputs := ∅; timers := ∅; task_objs := ∅; loops := ∅;
     recorders := ∅; next_obj := 0; recording := ∅;
     app_recorder := None; app_recording := false;
     user_recorders := ∅; user_recording_status := ∅ |}.

End State.

(* ===================================================================== *)
(** * The orchestrator: start, stop, add_user *)
(* ===================================================================== *)

Module Orchestrator.

(** What [globals()] of live_recorder.py holds under a name. *)
Inductive global_entry : Type :=
| PlatformClass      (* [Kwai] *)
| BaseClass          (* [LiveRecorder] itself, whose [run] does nothing *)
| NotAClass.         (* modules, functions, the [recording] dict, ... *)

Definition other_globals : list string :=
  ["asyncio"; "json"; "os"; "re"; "time"; "threading"; "warnings";
   "urllib3"; "InsecureRequestWarning"; "ConfigManager"; "logger";
   "SimpleCookie"; "Path"; "Dict"; "Tuple"; "Union"; "parse_qs";
   "requests"; "hashlib"; "urllib"; "anyio"; "ffmpeg"; "httpx";
   "jsengine"; "streamlink"; "AsyncProxyTransport"; "parse"; "Options";
   "StreamIO"; "HTTPStream"; "HLSStream"; "open_stream"; "FileOutput";
   "StreamRunner"; "recording"; "run";
   "__name__"; "__doc__"; "__package__"; "__loader__"; "__spec__";
   "__file__"; "__cached__"; "__builtins__"].

Definition globals (name : string) : option global_entry :=
  if String.eqb name "Kwai" then Some PlatformClass
  else if String.eqb name "LiveRecorder" then Some BaseClass
  else if existsb (String.eqb name) other_globals then Some NotAClass
  else None.

(** [platform_class = globals()[user['platform']]] followed by
    [platform_class(self.config, user, gui_timeout_callback=...)]:
    the lookup raises [KeyError] for a missing name, the call raises
    [TypeError] for an entry that is no recorder class, and the
    constructor of a recorder class may raise on the user record. *)
Definition instantiate (u : user) : option exn :=
  match globals (user_platform u) with
  | None => Some KeyError
  | Some NotAClass => Some TypeError
  | Some _ => if user_init_fails u then Some RuntimeError else None
  end.

(** [task = self.loop.create_task(self._record_task(recorder))] and
    [self.tasks.append(task)]. *)
Definition create_task (rid : nat) (u : user) (st : state) : state :=
  let '(tid, st) := State.fresh st in
  let st := State.set_task_objs
              (insert tid {| task_user := user_id u; task_done := false;
                             task_cancel_requested := false |}) st in
  State.set_recorders
    (alter (fun r => {| running := running r; tasks := (tasks r ++ [tid])%list;
                        loop := loop r; config_user := config_user r |}) rid)
    st.

(** [LiveRecorder(config)]: a new orchestrator. *)
Definition new_recorder (users : list user) (st : state) : nat * state :=
  let '(rid, st) := State.fresh st in
  (rid, State.set_recorders
          (insert rid {| running := false; tasks := []; loop := None;
                         config_user := users |}) st).

(** [start]: the result tells whether [run_loop] was returned. *)
Definition start (rid : nat) (st : state) : state * bool :=
  match recorders st !! rid with
  | None => (st, false)
  | Some r =>
      if running r then (st, false)
      else
        let '(lid, st) := State.fresh st in
        let st := State.set_loops
                    (insert lid {| loop_is_running := false;
                                   loop_stop_requested := false |}) st in
        (State.set_recorders
           (insert rid {| running := true; tasks := tasks r;
                          loop := Some lid; config_user := config_user r |}) st,
         true)
  end.

(** The body of [run_loop] up to [self.loop.run_forever()]: one pass over
    [self.config['user']]. The second component lists the users whose
    instantiation was logged as an error; no exception leaves the loop. *)
Definition spawn_user (rid : nat) (acc : state * list (nat * exn)) (u : user)
  : state * list (nat * exn) :=
  match instantiate u with
  | Some e => (acc.1, (acc.2 ++ [(user_id u, e)])%list)
  | None => (create_task rid u acc.1, acc.2)
  end.

Definition set_loop_running (rid : nat) (st : state) : state :=
  match recorders st !! rid with
  | Some r =>
      match loop r with
      | Some lid =>
          State.set_loops
            (alter (fun l => {| loop_is_running := true;
                                loop_stop_requested := loop_stop_requested l |})
                   lid) st
      | None => st
      end
  | None => st
  end.

Definition run_loop (rid : nat) (st : state) : state * list (nat * exn) :=
  match recorders st !! rid with
  | None => (st, [])
  | Some r =>
      let '(st, logged) := fold_left (spawn_user rid) (config_user r) (st, []) in
      (set_loop_running rid st, logged)
  end.

(** [add_user]: nothing happens unless the recorder runs; a failure is
    logged and raised again to the caller. *)
Definition add_user (rid : nat) (u : user) (st : state) : state * option exn :=
  match recorders st !! rid with
  | None => (st, None)
  | Some r =>
      if negb (running r) then (st, None)
      else match instantiate u with
           | Some e => (st, Some e)
           | None => (create_task rid u st, None)
           end
  end.

(** [task.cancel()] on every task of the list that is not done. [stop]
    hands this loop to the event loop with [call_soon_threadsafe] and
    waits 0.2 seconds; the loop is taken to have run by then. *)
Definition cancel_task (st : state) (tid : nat) : state :=
  State.set_task_objs
    (alter (fun t => if task_done t then t
                     else {| task_user := task_user t; task_done := false;
                             task_cancel_requested := true |}) tid) st.

Definition cancel_tasks (tids : list nat) (st : state) : state :=
  fold_left cancel_task tids st.

(** [self.loop and self.loop.is_running()]. *)
Definition loop_running (r : recorder) (st : state) : bool :=
  match loop r with
  | Some lid =>
      match loops st !! lid with
      | Some l => loop_is_running l
      | None => false
      end
  | None => false
  end.

(** [stream_fd.close(); output.close()] for one registry value. *)
Definition close_pair (st : state) (h : nat * nat) : state :=
  State.set_outputs (alter (fun _ => false) h.2)
    (State.set_streams (alter (fun _ => true) h.1) st).

(** The loop over [recording.copy().values()]. *)
Definition close_all (st : state) : state :=
  fold_left close_pair ((map_to_list (recording st)).*2) st.

Definition request_loop_stop (r : recorder) (st : state) : state :=
  match loop r with
  | Some lid =>
      State.set_loops
        (alter (fun l => {| loop_is_running := loop_is_running l;
                            loop_stop_requested := true |}) lid) st
  | None => st
  end.

Definition stop (rid : nat) (st : state) : state :=
  match recorders st !! rid with
  | None => st
  | Some r =>
      if negb (running r) then st
      else
        (* self.running = False *)
        let st := State.set_recorders
                    (insert rid {| running := false; tasks := tasks r;
                                   loop := loop r;
                                   config_user := config_user r |}) st in
        (* cancel the tasks, then self.tasks = [] *)
        let st :=
          match tasks r with
          | [] => st
          | _ =>
              let st := if loop_running r st
                        then cancel_tasks (tasks r) st else st in
              State.set_recorders
                (insert rid {| running := false; tasks := [];
                               loop := loop r;
                               config_user := config_user r |}) st
          end in
        (* close every registered stream and output *)
        let st := close_all st in
        (* stop the event loop *)
        if loop_running r st then request_loop_stop r st else st
  end.

(** Task [tid], unless it is done, has been asked to cancel. *)
Definition cancel_seen (tid : nat) (st : state) : Prop :=
  match task_objs st !! tid with
  | Some t => task_done t = false -> task_cancel_requested t = true
  | None => True
  end.

(** The users of the tasks that [self.tasks] refers to, in order. *)
Definition task_users (rid : nat) (st : state) : list nat :=
  match recorders st !! rid with
  | Some r => omap (fun tid => task_user <$> task_objs st !! tid) (tasks r)
  | None => []
  end.

(** [gui_timeout_callback] of gui.py, as built for a per-user recorder:
    it stops [app.recorder], the recorder of the global recording. *)
Definition gui_timeout_callback (recorder_user_id : nat) (st : state) : state :=
  let st :=
    match app_recorder st with
    | Some rid => State.set_app None false (stop rid st)
    | None => st
    end in
  match user_recording_status st !! recorder_user_id with
  | Some _ =>
      State.set_user_recording_status (insert recorder_user_id false) st
  | None => st
  end.

End Orchestrator.

(* ===================================================================== *)
(** * Capture sessions: run_record, stream_writer, Kwai.run *)
(* ===================================================================== *)

Module Capture.

(** Truth value of an optional number ([None] and [0] are false) and of
    an optional string ([None] and the empty string are false). *)
Definition truthy_int (x : option Z) : bool :=
  match x with
  | Some z => negb (z =? 0)%Z
  | None => false
  end.

Definition truthy_str (x : option string) : bool :=
  match x with
  | Some s => negb (String.eqb s "")
  | None => false
  end.

(** The conversion of [duration] and [duration_unit] into [timeout]. *)
Definition timeout_of (duration : option Z) (duration_unit : option string)
  : option Z :=
  if truthy_int duration && truthy_str duration_unit then
    match duration, duration_unit with
    | Some d, Some u =>
        if String.eqb u "seconds" then Some d
        else if String.eqb u "minutes" then Some (d * 60)%Z
        else if String.eqb u "hours" then Some (d * 3600)%Z
        else None
    | _, _ => None
    end
  else None.

(** [if timeout:] guards the creation of the timer. *)
Definition timer_armed (timeout : option Z) : bool := truthy_int timeout.

(** How [stream_runner.run(prebuffer)] comes to its end. *)
Inductive run_end : Type :=
| StreamEnded            (* the stream ends by itself *)
| RunRaises (e : exn)    (* an exception in the middle of the capture *)
| TimerFires             (* the duration timer fires and closes the stream *)
| StopCalled.            (* a [stop()] closes the registered handles *)

(** What the environment does to one capture. *)
Record script : Type := {
  mkdir_raises : option exn;        (* [output_dir.mkdir(...)] *)
  open_stream_raises : option exn;  (* [open_stream(stream)] *)
  output_open_raises : option exn;  (* [output.open()] *)
  run_ends : run_end;
}.

Definition stream_closed (fd : nat) (st : state) : bool :=
  default true (streams st !! fd).

Definition output_opened (out : nat) (st : state) : bool :=
  default false (outputs st !! out).

Definition close_stream (fd : nat) (st : state) : state :=
  State.set_streams (alter (fun _ => true) fd) st.

Definition close_output (out : nat) (st : state) : state :=
  State.set_outputs (alter (fun _ => false) out) st.

Definition cancel_timer (t : nat) (st : state) : state :=
  State.set_timers
    (alter (fun s => match s with Armed _ => Cancelled | _ => s end) t) st.

Definition fire_timer (t : nat) (st : state) : state :=
  State.set_timers
    (alter (fun s => match s with Armed _ => Fired | _ => s end) t) st.

(** [timeout_handler] of [run_record]. *)
Definition timeout_handler (self_id : option nat) (fd : nat)
    (timeout_callback : option (nat -> state -> state)) (st : state) : state :=
  let st := if negb (stream_closed fd st) then close_stream fd st else st in
  match timeout_callback, self_id with
  | Some cb, Some id => cb id st
  | _, _ => st
  end.

(** [if url in recording: del recording[url]]. *)
Definition unregister (url : string) (st : state) : state :=
  State.set_recording (delete url) st.

(** The handler of the outer [try] of [run_record]. *)
Definition cleanup_registered (url : string) (st : state) : state :=
  match recording st !! url with
  | Some h => unregister url (Orchestrator.close_pair st h)
  | None => st
  end.

Definition outer_except (e : exn) (url : string) (st : state)
  : state * option exn :=
  if is_Exception e then (cleanup_registered url st, None) else (st, Some e).

(** The exception that leaves the inner [try] of [run_record]:
    [KeyboardInterrupt] and every [Exception] are caught there. *)
Definition propagates (r : option exn) : option exn :=
  match r with
  | Some KeyboardInterrupt => None
  | Some e => if is_Exception e then None else Some e
  | None => None
  end.

Section WithStreamlink.

(** Two facts about the streamlink classes, which are not part of this
    repository: whether a [FileOutput] has an attribute [closed] (then
    the negation of [opened]), and whether [StreamRunner.run] closes
    the stream when it returns or raises. *)
Variable FileOutput_has_closed : bool.
Variable StreamRunner_closes_stream : bool.

(** [getattr(output, 'closed', True)]. *)
Definition getattr_closed (out : nat) (st : state) : bool :=
  if FileOutput_has_closed then negb (output_opened out st) else true.

Definition run_phase (self_id : option nat) (fd : nat) (timer : option nat)
    (timeout_callback : option (nat -> state -> state))
    (e : run_end) (st : state) : state * option exn :=
  let '(st, r) :=
    match e with
    | StreamEnded => (st, None)
    | RunRaises x => (st, Some x)
    | TimerFires =>
        match timer with
        | Some t =>
            (timeout_handler self_id fd timeout_callback (fire_timer t st),
             None)
        | None => (st, None)
        end
    | StopCalled => (Orchestrator.close_all st, Some OSError)
    end in
  (if StreamRunner_closes_stream then close_stream fd st else st, r).

(** [run_record] up to and including [recording[url] = (stream_fd, output)]. *)
Definition run_record_open (url : string) (sc : script) (st : state)
  : (state * nat * nat) + (state * option exn) :=
  match mkdir_raises sc with
  | Some e => inr (outer_except e url st)
  | None =>
      match open_stream_raises sc with
      | Some e => inr (outer_except e url st)
      | None =>
          let '(fd, st) := State.fresh st in
          let st := State.set_streams (insert fd false) st in
          let '(out, st) := State.fresh st in
          let st := State.set_outputs (insert out false) st in
          inl (State.set_recording (insert url (fd, out)) st, fd, out)
      end
  end.

(** The [finally] of the inner [try]. *)
Definition release (url : string) (fd out : nat) (opened : bool)
    (st : state) : state :=
  let st := if opened && negb (getattr_closed out st)
            then close_output out st else st in
  let st := if negb (stream_closed fd st) then close_stream fd st else st in
  unregister url st.

(** The inner [try] with its handlers and its [finally]. *)
Definition run_record_capture (self_id : option nat) (url : string)
    (duration : option Z) (duration_unit : option string)
    (timeout_callback : option (nat -> state -> state))
    (sc : script) (fd out : nat) (st : state) : state * option exn :=
  let timeout := timeout_of duration duration_unit in
  let '(st, opened, r) :=
    match output_open_raises sc with
    | Some e => (st, false, Some e)
    | None =>
        let st := State.set_outputs (insert out true) st in
        if timer_armed timeout then
          let '(t, st) := State.fresh st in
          let st := State.set_timers
                      (insert t (Armed (default 0%Z timeout))) st in
          let '(st, r) := run_phase self_id fd (Some t) timeout_callback
                                    (run_ends sc) st in
          (cancel_timer t st, true, r)
        else
          let '(st, r) := run_phase self_id fd None timeout_callback
                                    (run_ends sc) st in
          (st, true, r)
    end in
  (release url fd out opened st, propagates r).

(** [run_record]: [stream] tells whether a stream object was given. The
    result holds the exception that reaches the caller, if any. *)
Definition run_record (self_id : option nat) (stream : bool) (url : string)
    (duration : option Z) (duration_unit : option string)
    (timeout_callback : option (nat -> state -> state))
    (sc : script) (st : state) : state * option exn :=
  if negb stream then (st, None)
  else
    match run_record_open url sc st with
    | inl (st, fd, out) =>
        run_record_capture self_id url duration duration_unit
                           timeout_callback sc fd out st
    | inr res => res
    end.

(** [stream_writer]: the result holds the returned value ([true] for
    [True], [false] for [None]) and the exception that reaches the
    caller, if any. *)
Definition stream_writer (url : string) (sc : script) (st : state)
  : state * bool * option exn :=
  let '(out, st) := State.fresh st in
  let st := State.set_outputs (insert out false) st in
  let '(st, opened, r) :=
    match open_stream_raises sc with
    | Some e => (st, false, Some e)
    | None =>
        let '(fd, st) := State.fresh st in
        let st := State.set_streams (insert fd false) st in
        match output_open_raises sc with
        | Some e => (st, false, Some e)
        | None =>
            let st := State.set_outputs (insert out true) st in
            let st := State.set_recording (insert url (fd, out)) st in
            let '(st, r) := run_phase None fd None None (run_ends sc) st in
            (st, true, r)
        end
    end in
  let st := if opened then close_output out st else st in
  match r with
  | None => (st, true, None)
  | Some e => (st, false, if is_Exception e then None else Some e)
  end.

(** What the probe [get_live_url] gives. *)
Inductive probe_result : Type :=
| ProbeRaises (e : exn)
| NotLive
| Live (live_url : string).

(** [Kwai.run]: the guard reads the registry under the key [url = f''],
    the capture is registered under [live_url]. *)
Definition Kwai_run (self_id : nat) (duration : option Z)
    (duration_unit : option string)
    (gui_timeout_callback : option (nat -> state -> state))
    (probe : probe_result) (sc : script) (st : state) : state :=
  if bool_decide (recording st !! "" = None) then
    match probe with
    | Live live_url =>
        if String.eqb live_url "" then st
        else
          let timeout_callback (_ : nat) (s : state) : state :=
            match gui_timeout_callback with
            | Some g => g self_id s
            | None => s
            end in
          (run_record (Some self_id) true live_url duration duration_unit
                      (Some timeout_callback) sc st).1
    | _ => st
    end
  else st.

End WithStreamlink.

End Capture.

(* ===================================================================== *)
(** * The per-user loop _record_task *)
(* ===================================================================== *)

Module Monitor.

Inductive level : Type := Debug | Info | Error.

(** What one task does, in order. *)
Inductive event : Type :=
| Log (l : level)
| RunRecorder          (* [await asyncio.wait_for(recorder.run(), 300)] *)
| Sleep (seconds : nat) (* a completed [await asyncio.sleep(seconds)] *)
| SleepInterrupted.     (* a sleep that raised *)

(** What the environment does during one pass of the [while] loop. *)
Record cycle : Type := {
  loop_running : bool;           (* [self.running] at the [while] test *)
  run_outcome : option exn;      (* how [recorder.run()] ends *)
  interval : option Z;           (* [recorder.interval]; [None]: no [int] *)
  wait_running : nat -> bool;    (* [self.running] at the i-th test of the wait *)
  sleep_outcome : nat -> option exn;  (* the i-th [asyncio.sleep(1)] *)
  backoff_outcome : option exn;  (* [asyncio.sleep(5)] in the handler *)
}.

(** How a block of the loop body ends. *)
Inductive control : Type :=
| Normal
| Break
| Raise (e : exn).

(** [for i in range(recorder.interval): ...] from index [i], [n] passes
    left. [task_running] is the flag local to the task. *)
Fixpoint wait (c : cycle) (task_running : bool) (i n : nat)
  : list event * control :=
  match n with
  | 0 => ([], Normal)
  | S n' =>
      if negb (wait_running c i) || negb task_running
      then ([Log Debug], Normal)
      else
        let pre := if (i mod 10 =? 0)%nat then [Log Debug] else [] in
        match sleep_outcome c i with
        | Some e => ((pre ++ [SleepInterrupted])%list, Raise e)
        | None =>
            let '(tr, r) := wait c task_running (S i) n' in
            ((pre ++ Sleep 1 :: tr)%list, r)
        end
  end.

(** The cooldown: [range] of a value that is no [int] raises. *)
Definition cooldown (c : cycle) (task_running : bool) : list event * control :=
  match interval c with
  | None => ([], Raise TypeError)
  | Some n => wait c task_running 0 (Z.to_nat n)
  end.

(** The body of the outer [try]: the guarded call of [recorder.run()]
    and the cooldown. *)
Definition attempt (c : cycle) : list event * control :=
  let start := [Log Debug; Log Debug; Log Debug; RunRecorder] in
  let '(tr, r) :=
    match run_outcome c with
    | None => ([Log Debug], Normal)
    | Some TimeoutError => ([Log Error], Normal)
    | Some CancelledError => ([Log Info], Break)
    | Some e => if is_Exception e then ([Log Error], Normal) else ([], Raise e)
    end in
  match r with
  | Normal =>
      let '(tr', r') := cooldown c true in
      ((start ++ tr ++ Log Debug :: tr')%list, r')
  | _ => ((start ++ tr)%list, r)
  end.

(** One pass of the [while] loop with the handlers of the outer [try]. *)
Definition body (c : cycle) : list event * control :=
  let '(tr, r) := attempt c in
  match r with
  | Raise CancelledError => ((tr ++ [Log Info])%list, Break)
  | Raise e =>
      if is_Exception e then
        match backoff_outcome c with
        | None => ((tr ++ [Log Error; Sleep 5])%list, Normal)
        | Some e' => ((tr ++ [Log Error; SleepInterrupted])%list, Raise e')
        end
      else (tr, Raise e)
  | _ => (tr, r)
  end.

(** How the task stands when the cycles of the script are used up. *)
Inductive status : Type :=
| Looping               (* the loop goes on *)
| Finished              (* the loop was left; the coroutine returned *)
| Failed (e : exn).     (* an exception left the coroutine *)

(** The [while self.running and task_running] loop over the script. *)
Fixpoint while_loop (cs : list cycle) : list event * status :=
  match cs with
  | [] => ([], Looping)
  | c :: cs' =>
      if negb (loop_running c) then ([], Finished)
      else
        match body c with
        | (tr, Normal) =>
            let '(tr', s) := while_loop cs' in ((tr ++ tr')%list, s)
        | (tr, Break) => (tr, Finished)
        | (tr, Raise e) => (tr, Failed e)
        end
  end.

Definition _record_task (cs : list cycle) : list event * status :=
  let '(tr, s) := while_loop cs in
  ((Log Debug :: tr ++ match s with Finished => [Log Debug] | _ => [] end)%list,
   s).

(** The seconds of completed sleeps in a trace. *)
Fixpoint seconds_slept (tr : list event) : nat :=
  match tr with
  | [] => 0
  | Sleep s :: tr' => s + seconds_slept tr'
  | _ :: tr' => seconds_slept tr'
  end.

(** A stop request that arrives during pass [k] of the wait, after its
    test of the flags: the tests of the passes [0..k] see
    [self.running] true, every later test sees it false. *)
Definition stop_during (k : nat) : nat -> bool := fun i => (i <=? k)%nat.

(** No stop request at all. *)
Definition never_stopped : nat -> bool := fun _ => true.

(** A sleep event lasts one second. *)
Definition one_second (e : event) : Prop :=
  forall s, e = Sleep s -> s = 1.

End Monitor.

(* ===================================================================== *)
(** * The tasks of one process on their event loops *)
(* ===================================================================== *)

Module EventLoop.
Import Monitor.
Local Open Scope list_scope.

(** Where the coroutine [_record_task] of a task stands. *)
Inductive frame : Type :=
| Created                  (* scheduled by [create_task], not yet begun *)
| AwaitRun                 (* in [await asyncio.wait_for(recorder.run(), 300)] *)
| AwaitSleep (i n : nat)   (* in pass [i] of [range(n)], in [await asyncio.sleep(1)] *)
| AwaitBackoff             (* in [await asyncio.sleep(5)] of the outer handler *)
| Ended (e : option exn).  (* returned ([None]) or left by the exception [e] *)

(** The coroutine of a task: [self], [recorder.interval] ([None]: no
    [int]), the place it stands at and what it has done so far. *)
Record coroutine : Type := {
  co_self : nat;
  co_interval : option Z;
  co_frame : frame;
  co_trace : list event;
}.

(** The process: the state that all tasks share, in which are
    [self.running], the event loops, the task objects and the module
    level [recording], and the coroutines by task. *)
Record world : Type := {
  shared : state;
  coroutines : gmap nat coroutine;
}.

(** What an awaited operation hands to the coroutine when the event loop
    resumes it: the exception it raises, if any, and, for
    [recorder.run()], what the call has done to the shared state. *)
Record delivery : Type := {
  run_effect : state -> state;
  raised : option exn;
}.

(** [self.running]. *)
Definition self_running (rid : nat) (st : state) : bool :=
  match recorders st !! rid with
  | Some r => running r
  | None => false
  end.

(** From the test of [while self.running and task_running] to the call
    of [recorder.run()], or to the end of the coroutine. *)
Definition enter_pass (rid : nat) (st : state) : frame * list event :=
  if self_running rid st
  then (AwaitRun, [Log Debug; Log Debug; Log Debug; RunRecorder])
  else (Ended None, [Log Debug]).

(** Pass [i] of [for i in range(n)] up to its [await]; after a [break],
    and after the last pass, the test of the [while] loop follows with
    no [await] between. *)
Definition wait_pass (rid : nat) (i n : nat) (st : state)
  : frame * list event :=
  if (i <? n)%nat then
    if negb (self_running rid st) then
      let '(f, tr) := enter_pass rid st in (f, Log Debug :: tr)
    else (AwaitSleep i n, if (i mod 10 =? 0)%nat then [Log Debug] else [])
  else enter_pass rid st.

(** How a part of the body of the outer [try] ends. *)
Inductive progress : Type :=
| Suspended (f : frame)
| Raises (e : exn).

(** The code after the inner [try]: the log line and the [for] loop,
    whose [range] raises [TypeError] for an interval that is no [int]. *)
Definition begin_cooldown (rid : nat) (interval : option Z) (st : state)
  : list event * progress :=
  match interval with
  | None => ([Log Debug], Raises TypeError)
  | Some n =>
      let '(f, tr) := wait_pass rid 0 (Z.to_nat n) st in
      (Log Debug :: tr, Suspended f)
  end.

(** The body of the outer [try] from a resumption inside it to its next
    [await], or to the exception that leaves it; the state is the shared
    state after it. *)
Definition try_body (co : coroutine) (d : delivery) (st : state)
  : list event * progress * state :=
  match co_frame co with
  | AwaitRun =>
      let st := run_effect d st in
      match raised d with
      | None =>
          let '(tr, p) := begin_cooldown (co_self co) (co_interval co) st in
          (Log Debug :: tr, p, st)
      | Some TimeoutError =>
          let '(tr, p) := begin_cooldown (co_self co) (co_interval co) st in
          (Log Error :: tr, p, st)
      | Some CancelledError =>
          ([Log Info; Log Debug], Suspended (Ended None), st)
      | Some e =>
          if is_Exception e then
            let '(tr, p) := begin_cooldown (co_self co) (co_interval co) st in
            (Log Error :: tr, p, st)
          else ([], Raises e, st)
      end
  | AwaitSleep i n =>
      match raised d with
      | None =>
          let '(f, tr) := wait_pass (co_self co) (S i) n st in
          (Sleep 1 :: tr, Suspended f, st)
      | Some e => ([SleepInterrupted], Raises e, st)
      end
  | _ => ([], Suspended (co_frame co), st)
  end.

(** The handlers of the outer [try]. *)
Definition outer_handler (e : exn) : frame * list event :=
  match e with
  | CancelledError => (Ended None, [Log Info; Log Debug])
  | _ =>
      if is_Exception e then (AwaitBackoff, [Log Error])
      else (Ended (Some e), [])
  end.

(** The coroutine from one resumption to its next [await] or its end. An
    exception raised by the sleep of the handler leaves the coroutine. *)
Definition resume (co : coroutine) (d : delivery) (st : state)
  : frame * list event * state :=
  match co_frame co with
  | Created =>
      match raised d with
      | Some e => (Ended (Some e), [], st)
      | None =>
          let '(f, tr) := enter_pass (co_self co) st in (f, Log Debug :: tr, st)
      end
  | AwaitBackoff =>
      match raised d with
      | None =>
          let '(f, tr) := enter_pass (co_self co) st in (f, Sleep 5 :: tr, st)
      | Some e => (Ended (Some e), [SleepInterrupted], st)
      end
  | Ended _ => (co_frame co, [], st)
  | _ =>
      let '(tr, p, st) := try_body co d st in
      match p with
      | Suspended f => (f, tr, st)
      | Raises e => let '(f, tr') := outer_handler e in (f, tr ++ tr', st)
      end
  end.

(** [task.cancel()] was called on the task. *)
Definition cancel_requested (tid : nat) (st : state) : bool :=
  match task_objs st !! tid with
  | Some t => task_cancel_requested t
  | None => false
  end.

(** What the event loop hands to a task: [CancelledError] when the task
    was asked to cancel, else what the environment gives; a coroutine
    that has not begun awaits nothing. *)
Definition delivered (tid : nat) (co : coroutine) (d : delivery) (st : state)
  : delivery :=
  {| run_effect := run_effect d;
     raised := if cancel_requested tid st then Some CancelledError
               else match co_frame co with
                    | Created => None
                    | _ => raised d
                    end |}.

(** The event loop of the recorder is running. *)
Definition runnable (co : coroutine) (st : state) : bool :=
  match recorders st !! co_self co with
  | Some r => Orchestrator.loop_running r st
  | None => false
  end.

(** [run_forever] is left. *)
Definition halt (lid : nat) (st : state) : state :=
  State.set_loops
    (alter (fun l => {| loop_is_running := false;
                        loop_stop_requested := loop_stop_requested l |}) lid)
    st.

(** The end of a coroutine: the task is done; [KeyboardInterrupt] and
    [SystemExit] are raised again by the task and leave [run_forever],
    and [run_loop], which catches [Exception] only, with it. *)
Definition finish (tid : nat) (co : coroutine) (f : frame) (st : state)
  : state :=
  match f with
  | Ended r =>
      let st :=
        State.set_task_objs
          (alter (fun t => {| task_user := task_user t; task_done := true;
                              task_cancel_requested := task_cancel_requested t |})
                 tid) st in
      match r, recorders st !! co_self co with
      | Some e, Some rec =>
          match e, loop rec with
          | KeyboardInterrupt, Some lid | SystemExit, Some lid => halt lid st
          | _, _ => st
          end
      | _, _ => st
      end
  | _ => st
  end.

(** What happens in the process, one thing at a time. *)
Inductive occurrence : Type :=
| Resume (tid : nat) (d : delivery)  (* the event loop resumes a task *)
| StopCall (rid : nat)               (* another thread calls [stop()] *)
| LoopStops (lid : nat).             (* a loop obeys [loop.stop] *)

Definition set_frame (co : coroutine) (f : frame) (tr : list event)
  : coroutine :=
  {| co_self := co_self co; co_interval := co_interval co; co_frame := f;
     co_trace := co_trace co ++ tr |}.

Definition step (w : world) (x : occurrence) : world :=
  match x with
  | Resume tid d =>
      match coroutines w !! tid with
      | None => w
      | Some co =>
          if negb (runnable co (shared w)) then w
          else
            match co_frame co with
            | Ended _ => w
            | _ =>
                let '(f, tr, st) :=
                  resume co (delivered tid co d (shared w)) (shared w) in
                {| shared := finish tid co f st;
                   coroutines := <[tid := set_frame co f tr]> (coroutines w) |}
            end
      end
  | StopCall rid =>
      {| shared := Orchestrator.stop rid (shared w);
         coroutines := coroutines w |}
  | LoopStops lid =>
      {| shared :=
           State.set_loops
             (alter (fun l => {| loop_is_running :=
                                   loop_is_running l
                                   && negb (loop_stop_requested l);
                                 loop_stop_requested := loop_stop_requested l |})
                    lid) (shared w);
         coroutines := coroutines w |}
  end.

Definition run (xs : list occurrence) (w : world) : world :=
  fold_left step xs w.


(** A sleep that completes. *)
Definition completes : delivery := {| run_effect := fun st => st; raised := None |}.


End EventLoop.

(* ===================================================================== *)
(** * Scenarios *)
(* ===================================================================== *)

Module Scenario.

Definition kwai (id : nat) (name : string) : user :=
  {| user_id := id; user_name := name; user_platform := "Kwai";
     user_init_fails := false |}.

(** A capture whose stream opens and ends by itself. *)
Definition stream_ends : Capture.script :=
  {| Capture.mkdir_raises := None; Capture.open_stream_raises := None;
     Capture.output_open_raises := None;
     Capture.run_ends := Capture.StreamEnded |}.

(** A capture whose output file cannot be opened. *)
Definition output_fails : Capture.script :=
  {| Capture.mkdir_raises := None; Capture.open_stream_raises := None;
     Capture.output_open_raises := Some OSError;
     Capture.run_ends := Capture.StreamEnded |}.

(** A capture that runs until its duration timer fires. *)
Definition timer_fires : Capture.script :=
  {| Capture.mkdir_raises := None; Capture.open_stream_raises := None;
     Capture.output_open_raises := None;
     Capture.run_ends := Capture.TimerFires |}.

(** A capture of [url] in progress: its handles are open and registered. *)
Definition capture_of (url : string) (st : state) : state :=
  match Capture.run_record_open url stream_ends st with
  | inl (st', _, out) => State.set_outputs (insert out true) st'
  | inr (st', _) => st'
  end.

(** A running recorder (object 0, event loop 1) for the users 1 and 2
    (tasks 2 and 3), the capture of user 2 in progress (stream 4,
    output 5). *)
Definition capturing : state :=
  let '(rid, st) :=
    Orchestrator.new_recorder [kwai 1 "a"; kwai 2 "b"] State.init in
  let st := (Orchestrator.start rid st).1 in
  let st := (Orchestrator.run_loop rid st).1 in
  capture_of "http://live/b" st.

(** The same with recorder 0 as the recorder of the global recording of
    the GUI, and a recorder of its own (object 6) for user 3, started
    from the row of that user. *)
Definition global_and_single : state :=
  let st := State.set_app (Some 0) true capturing in
  let '(rc, st) := Orchestrator.new_recorder [kwai 3 "c"] st in
  let st := (Orchestrator.start rc st).1 in
  let st := (Orchestrator.run_loop rc st).1 in
  State.set_user_recording_status (insert 3 true) st.

End Scenario.

(* ===================================================================== *)
(** * Reading the trace of a task *)
(* ===================================================================== *)

Module MonitorTrace.
Import Monitor.

(** How [recorder.run()] may end for the pass to reach its cooldown: it
    returns, times out, or raises an [Exception]. *)
Definition run_survived (o : option exn) : Prop :=
  match o with
  | None => True
  | Some e => is_Exception e = true
  end.

(** A pass in which nothing stops or disturbs the task. *)
Definition quiet (c : cycle) : Prop :=
  loop_running c = true
  /\ run_survived (run_outcome c)
  /\ is_Some (interval c)
  /\ wait_running c = never_stopped
  /\ forall j, sleep_outcome c j = None.

(** The seconds of cooldown a pass is configured for. *)
Definition interval_seconds (c : cycle) : nat :=
  Z.to_nat (default 0%Z (interval c)).

(** How often a trace runs the recorder. *)
Fixpoint runs (tr : list event) : nat :=
  match tr with
  | [] => 0
  | RunRecorder :: tr' => S (runs tr')
  | _ :: tr' => runs tr'
  end.

End MonitorTrace.

Module Exc.
Inductive t : Type :=
| Of (e : exn)
| ValueError
| IntegrityError.
End Exc.

Module OrchestratorMore.
Import Orchestrator.

(** [task._recorder.id == user_id] for a task that has the attribute
    [_recorder]: [_record_task] sets it when the coroutine begins, and
    [started] tells for which tasks that has happened. *)
Definition task_of_user (started : nat -> bool) (user_id : nat) (st : state)
    (tid : nat) : bool :=
  started tid
  && match task_objs st !! tid with
     | Some t => Nat.eqb (task_user t) user_id
     | None => false
     end.

(** The first loop of [stop_user]: cancel and collect. *)
Definition cancel_matching (started : nat -> bool) (user_id : nat)
    (acc : state * list nat) (tid : nat) : state * list nat :=
  if task_of_user started user_id acc.1 tid
  then (cancel_task acc.1 tid, (acc.2 ++ [tid])%list)
  else acc.

(** [l.remove(x)]: the first occurrence goes; [ValueError] without one. *)
Fixpoint list_remove (x : nat) (l : list nat) : option (list nat) :=
  match l with
  | [] => None
  | y :: r =>
      if Nat.eqb y x then Some r
      else match list_remove x r with
           | Some r' => Some (y :: r')
           | None => None
           end
  end.

(** The second loop of [stop_user]. *)
Fixpoint remove_tasks (to_remove : list nat) (l : list nat) : option (list nat) :=
  match to_remove with
  | [] => Some l
  | t :: ts =>
      match list_remove t l with
      | Some l' => remove_tasks ts l'
      | None => None
      end
  end.

(** [stop_user]: an exception is logged and raised again. *)
Definition stop_user (started : nat -> bool) (rid user_id : nat) (st : state)
  : state * option Exc.t :=
  match recorders st !! rid with
  | None => (st, None)
  | Some r =>
      if negb (running r) then (st, None)
      else
        let '(st, to_remove) :=
          fold_left (cancel_matching started user_id) (tasks r) (st, []) in
        match remove_tasks to_remove (tasks r) with
        | Some ts =>
            (State.set_recorders
               (insert rid {| running := running r; tasks := ts;
                              loop := loop r; config_user := config_user r |})
               st, None)
        | None => (st, Some Exc.ValueError)
        end
  end.

End OrchestratorMore.

Module CaptureMore.
Import Capture.

(** A timeout callback that leaves the registry as it is. *)
Definition keeps_registry (cb : option (nat -> state -> state)) : Prop :=
  forall f, cb = Some f -> forall id st, recording (f id st) = recording st.

(** One activation of [Kwai.run] by the monitor loop. *)
Record kwai_call : Type := {
  call_self : nat;                   (* [self.id] *)
  call_duration : option Z;          (* [self.duration] *)
  call_unit : option string;         (* [self.duration_unit] *)
  call_gui : bool;                   (* was a [gui_timeout_callback] given *)
  call_probe : probe_result;
  call_script : script;
}.

Definition kwai_call_run (has_closed closes_stream : bool) (st : state)
    (c : kwai_call) : state :=
  Kwai_run has_closed closes_stream (call_self c) (call_duration c)
           (call_unit c)
           (if call_gui c then Some Orchestrator.gui_timeout_callback else None)
           (call_probe c) (call_script c) st.

(** Activations that run one after the other. *)
Definition kwai_calls (has_closed closes_stream : bool)
    (calls : list kwai_call) (st : state) : state :=
  fold_left (kwai_call_run has_closed closes_stream) calls st.

End CaptureMore.

(** A Python [str] as the list of its code points, where the code counts
    characters ([title[:50]]) or classifies them ([\d]). *)
Module Ustr.
Local Open Scope list_scope.

Definition str : Type := list N.

(** A literal of ASCII characters. *)
Definition lit (s : string) : str := N_of_ascii <$> list_ascii_of_string s.

(** [s.startswith(p)]. *)
Fixpoint startswith (p s : str) : bool :=
  match p, s with
  | [], _ => true
  | a :: p', b :: s' => N.eqb a b && startswith p' s'
  | _ :: _, [] => false
  end.

(** [sub in s]. *)
Fixpoint contains (sub s : str) : bool :=
  startswith sub s
  || match s with
     | [] => false
     | _ :: r => contains sub r
     end.

(** [s.replace(old, new)] for a non-empty [old]: the occurrences are
    taken from left to right and do not overlap; [skip] counts the
    characters of an occurrence that are still to be passed over. *)
Fixpoint replace_from (old new : str) (skip : nat) (s : str) : str :=
  match s with
  | [] => []
  | c :: r =>
      match skip with
      | S k => replace_from old new k r
      | 0 =>
          if startswith old s
          then new ++ replace_from old new (length old - 1) r
          else c :: replace_from old new 0 r
      end
  end.

Definition replace (old new s : str) : str := replace_from old new 0 s.

End Ustr.

(** Regular expressions of the module [re], as far as patterns without
    groups that are referred to, look-around or flags go: for these
    [re.match] succeeds exactly when a prefix of the string belongs to
    the language of the pattern. *)
Module Re.
Import Ustr.
Local Open Scope list_scope.

Inductive re : Type :=
| Void
| Eps
| Class (P : N -> bool)       (* one character of a class *)
| Seq (r1 r2 : re)
| Alt (r1 r2 : re)            (* [r1|r2] *)
| Star (r : re).              (* [r*] *)

Definition Lit (s : str) : re := foldr (fun c r => Seq (Class (N.eqb c)) r) Eps s.
Definition Opt (r : re) : re := Alt r Eps.       (* [r?] *)
Definition Plus (r : re) : re := Seq r (Star r).  (* [r+] *)

Fixpoint nullable (r : re) : bool :=
  match r with
  | Void => false
  | Eps => true
  | Class _ => false
  | Seq r1 r2 => nullable r1 && nullable r2
  | Alt r1 r2 => nullable r1 || nullable r2
  | Star _ => true
  end.

(** What is left of [r] to match after the character [c]. *)
Fixpoint deriv (c : N) (r : re) : re :=
  match r with
  | Void => Void
  | Eps => Void
  | Class P => if P c then Eps else Void
  | Seq r1 r2 =>
      if nullable r1 then Alt (Seq (deriv c r1) r2) (deriv c r2)
      else Seq (deriv c r1) r2
  | Alt r1 r2 => Alt (deriv c r1) (deriv c r2)
  | Star r => Seq (deriv c r) (Star r)
  end.

(** The whole of [s] matches [r]. *)
Definition fullmatch (r : re) (s : str) : bool :=
  nullable (fold_left (fun r c => deriv c r) s r).

(** [bool(re.match(r'^...$', s))] without flags: [$] matches at the end
    of the string and also just before a newline that ends the string. *)
Definition match_to_dollar (r : re) (s : str) : bool :=
  fullmatch r s
  || match reverse s with
     | c :: rest => N.eqb c 10 && fullmatch r (reverse rest)
     | [] => false
     end.

(** The language of a pattern. *)
Inductive lang : re -> str -> Prop :=
| lang_eps : lang Eps []
| lang_class P c : P c = true -> lang (Class P) [c]
| lang_seq r1 r2 s1 s2 : lang r1 s1 -> lang r2 s2 -> lang (Seq r1 r2) (s1 ++ s2)
| lang_alt_l r1 r2 s : lang r1 s -> lang (Alt r1 r2) s
| lang_alt_r r1 r2 s : lang r2 s -> lang (Alt r1 r2) s
| lang_star_nil r : lang (Star r) []
| lang_star_app r s1 s2 :
    lang r s1 -> lang (Star r) s2 -> lang (Star r) (s1 ++ s2).

End Re.

Module Proxy.
Import Ustr Re.
Local Open Scope list_scope.

(** [[a-zA-Z0-9.-]]. *)
Definition host_char (c : N) : bool :=
  (N.leb 97 c && N.leb c 122) || (N.leb 65 c && N.leb c 90)
  || (N.leb 48 c && N.leb c 57) || N.eqb c 46 || N.eqb c 45.

(** [[45]]. *)
Definition four_or_five (c : N) : bool := N.eqb c 52 || N.eqb c 53.

Section WithUnicode.

(** [\d] of a [str] pattern: the decimal digits of Unicode, a table of
    the interpreter. *)
Variable is_decimal : N -> bool.

(** [r'^(http|socks[45]?)://([a-zA-Z0-9.-]+):(\d+)$'] up to the [$]. *)
Definition proxy_pattern : re :=
  Seq (Alt (Lit (lit "http")) (Seq (Lit (lit "socks")) (Opt (Class four_or_five))))
      (Seq (Lit (lit "://"))
           (Seq (Plus (Class host_char))
                (Seq (Lit (lit ":")) (Plus (Class is_decimal))))).

(** [validate_proxy] of gui.py. *)
Definition validate_proxy (proxy : str) : bool :=
  match proxy with
  | [] => true
  | _ => match_to_dollar proxy_pattern proxy
  end.

End WithUnicode.

(** The schemes that the pattern admits. *)
Definition schemes : list str :=
  [lit "http"; lit "socks"; lit "socks4"; lit "socks5"].

(** A proxy text taken apart: scheme, host, port and what follows. *)
Definition proxy_form (is_decimal : N -> bool) (p scheme host port nl : str)
  : Prop :=
  p = scheme ++ lit "://" ++ host ++ lit ":" ++ port ++ nl
  /\ scheme ∈ schemes
  /\ host <> [] /\ forallb host_char host = true
  /\ port <> [] /\ forallb is_decimal port = true
  /\ (nl = [] \/ nl = [10%N]).

(** The proxy that [Kwai.user_search] hands to [requests.post]:
    [proxy_config] is [config.get('proxy')], [socks_installed] tells
    whether [import socks] succeeds, and the result is the URL of
    [use_proxies], [None] standing for [use_proxies = None]. *)
Definition requests_proxy (socks_installed : bool) (proxy_config : option str)
  : option str :=
  match proxy_config with
  | None => None
  | Some [] => None
  | Some p =>
      let p :=
        if existsb (fun pre => startswith pre p)
                   [lit "http://"; lit "https://"; lit "socks5://"]
        then p else lit "http://" ++ p in
      if startswith (lit "socks5://") p
      then if socks_installed then Some p else None
      else Some p
  end.

(** The option [http-proxy] that [get_streamlink] sets from
    [self.proxy]; [None]: the option is not set. *)
Definition streamlink_proxy (proxy : option str) : option str :=
  match proxy with
  | None => None
  | Some [] => None
  | Some p =>
      Some (if contains (lit "socks") p
            then replace (lit "://") (lit "h://") p else p)
  end.

(** The decimal digits of ASCII, which are among those of Unicode. *)
Definition ascii_digit (c : N) : bool := N.leb 48 c && N.leb c 57.

End Proxy.

Module Filename.
Import Ustr.
Local Open Scope list_scope.

(** [char_dict] of [get_filename], in the order of the literal. *)
Definition char_dict : list (N * N) :=
  [(34, 65282); (42, 65290); (58, 65306); (60, 65308); (62, 65310);
   (63, 65311); (47, 65295); (92, 65340); (124, 65372)]%N.

(** The loop [title = title.replace(half, full)]. *)
Definition sanitise (title : str) : str :=
  fold_left (fun t hf => replace [hf.1] [hf.2] t) char_dict title.

(** [self.flag] as [_init_recorder] sets it. *)
Definition flag (platform name : str) : str :=
  lit "[" ++ platform ++ lit "][" ++ name ++ lit "]".

(** [get_filename]; [live_time] is the text of [time.strftime]. *)
Definition get_filename (live_time flag title format : str) : str :=
  lit "[" ++ live_time ++ lit "]" ++ flag ++ take 50 (sanitise title)
  ++ lit "." ++ format.

(** The characters that [get_filename] replaces, and the character that
    each character of a title becomes. *)
Definition halves : list N := char_dict.*1.

Definition full_width (c : N) : N :=
  if existsb (N.eqb c) halves then (c + 65248)%N else c.

End Filename.

(** * config_manager.py: the SQLite store behind the GUI *)
Module ConfigManager.
Local Open Scope list_scope.

(** A row of the table [users]: the columns [platform] and [name] are
    [NOT NULL], [id] is the [INTEGER PRIMARY KEY AUTOINCREMENT]. *)
Record row : Type := {
  row_id : Z;
  row_platform : string;
  row_name : string;
  row_interval : Z;
  row_duration : option Z;              (* [None]: NULL *)
  row_duration_unit : option string;
}.

(** A user dictionary as the callers pass it: [None] stands for a key
    that is missing (for [duration] and [duration_unit], which are read
    with [user.get], also for the value [None]); the values of [id] and
    [interval] are of class [int], those of [platform] and [name] of
    class [str]. Other keys are not read. *)
Record user_dict : Type := {
  u_id : option Z;
  u_platform : option string;
  u_name : option string;
  u_interval : option Z;
  u_duration : option Z;
  u_duration_unit : option string;
}.

(** The dictionary that [get_all_users] and [get_user_by_id] make of a
    row. *)
Definition row_dict (r : row) : user_dict :=
  {| u_id := Some (row_id r); u_platform := Some (row_platform r);
     u_name := Some (row_name r); u_interval := Some (row_interval r);
     u_duration := row_duration r; u_duration_unit := row_duration_unit r |}.

(** The database file [config.db]: the table [users] in the order of the
    row ids, in which a [SELECT] without [ORDER BY] scans it; the counter
    that SQLite keeps for an [AUTOINCREMENT] column, the largest id the
    table has ever held; the table [global_config]. *)
Record db : Type := {
  users : list row;
  sequence : Z;
  global_config : gmap string string;
}.

(** A [ConfigManager]: the database, [self.observers], and the calls
    that the observers have received, each with the key it was given. *)
Record manager : Type := {
  store : db;
  observers : list nat;
  notified : list (nat * string);
}.

(** The state after [_ensure_db] on a new file. *)
Definition new_manager : manager :=
  {| store := {| users := []; sequence := 0; global_config := ∅ |};
     observers := []; notified := [] |}.

Definition set_store (d : db) (m : manager) : manager :=
  {| store := d; observers := observers m; notified := notified m |}.

Definition set_users (l : list row) (d : db) : db :=
  {| users := l; sequence := sequence d; global_config := global_config d |}.

Definition add_observer (observer : nat) (m : manager) : manager :=
  {| store := store m; observers := observers m ++ [observer];
     notified := notified m |}.

(** [if observer in self.observers: self.observers.remove(observer)]. *)
Definition remove_observer (observer : nat) (m : manager) : manager :=
  {| store := store m;
     observers := default (observers m)
                    (OrchestratorMore.list_remove observer (observers m));
     notified := notified m |}.

Definition _notify_observers (key : string) (m : manager) : manager :=
  {| store := store m; observers := observers m;
     notified := notified m ++ ((fun o => (o, key)) <$> observers m) |}.

(** [INSERT OR REPLACE INTO global_config]. *)
Definition set_global_config (key value : string) (m : manager) : manager :=
  _notify_observers key
    (set_store {| users := users (store m); sequence := sequence (store m);
                  global_config := <[key:=value]> (global_config (store m)) |}
               m).

(** [SELECT * FROM users WHERE id = ?] and [fetchone]. *)
Definition get_user_by_id (user_id : Z) (m : manager) : option row :=
  List.find (fun r => Z.eqb (row_id r) user_id) (users (store m)).

Definition get_global_config (key default_ : string) (m : manager) : string :=
  default default_ (global_config (store m) !! key).

Definition get_all_global_config (m : manager) : gmap string string :=
  global_config (store m).

Definition get_all_users (m : manager) : list row := users (store m).

(** [add_user]: the new row gets the id after the largest id the table
    has ever held; the result is [c.lastrowid], or the [KeyError] of a
    key that is missing. *)
Definition add_user (user : user_dict) (m : manager) : manager * (Exc.t + Z) :=
  match u_platform user, u_name user, u_interval user with
  | Some platform, Some name, Some interval =>
      let user_id := (sequence (store m) + 1)%Z in
      (_notify_observers "users"
         (set_store
            {| users := users (store m)
                        ++ [ {| row_id := user_id; row_platform := platform;
                                row_name := name; row_interval := interval;
                                row_duration := u_duration user;
                                row_duration_unit := u_duration_unit user |} ];
               sequence := user_id;
               global_config := global_config (store m) |} m),
       inr user_id)
  | _, _, _ => (m, inl (Exc.Of KeyError))
  end.

(** [update_user]: [ValueError] without the key [id]; the [UPDATE]
    changes the row of that id, if there is one. *)
Definition update_user (user : user_dict) (m : manager)
  : manager * option Exc.t :=
  match u_id user with
  | None => (m, Some Exc.ValueError)
  | Some user_id =>
      match u_platform user, u_name user, u_interval user with
      | Some platform, Some name, Some interval =>
          (_notify_observers "users"
             (set_store
                (set_users
                   ((fun r =>
                       if Z.eqb (row_id r) user_id
                       then {| row_id := row_id r; row_platform := platform;
                               row_name := name; row_interval := interval;
                               row_duration := u_duration user;
                               row_duration_unit := u_duration_unit user |}
                       else r) <$> users (store m))
                   (store m)) m),
           None)
      | _, _, _ => (m, Some (Exc.Of KeyError))
      end
  end.

Definition delete_user (user_id : Z) (m : manager) : manager :=
  _notify_observers "users"
    (set_store
       (set_users (filter (fun r => row_id r <> user_id) (users (store m)))
                  (store m)) m).

(** A configuration dictionary: the items under the keys other than
    [user], and the list under [user] if the key is there. *)
Record config : Type := {
  cfg_globals : gmap string Py.value;
  cfg_user : option (list user_dict);
}.

(** [{**self.get_all_global_config(), 'user': self.get_all_users()}]. *)
Definition export_config (m : manager) : config :=
  {| cfg_globals := Py.VStr <$> delete "user" (get_all_global_config m);
     cfg_user := Some (row_dict <$> get_all_users m) |}.

(** [INSERT INTO users (id, ...)] with a given id: the row takes its
    place in the order of the ids; an id that the table holds already
    violates the primary key ([None]). *)
Fixpoint insert_row (r : row) (l : list row) : option (list row) :=
  match l with
  | [] => Some [r]
  | x :: l' =>
      if Z.ltb (row_id r) (row_id x) then Some (r :: l)
      else if Z.eqb (row_id r) (row_id x) then None
      else cons x <$> insert_row r l'
  end.

(** One pass of the loop over [config.get('user', [])]: the columns
    [duration] and [duration_unit] are not given and take their
    defaults. *)
Definition import_user (acc : Exc.t + list row * Z) (user : user_dict)
  : Exc.t + list row * Z :=
  match acc with
  | inl e => inl e
  | inr (rows, seq) =>
      match u_id user, u_platform user, u_name user, u_interval user with
      | Some user_id, Some platform, Some name, Some interval =>
          match insert_row {| row_id := user_id; row_platform := platform;
                              row_name := name; row_interval := interval;
                              row_duration := Some 120%Z;
                              row_duration_unit := Some "minutes" |} rows with
          | Some rows' => inr (rows', Z.max seq user_id)
          | None => inl Exc.IntegrityError
          end
      | _, _, _, _ => inl (Exc.Of KeyError)
      end
  end.

(** [import_config]: both tables are emptied and filled from [config];
    an exception leaves the function before [conn.commit()], and
    [conn.close()] then drops what was written. *)
Definition import_config (cfg : config) (m : manager)
  : manager * option Exc.t :=
  match fold_left import_user (default [] (cfg_user cfg))
                  (inr ([], sequence (store m))) with
  | inl e => (m, Some e)
  | inr (rows, seq) =>
      (_notify_observers "config_imported"
         (set_store
            {| users := rows; sequence := seq;
               global_config :=
                 Py.str <$> filter (fun kv => kv.1 <> "user") (cfg_globals cfg) |}
            m),
       None)
  end.

(** The calls that change a [ConfigManager]. *)
Inductive call : Type :=
| SetGlobalConfig (key value : string)
| AddUser (user : user_dict)
| UpdateUser (user : user_dict)
| DeleteUser (user_id : Z)
| ImportConfig (cfg : config)
| AddObserver (observer : nat)
| RemoveObserver (observer : nat).

Definition run_call (m : manager) (c : call) : manager :=
  match c with
  | SetGlobalConfig key value => set_global_config key value m
  | AddUser user => (add_user user m).1
  | UpdateUser user => (update_user user m).1
  | DeleteUser user_id => delete_user user_id m
  | ImportConfig cfg => (import_config cfg m).1
  | AddObserver o => add_observer o m
  | RemoveObserver o => remove_observer o m
  end.

(** The ids of the table are in ascending order without repetition, and
    none is beyond the counter. *)
Definition consistent (d : db) : Prop :=
  StronglySorted Z.lt (row_id <$> users d)
  /\ Forall (fun r => (row_id r <= sequence d)%Z) (users d).

(** A row after an export and an import. *)
Definition reimported (r : row) : row :=
  {| row_id := row_id r; row_platform := row_platform r;
     row_name := row_name r; row_interval := row_interval r;
     row_duration := Some 120%Z; row_duration_unit := Some "minutes" |}.

End ConfigManager.

(** * gui.py: what the GUI hands to the recorder, and the user form *)
Module Gui.
Import ConfigManager.
Local Open Scope list_scope.

(** The configuration dictionary that the GUI passes to [LiveRecorder]:
    [None] stands for a key that the dictionary does not have. *)
Record recorder_config : Type := {
  rc_proxy : option string;
  rc_output : option string;
  rc_user : list row;
}.

(** [live_recorder_config] of [toggle_recording], built from
    [export_config()]; [isdir] is [os.path.isdir]. *)
Definition global_recording_config (isdir : string -> bool) (m : manager)
  : recorder_config :=
  let exported_config := export_config m in
  let output_dir_from_config :=
    default "" (Py.str <$> cfg_globals exported_config !! "output") in
  {| rc_proxy := Py.str <$> cfg_globals exported_config !! "proxy";
     rc_user := get_all_users m;
     rc_output :=
       if negb (String.eqb output_dir_from_config "")
          && isdir output_dir_from_config
       then Some output_dir_from_config else None |}.

(** [config] of [start_user_recording]; [None]: the output directory is
    set and is no directory, and the function returns. *)
Definition user_recording_config (isdir : string -> bool) (m : manager)
    (user_data : row) : option recorder_config :=
  let output_dir := get_global_config "output" "" m in
  if negb (String.eqb output_dir "") && negb (isdir output_dir) then None
  else Some {| rc_proxy := Some (get_global_config "proxy" "" m);
               rc_output := Some output_dir;
               rc_user := [user_data] |}.

(** The attributes of a [Kwai] recorder that come from the
    configuration. *)
Record kwai : Type := {
  k_id : Z;
  k_name : string;
  k_flag : string;
  k_interval : Z;
  k_proxy : string;
  k_output : string;
  k_duration : option Z;
  k_duration_unit : option string;
}.

(** [Kwai.__init__(config, user)] for a row of the store as [user]:
    [_init_recorder] finds every key it reads and ends with
    [get_client()], which may raise ([client_raises]); then
    [self.proxy = config['proxy']] needs the key [proxy]. *)
Definition Kwai_init (client_raises : option exn) (cfg : recorder_config)
    (user : row) : Exc.t + kwai :=
  match client_raises with
  | Some e => inl (Exc.Of e)
  | None =>
      match rc_proxy cfg with
      | None => inl (Exc.Of KeyError)
      | Some proxy =>
          inr {| k_id := row_id user; k_name := row_name user;
                 k_flag := "[" +:+ row_platform user +:+ "][" +:+ row_name user
                           +:+ "]";
                 k_interval := row_interval user;
                 k_proxy := proxy;
                 k_output := default "output" (rc_output cfg);
                 k_duration := row_duration user;
                 k_duration_unit := row_duration_unit user |}
      end
  end.

(** A user of the platform [Kwai] as the orchestrator sees it. *)
Definition orchestrator_user (client_raises : row -> option exn)
    (cfg : recorder_config) (r : row) : user :=
  {| user_id := Z.to_nat (row_id r); user_name := row_name r;
     user_platform := row_platform r;
     user_init_fails :=
       match Kwai_init (client_raises r) cfg r with
       | inl _ => true
       | inr _ => false
       end |}.

(** The text fields and selections of the user form. *)
Record form : Type := {
  platform_select : string;
  name_input : string;
  interval_input : string;
  duration_input : string;
  unit_select : string;
}.

(** The part of the application that the user handlers work on:
    [self.config_manager] and [self.current_user], which is [None] or a
    row: it is only ever assigned a row of the store or the dictionary
    [updated_user], which carries the id of the value before. *)
Record app : Type := {
  config_manager : manager;
  current_user : option row;
}.

Section WithBuiltins.

(** [str.strip], [str.lower] and [int] on a text ([None]: [ValueError])
    belong to the interpreter. *)
Variable strip : string -> string.
Variable lower : string -> string.
Variable int : string -> option Z.

(** [validate_interval]. *)
Definition validate_interval (interval : string) : bool :=
  match int interval with
  | Some value => Z.ltb 0 value
  | None => false
  end.

(** [validate_user_input]. *)
Definition validate_user_input (f : form) : bool :=
  let name := strip (name_input f) in
  if String.eqb name "" then false
  else
    let interval := strip (interval_input f) in
    if negb (validate_interval interval) then false
    else
      let duration := strip (duration_input f) in
      if negb (String.eqb duration "") && negb (validate_interval duration)
      then false
      else true.

(** The values that [add_user] and [update_user] read from the form:
    interval, duration and duration unit; [None]: an [int()] raised
    [ValueError]. *)
Definition form_values (f : form) : option (Z * option Z * option string) :=
  let duration := strip (duration_input f) in
  match (if String.eqb duration "" then Some None
         else Some <$> int duration) with
  | None => None
  | Some duration =>
      let duration_unit :=
        if Capture.truthy_int duration then Some (unit_select f) else None in
      match int (strip (interval_input f)) with
      | None => None
      | Some interval => Some (interval, duration, duration_unit)
      end
  end.

(** The test of the loops over [existing_users]. *)
Definition same_user (name platform : string) (user : row) : bool :=
  String.eqb (lower (row_name user)) (lower name)
  && String.eqb (lower (row_platform user)) (lower platform).

(** [refresh_users_table], as far as [self.current_user] goes. *)
Definition refresh_users_table (a : app) : app :=
  match current_user a, get_all_users (config_manager a) with
  | None, first_user :: _ =>
      {| config_manager := config_manager a; current_user := Some first_user |}
  | _, _ => a
  end.

(** [clear_user_form]. *)
Definition clear_user_form (a : app) : app :=
  {| config_manager := config_manager a; current_user := None |}.

(** The handler [add_user]; every exception ends in a dialog. *)
Definition add_user (f : form) (a : app) : app :=
  if negb (validate_user_input f) then a
  else
    match form_values f with
    | None => a
    | Some (interval, duration, duration_unit) =>
        let name := strip (name_input f) in
        let platform := platform_select f in
        if existsb (same_user name platform)
                   (get_all_users (config_manager a))
        then a
        else
          let new_user :=
            {| u_id := None; u_platform := Some platform;
               u_name := Some name; u_interval := Some interval;
               u_duration := duration; u_duration_unit := duration_unit |} in
          clear_user_form
            (refresh_users_table
               {| config_manager :=
                    (ConfigManager.add_user new_user (config_manager a)).1;
                  current_user := current_user a |})
    end.

(** The handler [update_user]. *)
Definition update_user (f : form) (a : app) : app :=
  match current_user a with
  | None => a
  | Some cur =>
      if negb (validate_user_input f) then a
      else
        match form_values f with
        | None => a
        | Some (interval, duration, duration_unit) =>
            let name := strip (name_input f) in
            let platform := platform_select f in
            if (negb (String.eqb (lower name) (lower (row_name cur)))
                || negb (String.eqb (lower platform) (lower (row_platform cur))))
               && existsb (same_user name platform)
                          (get_all_users (config_manager a))
            then a
            else
              let updated_user :=
                {| u_id := Some (row_id cur); u_platform := Some platform;
                   u_name := Some name; u_interval := Some interval;
                   u_duration := duration;
                   u_duration_unit := duration_unit |} in
              {| config_manager :=
                   (ConfigManager.update_user updated_user
                                              (config_manager a)).1;
                 current_user :=
                   Some {| row_id := row_id cur; row_platform := platform;
                           row_name := name; row_interval := interval;
                           row_duration := duration;
                           row_duration_unit := duration_unit |} |}
        end
  end.

(** The handler [delete_user]. *)
Definition delete_user (a : app) : app :=
  match current_user a with
  | None => a
  | Some cur =>
      clear_user_form
        (refresh_users_table
           {| config_manager :=
                ConfigManager.delete_user (row_id cur) (config_manager a);
              current_user := current_user a |})
  end.

(** [on_user_selected]: [selection] is the id of the selected row of the
    table, if a row is selected. *)
Definition on_user_selected (selection : option Z) (a : app) : app :=
  match selection with
  | None => clear_user_form a
  | Some user_id =>
      {| config_manager := config_manager a;
         current_user := get_user_by_id user_id (config_manager a) |}
  end.

(** What the user does with the form and the table. *)
Inductive action : Type :=
| AddUser (f : form)
| UpdateUser (f : form)
| DeleteUser
| Select (selection : option Z)
| Refresh.

Definition handle (a : app) (x : action) : app :=
  match x with
  | AddUser f => add_user f a
  | UpdateUser f => update_user f a
  | DeleteUser => delete_user a
  | Select selection => on_user_selected selection a
  | Refresh => refresh_users_table a
  end.

(** Name and platform of a row without regard to case. *)
Definition user_key (r : row) : string * string :=
  (lower (row_name r), lower (row_platform r)).

(** What the handlers keep: the ids are in order, no two rows agree in
    name and platform up to case, and the selected user agrees in name
    and platform with the row of its id. *)
Definition sound (a : app) : Prop :=
  consistent (store (config_manager a))
  /\ NoDup (user_key <$> get_all_users (config_manager a))
  /\ forall cur r, current_user a = Some cur ->
       r ∈ get_all_users (config_manager a) ->
       row_id r = row_id cur -> user_key r = user_key cur.

End WithBuiltins.

End Gui.

(* ===================================================================== *)
(** * Properties *)
(* ===================================================================== *)

Local Open Scope list_scope.

Module PyFacts.

Lemma append_cons (x : ascii) (a b : string) :
  String x a +:+ b = String x (a +:+ b).
Proof. reflexivity. Qed.

Lemma append_empty_l (a : string) : "" +:+ a = a.
Proof. reflexivity. Qed.

Lemma append_assoc (a b c : string) : (a +:+ b) +:+ c = a +:+ (b +:+ c).
Proof.
  induction a as [|x a IH]; [done|].
  rewrite !append_cons. by f_equal.
Qed.

Lemma append_empty_r (a : string) : a +:+ "" = a.
Proof.
  induction a as [|x a IH]; [done|].
  rewrite append_cons. by f_equal.
Qed.

Lemma split_without (sep : ascii) (p : string) :
  Py.contains sep p = false -> Py.split sep p = [p].
Proof.
  induction p as [|a p IH]; simpl; [done|].
  destruct (Ascii.eqb a sep); [done|].
  intros H. by rewrite (IH H).
Qed.

Lemma split_append (sep : ascii) (p r : string) :
  Py.contains sep p = false ->
  Py.split sep (p +:+ String sep r) = p :: Py.split sep r.
Proof.
  induction p as [|a p IH]; [rewrite append_empty_l|rewrite append_cons]; simpl.
  - by rewrite Ascii.eqb_refl.
  - destruct (Ascii.eqb a sep); [done|].
    intros H. by rewrite (IH H).
Qed.

Lemma split_join (sep : ascii) (l : list string) :
  l <> [] ->
  Forall (fun p => Py.contains sep p = false) l ->
  Py.split sep (Py.join sep l) = l.
Proof.
  induction l as [|p l IH]; [done|].
  intros _ Hl. inversion Hl as [|? ? Hp Hl']; subst.
  destruct l as [|q l].
  - simpl. by apply split_without.
  - change (Py.join sep (p :: q :: l))
      with (p +:+ String sep (Py.join sep (q :: l))).
    rewrite split_append by done. f_equal. by apply IH.
Qed.

Lemma split1_append (sep : ascii) (k v : string) :
  Py.contains sep k = false ->
  Py.split1 sep (k +:+ String sep v) = Some (k, v).
Proof.
  induction k as [|a k IH]; [rewrite append_empty_l|rewrite append_cons]; simpl.
  - by rewrite Ascii.eqb_refl.
  - destruct (Ascii.eqb a sep); [done|].
    intros H. by rewrite (IH H).
Qed.

Lemma contains_append (c : ascii) (a b : string) :
  Py.contains c (a +:+ b) = Py.contains c a || Py.contains c b.
Proof.
  induction a as [|x a IH]; [done|].
  rewrite append_cons. simpl. by destruct (Ascii.eqb x c).
Qed.

(** ** Dictionaries as finite maps *)

Section Dict.
Context {V : Type}.
Implicit Types (d items : list (string * V)) (k : string) (v : V).

Lemma dict_set_keys k v d :
  k ∈ d.*1 -> (Py.dict_set k v d).*1 = d.*1.
Proof.
  induction d as [|[k' v'] d IH]; simpl.
  - by intros ?%elem_of_nil.
  - destruct (String.eqb_spec k' k) as [->|Hne]; [done|].
    intros [?|Hin]%elem_of_cons; [congruence|].
    rewrite !fmap_cons. f_equal. by apply IH.
Qed.

Lemma dict_set_keys_new k v d :
  k ∉ d.*1 -> (Py.dict_set k v d).*1 = d.*1 ++ [k].
Proof.
  induction d as [|[k' v'] d IH]; simpl; [done|].
  intros Hnin. apply not_elem_of_cons in Hnin as [Hne Hnin].
  destruct (String.eqb_spec k' k) as [->|_]; [done|].
  rewrite !fmap_cons. simpl. f_equal. by apply IH.
Qed.

Lemma dict_set_NoDup k v d : NoDup d.*1 -> NoDup (Py.dict_set k v d).*1.
Proof.
  intros Hd. destruct (decide (k ∈ d.*1)) as [Hin|Hnin].
  - by rewrite dict_set_keys.
  - rewrite dict_set_keys_new by done.
    apply NoDup_app. split_and!; [done| |apply NoDup_singleton].
    intros x Hx ->%list_elem_of_singleton. done.
Qed.

Lemma dict_set_to_map k v d :
  (list_to_map (Py.dict_set k v d) : gmap string V)
  = <[k:=v]> (list_to_map d).
Proof.
  induction d as [|[k' v'] d IH]; simpl; [done|].
  destruct (String.eqb_spec k' k) as [->|Hne]; simpl.
  - by rewrite insert_insert_eq.
  - rewrite IH. by apply insert_insert_ne.
Qed.

Lemma dict_update_NoDup d items :
  NoDup d.*1 -> NoDup (Py.dict_update d items).*1.
Proof.
  revert d. induction items as [|x items IH]; intros d Hd; [done|].
  apply IH. by apply dict_set_NoDup.
Qed.

Lemma dict_update_to_map d items :
  (list_to_map (Py.dict_update d items) : gmap string V)
  = list_to_map (reverse items) ∪ list_to_map d.
Proof.
  revert d. induction items as [|[k v] items IH]; intros d.
  - simpl. by rewrite (left_id_L ∅ (∪)).
  - change (Py.dict_update d ((k, v) :: items))
      with (Py.dict_update (Py.dict_set k v d) items).
    rewrite IH, dict_set_to_map, reverse_cons, list_to_map_app.
    simpl. rewrite <-(assoc_L (∪)). f_equal.
    by rewrite <-insert_union_l, (left_id_L ∅ (∪)).
Qed.

Lemma dict_items_to_map d :
  NoDup d.*1 ->
  (list_to_map (reverse d) : gmap string V) = list_to_map d.
Proof.
  intros Hd. apply list_to_map_proper.
  - by rewrite fmap_reverse, reverse_Permutation.
  - by rewrite reverse_Permutation.
Qed.

End Dict.

(** ** Sorting by key *)

Lemma ltb_false_le (x y : string) : String.ltb y x = false -> String.le x y.
Proof.
  unfold String.le, String.ltb, String.leb.
  rewrite (String.compare_antisym y x).
  by destruct (String.compare x y).
Qed.

Lemma ltb_true_le (x y : string) : String.ltb y x = true -> String.le y x.
Proof.
  unfold String.le, String.ltb, String.leb.
  by destruct (String.compare y x).
Qed.

Section Sorting.
Context {V : Type}.
Implicit Types (x : string * V) (l : list (string * V)).

Lemma insert_by_key_Permutation x l : Py.insert_by_key x l ≡ₚ x :: l.
Proof.
  induction l as [|y l IH]; simpl; [done|].
  destruct (String.ltb y.1 x.1); [|done].
  rewrite IH. apply perm_swap.
Qed.

Lemma sorted_by_key_Permutation l : Py.sorted_by_key l ≡ₚ l.
Proof.
  induction l as [|x l IH]; simpl; [done|].
  by rewrite insert_by_key_Permutation, IH.
Qed.

Lemma insert_by_key_HdRel x y l :
  Py.key_le y x -> HdRel Py.key_le y l -> HdRel Py.key_le y (Py.insert_by_key x l).
Proof.
  intros Hyx Hl. destruct l as [|z l]; simpl; [by constructor|].
  inversion Hl; subst.
  destruct (String.ltb z.1 x.1); by constructor.
Qed.

Lemma insert_by_key_Sorted x l :
  Sorted Py.key_le l -> Sorted Py.key_le (Py.insert_by_key x l).
Proof.
  induction l as [|y l IH]; simpl; intros Hl.
  - by repeat constructor.
  - inversion Hl as [|? ? Hl' Hhd]; subst.
    destruct (String.ltb y.1 x.1) eqn:Hlt.
    + constructor; [by apply IH|].
      apply insert_by_key_HdRel; [|done]. by apply ltb_true_le.
    + constructor; [done|]. constructor. by apply ltb_false_le.
Qed.

Lemma sorted_by_key_Sorted l : Sorted Py.key_le (Py.sorted_by_key l).
Proof.
  induction l as [|x l IH]; simpl; [constructor|].
  by apply insert_by_key_Sorted.
Qed.

Lemma sorted_by_key_keys l :
  Sorted String.le (Py.sorted_by_key l).*1.
Proof. eapply (Sorted_fmap _ Py.key_le); [done|]. apply sorted_by_key_Sorted. Qed.

End Sorting.

End PyFacts.

Module SignatureFacts.
Import Signature PyFacts.

Section WithLibrary.
Variable unquote : string -> string.
Variable md5_hexdigest : string -> string.

Lemma render_pair_no_amp kv :
  well_formed_pair kv -> Py.contains "&" (render_pair kv) = false.
Proof.
  intros (Hk & _ & Hv). unfold render_pair.
  rewrite !contains_append, Hk, Hv. done.
Qed.

Lemma parse_render_pair d kv :
  well_formed_pair kv -> parse_pair d (render_pair kv) = Py.dict_set kv.1 kv.2 d.
Proof.
  intros (_ & Hk & _). unfold parse_pair, render_pair.
  change ("=" +:+ kv.2) with (String "=" kv.2).
  by rewrite split1_append.
Qed.

Lemma fold_parse_render pairs d :
  Forall well_formed_pair pairs ->
  fold_left parse_pair (map render_pair pairs) d = Py.dict_update d pairs.
Proof.
  intros Hwf. revert d.
  induction Hwf as [|kv pairs Hkv _ IH]; intros d; [done|].
  simpl. rewrite parse_render_pair by done. apply IH.
Qed.

Lemma query_obj_render pairs :
  pairs <> [] -> Forall well_formed_pair pairs ->
  query_obj (render_query pairs) = Py.dict_update [] pairs.
Proof.
  intros Hne Hwf. unfold query_obj, render_query.
  rewrite split_join.
  - by apply fold_parse_render.
  - by destruct pairs.
  - apply Forall_fmap. eapply Forall_impl; [done|].
    intros kv ?. by apply render_pair_no_amp.
Qed.

Lemma dict_of_items (items : list (string * string)) :
  (list_to_map (Py.dict_update [] items) : gmap string string) = params items.
Proof.
  rewrite dict_update_to_map. simpl. by rewrite (right_id_L ∅ (∪)).
Qed.

Lemma dict_of_dict (d : list (string * string)) :
  NoDup d.*1 ->
  (list_to_map (Py.dict_update [] d) : gmap string string) = list_to_map d.
Proof. intros Hd. rewrite dict_of_items. by apply dict_items_to_map. Qed.

Lemma map_object_NoDup q post : NoDup (map_object q post).*1.
Proof.
  unfold map_object. do 2 apply dict_update_NoDup. simpl. constructor.
Qed.

Lemma map_object_render pairs post :
  pairs <> [] -> Forall well_formed_pair pairs ->
  (list_to_map (map_object (render_query pairs) post) : gmap string string)
  = merged pairs post.
Proof.
  intros Hne Hwf. unfold map_object, merged, post_obj.
  rewrite dict_update_to_map, query_obj_render by done.
  rewrite dict_items_to_map, dict_of_items
    by (apply dict_update_NoDup; simpl; constructor).
  f_equal. rewrite dict_of_dict by (apply dict_update_NoDup; simpl; constructor).
  apply dict_of_items.
Qed.

(** The sorted items of a dictionary are its map read at the sorted keys. *)
Lemma keys_of_dict (d : list (string * string)) :
  NoDup d.*1 ->
  d.*1 ≡ₚ elements (dom (list_to_map d : gmap string string)).
Proof.
  intros Hd. apply NoDup_Permutation; [done|apply NoDup_elements|].
  intros k. rewrite elem_of_elements, dom_list_to_map_L.
  by rewrite elem_of_list_to_set.
Qed.

Lemma sorted_keys_of_dict (d : list (string * string)) :
  NoDup d.*1 ->
  (Py.sorted_by_key d).*1 = sorted_keys (list_to_map d).
Proof.
  intros Hd. unfold sorted_keys.
  apply (Sorted_unique String.le).
  - apply sorted_by_key_keys.
  - apply Sorted_merge_sort; apply _.
  - rewrite merge_sort_Permutation, <-keys_of_dict by done.
    by rewrite sorted_by_key_Permutation.
Qed.

Lemma items_from_keys (m : gmap string string) (l : list (string * string)) :
  (forall kv, kv ∈ l -> m !! kv.1 = Some kv.2) ->
  l = map (fun k => (k, default "" (m !! k))) l.*1.
Proof.
  induction l as [|[k v] l IH]; intros Hl; [done|].
  rewrite fmap_cons. simpl. f_equal.
  - assert (m !! k = Some v) as -> by (apply (Hl (k, v)); left). done.
  - apply IH. intros kv ?. apply Hl. by right.
Qed.

Lemma sorted_items_of_dict (d : list (string * string)) :
  NoDup d.*1 ->
  Py.sorted_by_key d
  = map (fun k => (k, default "" ((list_to_map d : gmap string string) !! k)))
        (sorted_keys (list_to_map d)).
Proof.
  intros Hd. rewrite <-sorted_keys_of_dict by done.
  apply items_from_keys. intros [k v] Hkv.
  apply elem_of_list_to_map_1; [done|].
  by rewrite <-(sorted_by_key_Permutation d).
Qed.

Lemma fold_add_item (f : string -> string) (ks : list string) (acc : string) :
  fold_left (add_item unquote) (map (fun k => (k, f k)) ks) acc
  = acc +:+ foldr String.append ""
              (map (fun k => k +:+ "=" +:+ unquote (f k))
                   (filter (fun k => signed_key k = true) ks)).
Proof.
  revert acc. induction ks as [|k ks IH]; intros acc; simpl.
  - by rewrite append_empty_r.
  - rewrite IH, filter_cons. unfold add_item at 1. simpl fst. simpl snd.
    destruct (decide (signed_key k = true)) as [Hs|Hs];
      unfold signed_key in Hs;
      destruct (existsb (String.eqb k) excluded); simpl in *; try done.
    by rewrite !append_assoc.
Qed.

Lemma url_string_of_dict q post :
  url_string unquote q post
  = canonical unquote (list_to_map (map_object q post)) +:+ secret.
Proof.
  unfold url_string, canonical.
  rewrite (sorted_items_of_dict _ (map_object_NoDup q post)).
  by rewrite fold_add_item.
Qed.

Lemma post_keys (post : list (string * Py.value)) :
  (map (fun kv => (kv.1, Py.str kv.2)) post).*1 = post.*1.
Proof. induction post as [|kv post IH]; simpl; [done | by f_equal]. Qed.

Lemma merged_post_order pairs (post post' : list (string * Py.value)) :
  NoDup post.*1 -> post ≡ₚ post' -> merged pairs post' = merged pairs post.
Proof.
  intros Hnd Hperm. unfold merged, params. f_equal.
  apply list_to_map_proper.
  - by rewrite fmap_reverse, reverse_Permutation, post_keys, <-Hperm.
  - rewrite !reverse_Permutation. by apply Permutation_map.
Qed.

(** C2. For a query string made of one or more ampersand-separated
    [key=value] pairs (no [&] or [=] inside a key, no [&] inside a
    value) and any post dictionary, [create_signature] is the hex MD5
    digest of: the merged parameters (post over query, a later pair
    over an earlier one), read in ascending key order, without the keys
    [sig], [__NS_sig3], [__NStokensig], each as [key=unquote(value)],
    followed by the secret [382700b563f4]. Hence the result is a
    function of the parameters alone: listing the post dictionary in
    another order gives the same signature. *)
Theorem create_signature_canonical pairs post :
  pairs <> [] -> Forall well_formed_pair pairs ->
  create_signature unquote md5_hexdigest (render_query pairs) post
  = spec_signature unquote md5_hexdigest pairs post
  /\ forall post', NoDup post.*1 -> post ≡ₚ post' ->
       create_signature unquote md5_hexdigest (render_query pairs) post'
       = create_signature unquote md5_hexdigest (render_query pairs) post.
Proof.
  intros Hne Hwf.
  assert (forall p,
    create_signature unquote md5_hexdigest (render_query pairs) p
    = spec_signature unquote md5_hexdigest pairs p) as Hspec.
  { intros p. unfold create_signature, spec_signature.
    by rewrite url_string_of_dict, map_object_render. }
  split; [apply Hspec|].
  intros post' Hnd Hperm. rewrite !Hspec. unfold spec_signature.
  by rewrite (merged_post_order pairs post post').
Qed.

End WithLibrary.

Lemma create_signature_canonical_witness :
  let pairs := [("b", "2"); ("a", "1%20x"); ("sig", "0"); ("b", "3")] in
  let post := [("page", Py.VInt 1); ("a", Py.VStr "9")] in
  create_signature id id (render_query pairs) post
  = spec_signature id id pairs post
  /\ forall post', NoDup post.*1 -> post ≡ₚ post' ->
       create_signature id id (render_query pairs) post'
       = create_signature id id (render_query pairs) post.
Proof.
  apply (create_signature_canonical id id); [done|].
  repeat constructor.
Defined.

End SignatureFacts.

Module EventLoopFacts.
Import Monitor EventLoop.





(** The body of the [try] reads the delivery as the environment gave it
    when the task was not asked to cancel. *)
Lemma try_body_delivered (tid : nat) (co : coroutine) (d : delivery)
    (st : state) (e : exn) :
  cancel_requested tid st = false ->
  (try_body co d st).1.2 = Raises e ->
  try_body co (delivered tid co d st) st = try_body co d st
  /\ (co_frame co = AwaitRun \/ exists i n, co_frame co = AwaitSleep i n).
Proof.
  intros Hc Hraise. unfold delivered. rewrite Hc.
  unfold try_body in *. destruct (co_frame co) eqn:Hf; try done.
  - split; [done|by left].
  - split; [done|right; eauto].
Qed.



(** An exception outside the class [Exception], other than a
    cancellation, is no such fault: it ends the task and takes the event
    loop with it, and no task of that recorder is resumed again. *)
Lemma base_exception_stops_all (w : world) (tid : nat) (co : coroutine)
    (d : delivery) (e : exn) (r : recorder) (lid : nat) :
  coroutines w !! tid = Some co ->
  runnable co (shared w) = true ->
  cancel_requested tid (shared w) = false ->
  (try_body co d (shared w)).1.2 = Raises e ->
  e = KeyboardInterrupt \/ e = SystemExit ->
  recorders (try_body co d (shared w)).2 !! co_self co = Some r ->
  loop r = Some lid ->
  let w1 := step w (Resume tid d) in
  co_frame <$> coroutines w1 !! tid = Some (Ended (Some e))
  /\ forall j co' d', coroutines w1 !! j = Some co' ->
       co_self co' = co_self co -> step w1 (Resume j d') = w1.
Proof.
  intros Hco Hrun Hcancel Hraise He Hr Hl. cbv zeta.
  destruct (try_body_delivered tid co d (shared w) e Hcancel Hraise)
    as [Hd Hframe].
  assert (step w (Resume tid d)
          = {| shared := finish tid co (Ended (Some e))
                                (try_body co d (shared w)).2;
               coroutines :=
                 <[tid := set_frame co (Ended (Some e))
                            (try_body co d (shared w)).1.1]>
                   (coroutines w) |}) as ->.
  { cbn [step]. rewrite Hco, Hrun. cbn [negb].
    assert (resume co (delivered tid co d (shared w)) (shared w)
            = (Ended (Some e), (try_body co d (shared w)).1.1,
               (try_body co d (shared w)).2)) as Hres.
    { unfold resume. rewrite Hd.
      destruct (try_body co d (shared w)) as [[tr p] st]. cbn in *. subst p.
      assert (outer_handler e = (Ended (Some e), [])) as ->
        by by destruct He as [->| ->].
      rewrite app_nil_r.
      by destruct Hframe as [->|(i & n & ->)]. }
    destruct Hframe as [Hf|(i & n & Hf)]; rewrite Hf; by rewrite Hres. }
  cbn [coroutines shared]. split; [by rewrite lookup_insert_eq|].
  intros j co' d' Hj Hself. cbn [step coroutines shared]. rewrite Hj.
  assert (runnable co'
            (finish tid co (Ended (Some e)) (try_body co d (shared w)).2)
          = false) as ->; [|done].
  unfold runnable, finish. rewrite Hself.
  cbn [recorders State.set_task_objs]. rewrite Hr, Hl.
  assert (forall st : state,
            recorders st !! co_self co = Some r ->
            match recorders (halt lid st) !! co_self co with
            | Some r0 => Orchestrator.loop_running r0 (halt lid st)
            | None => false
            end = false) as Hhalt.
  { intros st Hst. unfold halt. cbn [recorders State.set_loops]. rewrite Hst.
    unfold Orchestrator.loop_running. rewrite Hl. cbn [loops State.set_loops].
    rewrite lookup_alter_eq. by destruct (loops st !! lid). }
  destruct He as [->| ->]; by apply Hhalt.
Qed.

(** The two readings of [_record_task] agree: a task whose every pass
    fails at [range(recorder.interval)] after a failed [recorder.run()],
    resumed through two passes and their sleeps of five seconds, has done
    what the loop does over two such passes, and has begun the third. *)
Example faulty_passes_agree :
  let c := {| loop_running := true; run_outcome := Some OSError;
              interval := None; wait_running := never_stopped;
              sleep_outcome := fun _ => None; backoff_outcome := None |} in
  let co := {| co_self := 0; co_interval := None;
               co_frame := Created; co_trace := [] |} in
  let w := {| shared := Scenario.capturing;
              coroutines := <[2 := co]> ∅ |} in
  let d := {| run_effect := fun st => st; raised := Some OSError |} in
  co_trace
    <$> coroutines
          (run [Resume 2 completes; Resume 2 d; Resume 2 completes;
                Resume 2 d; Resume 2 completes] w) !! 2
  = Some ((_record_task [c; c]).1
          ++ [Log Debug; Log Debug; Log Debug; RunRecorder]).
Proof. vm_compute. reflexivity. Qed.

End EventLoopFacts.

Module MonitorFacts.
Import Monitor.

Lemma seconds_slept_app (tr1 tr2 : list event) :
  seconds_slept (tr1 ++ tr2) = seconds_slept tr1 + seconds_slept tr2.
Proof.
  induction tr1 as [|e tr1 IH]; [done|].
  destruct e; simpl; lia.
Qed.

Lemma wait_S (c : cycle) (b : bool) (i n : nat) :
  wait c b i (S n)
  = if negb (wait_running c i) || negb b then ([Log Debug], Normal)
    else
      let pre := if (i mod 10 =? 0)%nat then [Log Debug] else [] in
      match sleep_outcome c i with
      | Some e => (pre ++ [SleepInterrupted], Raise e)
      | None => let '(tr, r) := wait c b (S i) n in (pre ++ Sleep 1 :: tr, r)
      end.
Proof. reflexivity. Qed.

Lemma seconds_slept_pre (b : bool) :
  seconds_slept (if b then [Log Debug] else []) = 0.
Proof. by destruct b. Qed.

(** The wait loop when no sleep raises: it sleeps one second per pass
    until the first test that sees the flag down. *)
Lemma wait_until (c : cycle) (m n i : nat) :
  (forall j, sleep_outcome c j = None) ->
  (forall j, i <= j < i + m -> wait_running c j = true) ->
  m <= n ->
  (m = n \/ wait_running c (i + m) = false) ->
  seconds_slept (wait c true i n).1 = m /\ (wait c true i n).2 = Normal.
Proof.
  intros Hsleep. revert n i.
  induction m as [|m IH]; intros n i Hrun Hmn Hend.
  - destruct n as [|n]; [done|].
    destruct Hend as [?|Hend]; [done|].
    rewrite Nat.add_0_r in Hend. rewrite wait_S. by rewrite Hend.
  - destruct n as [|n]; [lia|]. rewrite wait_S.
    rewrite (Hrun i) by lia. cbn [negb orb]. rewrite Hsleep.
    destruct (wait c true (S i) n) as [tr r] eqn:Hw.
    destruct (IH n (S i)) as [Hs Hr].
    + intros j ?. apply Hrun. lia.
    + lia.
    + destruct Hend as [?|Hend]; [left; lia|right].
      by replace (S i + m) with (i + S m) by lia.
    + rewrite Hw in Hs, Hr. cbn [fst snd] in *.
      split; [|done].
      rewrite seconds_slept_app, seconds_slept_pre. cbn [seconds_slept]. lia.
Qed.

Lemma wait_one_second (c : cycle) (b : bool) (n i : nat) :
  Forall one_second (wait c b i n).1.
Proof.
  revert i. induction n as [|n IH]; intros i; [constructor|].
  rewrite wait_S.
  destruct (negb (wait_running c i) || negb b); cbn [fst].
  { repeat constructor. by intros s. }
  destruct (sleep_outcome c i).
  - cbn [fst]. apply Forall_app. split.
    + destruct (i mod 10 =? 0)%nat; repeat constructor; by intros s.
    + repeat constructor. by intros s.
  - specialize (IH (S i)). destruct (wait c b (S i) n) as [tr r].
    cbn [fst] in *. apply Forall_app. split.
    + destruct (i mod 10 =? 0)%nat; repeat constructor; by intros s.
    + constructor; [|done]. intros s [= <-]. done.
Qed.

(** C6. The cooldown of [_record_task] sleeps in passes of one second,
    [interval] of them when no stop is requested, and tests the stop
    flags before each pass. When a stop request arrives during pass [k]
    (after that pass has tested the flags) the sleep of pass [k] is the
    last one: the wait ends after [k + 1] seconds, whatever is left of
    [interval]; a request that arrives before the first test lets no
    sleep happen. *)
Theorem cooldown_honours_stop (c : cycle) (n : Z) :
  interval c = Some n ->
  (forall j, sleep_outcome c j = None) ->
  Forall one_second (cooldown c true).1
  /\ (wait_running c = never_stopped ->
      seconds_slept (cooldown c true).1 = Z.to_nat n)
  /\ (forall k, k < Z.to_nat n -> wait_running c = stop_during k ->
      seconds_slept (cooldown c true).1 = S k
      /\ (cooldown c true).2 = Normal)
  /\ (wait_running c = (fun _ => false) ->
      seconds_slept (cooldown c true).1 = 0).
Proof.
  intros Hn Hsleep. unfold cooldown. rewrite Hn.
  split_and!.
  - apply wait_one_second.
  - intros Hrun.
    apply (wait_until c (Z.to_nat n) (Z.to_nat n) 0 Hsleep); [|lia|by left].
    intros j _. by rewrite Hrun.
  - intros k Hk Hrun.
    apply (wait_until c (S k) (Z.to_nat n) 0 Hsleep); [|lia|right].
    + intros j Hj. rewrite Hrun. unfold stop_during.
      apply Nat.leb_le. lia.
    + rewrite Hrun. unfold stop_during. apply Nat.leb_gt. lia.
  - intros Hrun. destruct (Z.to_nat n) as [|m] eqn:Hm; [done|].
    apply (wait_until c 0 (S m) 0 Hsleep); [intros j ?; lia|lia|right].
    by rewrite Hrun.
Qed.

Lemma cooldown_honours_stop_witness :
  let c := {| loop_running := true; run_outcome := None;
              interval := Some 5%Z; wait_running := stop_during 1;
              sleep_outcome := fun _ => None; backoff_outcome := None |} in
  Forall one_second (cooldown c true).1
  /\ (wait_running c = never_stopped ->
      seconds_slept (cooldown c true).1 = Z.to_nat 5)
  /\ (forall k, k < Z.to_nat 5 -> wait_running c = stop_during k ->
      seconds_slept (cooldown c true).1 = S k
      /\ (cooldown c true).2 = Normal)
  /\ (wait_running c = (fun _ => false) ->
      seconds_slept (cooldown c true).1 = 0).
Proof.
  intros c. apply (cooldown_honours_stop c 5%Z); reflexivity.
Defined.

Import EventLoop.



End MonitorFacts.

Module OrchestratorFacts.
Import Orchestrator.

(** ** Spawning tasks *)

Lemma create_task_users rid u st r ts :
  recorders st !! rid
  = Some {| running := running r; tasks := ts; loop := loop r;
            config_user := config_user r |} ->
  Forall (fun t => t < next_obj st) ts ->
  let st' := create_task rid u st in
  recorders st' !! rid
  = Some {| running := running r; tasks := ts ++ [next_obj st];
            loop := loop r; config_user := config_user r |}
  /\ next_obj st' = S (next_obj st)
  /\ loops st' = loops st
  /\ task_users rid st' = task_users rid st ++ [user_id u].
Proof.
  intros Hr Hts. unfold create_task, task_users. simpl.
  rewrite lookup_alter_eq, Hr. simpl.
  split_and!; try done.
  rewrite omap_app. simpl. rewrite lookup_insert_eq. simpl. f_equal.
  apply list_omap_ext, Forall_Forall2_diag.
  eapply Forall_impl; [exact Hts|]. intros t Ht. simpl in Ht.
  rewrite lookup_insert_ne by lia. done.
Qed.

Lemma spawn_user_step rid st logged u :
  spawn_user rid (st, logged) u
  = match instantiate u with
    | Some e => (st, logged ++ [(user_id u, e)])
    | None => (create_task rid u st, logged)
    end.
Proof. reflexivity. Qed.

Lemma spawn_users rid r users : forall st logged ts,
  recorders st !! rid
  = Some {| running := running r; tasks := ts; loop := loop r;
            config_user := config_user r |} ->
  Forall (fun t => t < next_obj st) ts ->
  let res := fold_left (spawn_user rid) users (st, logged) in
  (exists ts',
      recorders res.1 !! rid
      = Some {| running := running r; tasks := ts'; loop := loop r;
                config_user := config_user r |})
  /\ loops res.1 = loops st
  /\ task_users rid res.1
     = task_users rid st
       ++ (user_id <$> filter (fun u => instantiate u = None) users)
  /\ res.2 = logged
             ++ omap (fun u => pair (user_id u) <$> instantiate u) users.
Proof.
  induction users as [|u users IH]; intros st logged ts Hr Hts.
  - simpl. split_and!; [by exists ts|done|by rewrite app_nil_r..].
  - cbv zeta. cbn [fold_left]. rewrite filter_cons, spawn_user_step.
    cbn [omap list_omap].
    destruct (instantiate u) as [e|] eqn:Hu.
    + rewrite decide_False by done. cbn [fmap option_fmap option_map].
      destruct (IH st (logged ++ [(user_id u, e)]) ts Hr Hts)
        as (Hr' & Hl & Ht & Hlog).
      split_and!; [done..|]. rewrite Hlog. by rewrite <-app_assoc.
    + rewrite decide_True by done. cbn [fmap option_fmap option_map].
      destruct (create_task_users rid u st r ts Hr Hts)
        as (Hr1 & Hn1 & Hl1 & Ht1).
      destruct (IH (create_task rid u st) logged (ts ++ [next_obj st]) Hr1)
        as (Hr' & Hl & Ht & Hlog).
      { rewrite Hn1. apply Forall_app. split.
        - eapply Forall_impl; [exact Hts|]. simpl. lia.
        - repeat constructor. }
      split_and!; [done|congruence| |done].
      rewrite Ht, Ht1, fmap_cons. by rewrite <-app_assoc.
Qed.

Lemma filter_all {A} (P : A -> Prop) `{!forall x, Decision (P x)} (l : list A) :
  Forall P l -> filter P l = l.
Proof.
  induction 1 as [|x l Hx _ IH]; [done|].
  by rewrite filter_cons_True, IH.
Qed.

Lemma task_users_set_loop_running rid rid' st :
  task_users rid (set_loop_running rid' st) = task_users rid st.
Proof.
  unfold set_loop_running.
  destruct (recorders st !! rid') as [r|]; [|done].
  by destruct (loop r).
Qed.

Lemma recorders_set_loop_running rid st :
  recorders (set_loop_running rid st) = recorders st.
Proof.
  unfold set_loop_running.
  destruct (recorders st !! rid) as [r|]; [|done].
  by destruct (loop r).
Qed.

(** What [start] followed by [run_loop] makes of a new recorder. *)
Lemma start_run_loop (st0 : state) (users : list user) :
  let rid := (new_recorder users st0).1 in
  let s0 := (new_recorder users st0).2 in
  let s1 := (start rid s0).1 in
  let res := run_loop rid s1 in
  (start rid s0).2 = true
  /\ recorders s1 !! rid
     = Some {| running := true; tasks := [];
               loop := Some (S (next_obj st0)); config_user := users |}
  /\ (exists ts,
        recorders res.1 !! rid
        = Some {| running := true; tasks := ts;
                  loop := Some (S (next_obj st0)); config_user := users |})
  /\ task_users rid res.1
     = user_id <$> filter (fun u => instantiate u = None) users
  /\ res.2 = omap (fun u => pair (user_id u) <$> instantiate u) users.
Proof.
  cbv zeta. unfold new_recorder, start, run_loop. simpl.
  rewrite !lookup_insert_eq. simpl. rewrite !lookup_insert_eq. simpl.
  match goal with
  | |- context [fold_left (spawn_user ?rid) users (?s, [])] =>
      pose proof (spawn_users rid
        {| running := true; tasks := [];
           loop := Some (S (next_obj st0)); config_user := users |}
        users s [] []) as Hspawn;
      destruct (fold_left (spawn_user rid) users (s, [])) as [st' logged]
  end.
  unfold task_users in Hspawn at 2. simpl in Hspawn.
  rewrite lookup_insert_eq in Hspawn.
  destruct Hspawn as ((ts & Hts) & _ & Husers & Hlog); [done|constructor|].
  simpl in Husers. cbn [fst snd].
  split_and!; [done..| | |done].
  - exists ts. by rewrite recorders_set_loop_running.
  - by rewrite task_users_set_loop_running.
Qed.

Lemma start_twice rid st :
  start rid (start rid st).1 = ((start rid st).1, false).
Proof.
  unfold start. destruct (recorders st !! rid) as [r|] eqn:Hr; simpl.
  - destruct (running r) eqn:Hrun; simpl.
    + by rewrite Hr, Hrun.
    + by rewrite lookup_insert_eq.
  - by rewrite Hr.
Qed.

(** C9. [start] on a recorder that already runs returns at once: no
    task is made, no event loop is created, and no [run_loop] is handed
    out. So for a new recorder whose users can all be instantiated, a
    second [start], before or after the [run_loop] of the first has
    spawned the tasks, leaves the state as it is: one task per
    configured user, in order, without duplicates. *)
Theorem start_idempotent (st0 : state) (users : list user) :
  Forall (fun u => instantiate u = None) users ->
  let rid := (new_recorder users st0).1 in
  let s0 := (new_recorder users st0).2 in
  let s1 := (start rid s0).1 in
  let s2 := (run_loop rid s1).1 in
  (start rid s0).2 = true
  /\ start rid s1 = (s1, false)
  /\ start rid s2 = (s2, false)
  /\ task_users rid s2 = user_id <$> users
  /\ (NoDup (user_id <$> users) -> NoDup (task_users rid s2))
  /\ forall rid' st, start rid' (start rid' st).1 = ((start rid' st).1, false).
Proof.
  intros Hall.
  destruct (start_run_loop st0 users) as (Hret & _ & (ts & Hts) & Hus & _).
  cbv zeta. rewrite (filter_all _ _ Hall) in Hus.
  split_and!; [done|apply start_twice| |done|by rewrite Hus|apply start_twice].
  unfold start at 1. by rewrite Hts.
Qed.

Lemma start_idempotent_witness :
  let users := [ {| user_id := 1; user_name := "a"; user_platform := "Kwai";
                    user_init_fails := false |};
                 {| user_id := 2; user_name := "b"; user_platform := "Kwai";
                    user_init_fails := false |} ] in
  let rid := (new_recorder users State.init).1 in
  let s0 := (new_recorder users State.init).2 in
  let s1 := (start rid s0).1 in
  let s2 := (run_loop rid s1).1 in
  (start rid s0).2 = true
  /\ start rid s1 = (s1, false)
  /\ start rid s2 = (s2, false)
  /\ task_users rid s2 = user_id <$> users
  /\ (NoDup (user_id <$> users) -> NoDup (task_users rid s2))
  /\ forall rid' st, start rid' (start rid' st).1 = ((start rid' st).1, false).
Proof.
  intros users. apply (start_idempotent State.init users).
  repeat constructor.
Defined.

Lemma add_user_unknown rid u st r :
  globals (user_platform u) = None ->
  recorders st !! rid = Some r ->
  add_user rid u st = (st, if running r then Some KeyError else None).
Proof.
  intros Hg Hr. unfold add_user, instantiate. rewrite Hr, Hg.
  by destruct (running r).
Qed.

(** C8 (amended). A user whose platform is no name of the module's
    globals is passed over: [start] hands out [run_loop] and raises
    nothing, [run_loop] writes the [KeyError] to the log and goes on, so
    tasks exist for exactly the users that can be instantiated, in order,
    and none for that user. [add_user] for such a user logs and raises
    the [KeyError] to its caller when the recorder runs, and returns
    without an error when it does not; in both cases the state is
    unchanged. *)
Theorem unknown_platform_skipped (st0 : state) (users : list user) (u : user) :
  globals (user_platform u) = None ->
  u ∈ users ->
  let rid := (new_recorder users st0).1 in
  let s0 := (new_recorder users st0).2 in
  let s1 := (start rid s0).1 in
  let res := run_loop rid s1 in
  (start rid s0).2 = true
  /\ (user_id u, KeyError) ∈ res.2
  /\ task_users rid res.1
     = user_id <$> filter (fun v => instantiate v = None) users
  /\ (u ∉ filter (fun v => instantiate v = None) users)
  /\ add_user rid u res.1 = (res.1, Some KeyError)
  /\ add_user rid u s0 = (s0, None).
Proof.
  intros Hg Hin.
  assert (instantiate u = Some KeyError) as Hu by (unfold instantiate; by rewrite Hg).
  destruct (start_run_loop st0 users) as (Hret & _ & (ts & Hts) & Hus & Hlog).
  cbv zeta. split_and!; [done| |done| | |].
  - rewrite Hlog. apply list_elem_of_omap. exists u. split; [done|by rewrite Hu].
  - rewrite list_elem_of_filter. intros [? _]. congruence.
  - by rewrite (add_user_unknown _ _ _ _ Hg Hts).
  - unfold new_recorder, add_user. simpl. by rewrite lookup_insert_eq.
Qed.

Lemma unknown_platform_skipped_witness :
  let u := {| user_id := 1; user_name := "a"; user_platform := "Douyin";
              user_init_fails := false |} in
  let users := [ u;
                 {| user_id := 2; user_name := "b"; user_platform := "Kwai";
                    user_init_fails := false |} ] in
  let rid := (new_recorder users State.init).1 in
  let s0 := (new_recorder users State.init).2 in
  let s1 := (start rid s0).1 in
  let res := run_loop rid s1 in
  (start rid s0).2 = true
  /\ (user_id u, KeyError) ∈ res.2
  /\ task_users rid res.1
     = user_id <$> filter (fun v => instantiate v = None) users
  /\ (u ∉ filter (fun v => instantiate v = None) users)
  /\ add_user rid u res.1 = (res.1, Some KeyError)
  /\ add_user rid u s0 = (s0, None).
Proof.
  intros u users. apply (unknown_platform_skipped State.init users u).
  - reflexivity.
  - left.
Defined.

(** C8, as stated, fails: with an unknown platform among the users
    [start] returns its [run_loop], [run_loop] only logs the [KeyError]
    and spawns the other task, and [add_user] on a recorder that does not
    run returns without any error. *)
Lemma unknown_platform_counterexample :
  let u := {| user_id := 1; user_name := "a"; user_platform := "Douyin";
              user_init_fails := false |} in
  let users := [ u;
                 {| user_id := 2; user_name := "b"; user_platform := "Kwai";
                    user_init_fails := false |} ] in
  let rid := (new_recorder users State.init).1 in
  let s0 := (new_recorder users State.init).2 in
  let s1 := (start rid s0).1 in
  (start rid s0).2 = true
  /\ (run_loop rid s1).2 = [(1, KeyError)]
  /\ task_users rid (run_loop rid s1).1 = [2]
  /\ (add_user rid u s0).2 = None.
Proof. vm_compute. done. Qed.

(** ** stop *)

Lemma fold_left_preserves {S X P : Type} (p : S -> P) (f : S -> X -> S)
    (l : list X) (s : S) :
  (forall s x, p (f s x) = p s) -> p (fold_left f l s) = p s.
Proof.
  intros Hf. revert s. induction l as [|x l IH]; intros s; simpl; [done|].
  by rewrite IH.
Qed.









Lemma close_all_frame st :
  recording (close_all st) = recording st
  /\ recorders (close_all st) = recorders st
  /\ task_objs (close_all st) = task_objs st
  /\ loops (close_all st) = loops st.
Proof.
  unfold close_all.
  split_and!; by apply fold_left_preserves.
Qed.

Lemma cancel_tasks_frame l st :
  recording (cancel_tasks l st) = recording st
  /\ recorders (cancel_tasks l st) = recorders st
  /\ loops (cancel_tasks l st) = loops st.
Proof.
  unfold cancel_tasks.
  split_and!; by apply fold_left_preserves.
Qed.

Lemma cancel_task_keeps st tid tid' :
  cancel_seen tid st -> cancel_seen tid (cancel_task st tid').
Proof.
  unfold cancel_seen, cancel_task. simpl.
  destruct (decide (tid' = tid)) as [->|Hne].
  - rewrite lookup_alter_eq. destruct (task_objs st !! tid) as [t|]; simpl; [|done].
    destruct (task_done t) eqn:Hd; simpl; intros; congruence.
  - by rewrite lookup_alter_ne.
Qed.

Lemma cancel_task_cancels st tid : cancel_seen tid (cancel_task st tid).
Proof.
  unfold cancel_seen, cancel_task. simpl. rewrite lookup_alter_eq.
  destruct (task_objs st !! tid) as [t|]; simpl; [|done].
  destruct (task_done t) eqn:Hd; simpl; intros; congruence.
Qed.

Lemma cancel_tasks_keep l : forall st tid,
  cancel_seen tid st -> cancel_seen tid (cancel_tasks l st).
Proof.
  unfold cancel_tasks.
  induction l as [|t l IH]; intros st tid H; simpl; [done|].
  by apply IH, cancel_task_keeps.
Qed.

Lemma cancel_tasks_cancel l : forall st tid,
  tid ∈ l -> cancel_seen tid (cancel_tasks l st).
Proof.
  induction l as [|t l IH]; intros st tid Hin; [by apply elem_of_nil in Hin|].
  apply elem_of_cons in Hin as [->|Hin].
  - apply (cancel_tasks_keep l), cancel_task_cancels.
  - by apply IH.
Qed.

Lemma stop_not_running rid st r :
  recorders st !! rid = Some r -> running r = false -> stop rid st = st.
Proof. intros Hr Hrun. unfold stop. by rewrite Hr, Hrun. Qed.




End OrchestratorFacts.

Module CaptureFacts.
Import Capture.





(** ** run_record removes its registry entry *)

Lemma cleanup_registered_gone url st :
  recording (cleanup_registered url st) !! url = None.
Proof.
  unfold cleanup_registered.
  destruct (recording st !! url) as [h|] eqn:Hreg; [|done].
  simpl. apply lookup_delete_eq.
Qed.

Lemma release_gone (has_closed : bool) url fd out opened st :
  recording (release has_closed url fd out opened st) !! url = None.
Proof. unfold release, unregister. simpl. apply lookup_delete_eq. Qed.

(** Whenever [run_record] is given a stream, the registry has no entry
    for [url] when it returns, unless an exception outside the class
    [Exception] stopped it before the stream was opened. *)
Lemma run_record_unregisters (has_closed closes_stream : bool) self_id url
    duration duration_unit timeout_callback sc st :
  let res := run_record has_closed closes_stream self_id true url duration
                        duration_unit timeout_callback sc st in
  recording res.1 !! url = None
  \/ (res.1 = st /\ exists e, res.2 = Some e /\ is_Exception e = false).
Proof.
  cbv zeta. unfold run_record, run_record_open, outer_except. cbn [negb].
  destruct (mkdir_raises sc) as [e|].
  { destruct (is_Exception e) eqn:He; cbn [fst snd].
    - left. apply cleanup_registered_gone.
    - right. eauto. }
  destruct (open_stream_raises sc) as [e|].
  { destruct (is_Exception e) eqn:He; cbn [fst snd].
    - left. apply cleanup_registered_gone.
    - right. eauto. }
  left. cbn [State.fresh]. unfold run_record_capture.
  repeat match goal with
         | |- context [let '(_, _) := ?x in _] => destruct x
         | |- context [match ?x with Some _ => _ | None => _ end] => destruct x
         | |- context [if ?b then _ else _] => destruct b
         end; cbn [fst snd]; apply release_gone.
Qed.

(** Name the state and the result of the one [run_phase] of the goal. *)
Ltac destruct_run_phase st r :=
  match goal with
  | |- context [run_phase ?c ?i ?f ?t ?cb ?e ?s] =>
      destruct (run_phase c i f t cb e s) as [st r]
  end.

Lemma stream_closed_close fd st : stream_closed fd (close_stream fd st) = true.
Proof.
  unfold stream_closed, close_stream. simpl. rewrite lookup_alter_eq.
  by destruct (streams st !! fd).
Qed.

Lemma output_opened_close out st : output_opened out (close_output out st) = false.
Proof.
  unfold output_opened, close_output. simpl. rewrite lookup_alter_eq.
  by destruct (outputs st !! out).
Qed.

Lemma cancel_timer_not_armed t st z :
  timers (cancel_timer t st) !! t <> Some (Armed z).
Proof.
  unfold cancel_timer. simpl. rewrite lookup_alter_eq.
  destruct (timers st !! t) as [[]|]; simpl; congruence.
Qed.

(** The [finally] of [run_record] leaves the stream closed, no entry for
    the URL and, when the output object has an attribute [closed], the
    output closed. *)
Lemma release_releases (has_closed : bool) url fd out opened st :
  let st' := release has_closed url fd out opened st in
  recording st' !! url = None
  /\ stream_closed fd st' = true
  /\ timers st' = timers st
  /\ (has_closed = true -> opened = true -> output_opened out st' = false)
  /\ (opened = false -> outputs st' = outputs st)
  /\ (has_closed = false -> outputs st' = outputs st).
Proof.
  cbv zeta. unfold release.
  set (s1 := if opened && negb (getattr_closed has_closed out st)
             then close_output out st else st).
  assert (timers s1 = timers st /\ streams s1 = streams st) as [Ht1 Hs1].
  { subst s1. by destruct (opened && negb (getattr_closed has_closed out st)). }
  set (s2 := if negb (stream_closed fd s1) then close_stream fd s1 else s1).
  assert (stream_closed fd s2 = true /\ timers s2 = timers s1
          /\ outputs s2 = outputs s1) as (Hc2 & Ht2 & Ho2).
  { subst s2. destruct (stream_closed fd s1) eqn:Hc; cbn [negb].
    - done.
    - split; [apply stream_closed_close|done]. }
  split; [apply lookup_delete_eq|].
  split; [exact Hc2|].
  split; [cbn [unregister timers State.set_recording]; congruence|].
  unfold output_opened. cbn [unregister outputs State.set_recording].
  rewrite Ho2. subst s1. unfold getattr_closed.
  split; [|split].
  - intros -> ->. cbn [andb]. rewrite negb_involutive.
    destruct (output_opened out st) eqn:Ho.
    + apply output_opened_close.
    + exact Ho.
  - by intros ->.
  - intros ->. by rewrite andb_false_r.
Qed.

(** Every path through the inner [try] of [run_record], whatever the
    script and the callback: the entry is removed, the stream is closed,
    the timer that was armed is no longer armed, and the output is closed
    when the output object has an attribute [closed]. *)
Lemma run_record_capture_releases (has_closed closes_stream : bool) self_id url
    duration duration_unit timeout_callback sc fd out st :
  let res := run_record_capture has_closed closes_stream self_id url duration
                                duration_unit timeout_callback sc fd out st in
  recording res.1 !! url = None
  /\ stream_closed fd res.1 = true
  /\ (has_closed = true -> output_open_raises sc = None ->
      output_opened out res.1 = false)
  /\ (output_open_raises sc = None ->
      timer_armed (timeout_of duration duration_unit) = true ->
      forall z, timers res.1 !! next_obj st <> Some (Armed z)).
Proof.
  cbv zeta. unfold run_record_capture.
  destruct (output_open_raises sc) as [e|].
  { cbn [fst]. destruct (release_releases has_closed url fd out false st)
      as (? & ? & _). split_and!; done. }
  destruct (timer_armed (timeout_of duration duration_unit)).
  - cbn [State.fresh next_obj State.set_outputs].
    destruct_run_phase st1 r. cbn [fst].
    destruct (release_releases has_closed url fd out true (cancel_timer (next_obj st) st1))
      as (? & ? & Ht & Ho & _).
    split_and!; [done|done|auto|].
    intros _ _ z. rewrite Ht. apply cancel_timer_not_armed.
  - destruct_run_phase st1 r. cbn [fst].
    destruct (release_releases has_closed url fd out true st1)
      as (? & ? & Ht & Ho & _).
    split_and!; [done|done|auto|done].
Qed.

Lemma run_phase_registry (closes_stream : bool) fd e st :
  recording (run_phase closes_stream None fd None None e st).1 = recording st.
Proof.
  unfold run_phase.
  destruct e; cbn [fst]; destruct closes_stream; cbn [recording close_stream State.set_streams]; try done;
    apply OrchestratorFacts.close_all_frame.
Qed.

(** [stream_writer] leaves the entry it made in the registry, however the
    capture ends. *)
Lemma stream_writer_registered (closes_stream : bool) url sc st :
  open_stream_raises sc = None ->
  output_open_raises sc = None ->
  recording (stream_writer closes_stream url sc st).1.1 !! url
  = Some (S (next_obj st), next_obj st).
Proof.
  intros Hopen Hout. unfold stream_writer. rewrite Hopen, Hout.
  cbn [State.fresh].
  match goal with
  | |- context [run_phase ?c ?i ?f ?t ?cb ?e ?s] =>
      pose proof (run_phase_registry c f e s) as Hreg;
      destruct (run_phase c i f t cb e s) as [st1 r]
  end.
  cbn [fst] in Hreg.
  assert (recording (close_output (next_obj st) st1) !! url
          = Some (S (next_obj st), next_obj st)) as Hfinal.
  { cbn [recording close_output State.set_outputs]. rewrite Hreg.
    cbn. by rewrite lookup_insert_eq. }
  by destruct r.
Qed.

(** C1. The claim fails on [stream_writer]. When the stream opens and
    ends by itself, [stream_writer] returns [True] with the registry
    entry of the URL still in place, and the stream is closed only if
    [StreamRunner.run] did so; when [output.open()] raises, the stream
    that was opened stays open. [run_record], on the same capture,
    removes the entry and closes the stream; it closes the output only
    if the output object has an attribute [closed]. *)
Theorem stream_writer_keeps_handles (closes_stream : bool) :
  let url := "http://live/a" in
  let ended :=
    stream_writer closes_stream url Scenario.stream_ends State.init in
  let failed :=
    stream_writer closes_stream url Scenario.output_fails State.init in
  (ended.1.2 = true /\ ended.2 = None
   /\ recording ended.1.1 !! url = Some (1, 0)
   /\ streams ended.1.1 !! 1 = Some closes_stream
   /\ outputs ended.1.1 !! 0 = Some false)
  /\ (failed.1.2 = false /\ failed.2 = None
      /\ streams failed.1.1 !! 1 = Some false)
  /\ forall has_closed : bool,
       let done :=
         run_record has_closed closes_stream None true url None None None
                    Scenario.stream_ends State.init in
       recording done.1 !! url = None
       /\ streams done.1 !! 0 = Some true
       /\ outputs done.1 !! 1 = Some (negb has_closed).
Proof.
  destruct closes_stream; (split; [|split]);
    try (intros []); vm_compute; done.
Qed.

(** A registration never looks at what the registry holds: the new pair
    of handles takes the place of the entry of the URL, all other entries
    stay. *)
Lemma run_record_open_overwrites url sc st (h : nat * nat) :
  recording st !! url = Some h ->
  mkdir_raises sc = None ->
  open_stream_raises sc = None ->
  exists st1,
    run_record_open url sc st = inl (st1, next_obj st, S (next_obj st))
    /\ recording st1 !! url = Some (next_obj st, S (next_obj st))
    /\ forall u, u <> url -> recording st1 !! u = recording st !! u.
Proof.
  intros _ Hmk Hop. unfold run_record_open. rewrite Hmk, Hop.
  eexists. split; [reflexivity|]. cbn. split.
  - apply lookup_insert_eq.
  - intros u Hu. by apply lookup_insert_ne.
Qed.

(** C3. The claim fails: a second registration under a URL replaces the
    entry. In the state where the capture of [http://live/b] holds the
    entry (stream 4, output 5), the guard of [Kwai.run], which looks up
    the empty URL, lets a second capture of the same URL start;
    [run_record] stores its own handles (6, 7) under the URL, and when
    it returns the entry is gone while the first capture is still
    open. *)
Theorem second_registration_overwrites (has_closed closes_stream : bool) :
  let url := "http://live/b" in
  let st := Scenario.capturing in
  let st' := Kwai_run has_closed closes_stream 2 None None None (Live url)
                      Scenario.stream_ends st in
  recording st !! url = Some (4, 5)
  /\ recording st !! "" = None
  /\ match run_record_open url Scenario.stream_ends st with
     | inl (st1, fd, out) =>
         (fd, out) = (6, 7) /\ recording st1 !! url = Some (6, 7)
     | inr _ => False
     end
  /\ recording st' !! url = None
  /\ streams st' !! 4 = Some false
  /\ outputs st' !! 5 = Some true.
Proof. destruct has_closed, closes_stream; vm_compute; done. Qed.

(** C4. The claim fails: with a global recording (recorder 0, users 1
    and 2, user 2 being captured) and user 3 recorded by a recorder of
    its own with a duration of ten seconds, the firing of that timer
    runs the GUI callback, which stops recorder 0: the stream and the
    output of user 2 are closed, the tasks of the users 1 and 2 are
    asked to cancel and recorder 0 no longer runs, while the recorder of
    user 3 itself keeps running. *)
Theorem timeout_stops_other_users (has_closed closes_stream : bool) :
  let st := Scenario.global_and_single in
  let st' := Kwai_run has_closed closes_stream 3 (Some 10%Z) (Some "seconds")
                      (Some Orchestrator.gui_timeout_callback)
                      (Live "http://live/c") Scenario.timer_fires st in
  (streams st !! 4 = Some false /\ outputs st !! 5 = Some true
   /\ running <$> recorders st !! 0 = Some true
   /\ task_cancel_requested <$> task_objs st !! 2 = Some false
   /\ task_cancel_requested <$> task_objs st !! 3 = Some false)
  /\ (streams st' !! 4 = Some true /\ outputs st' !! 5 = Some false
      /\ running <$> recorders st' !! 0 = Some false
      /\ task_cancel_requested <$> task_objs st' !! 2 = Some true
      /\ task_cancel_requested <$> task_objs st' !! 3 = Some true
      /\ app_recorder st' = None)
  /\ running <$> recorders st' !! 6 = Some true.
Proof. destruct has_closed, closes_stream; vm_compute; done. Qed.

End CaptureFacts.

(* ===================================================================== *)
(** * Further properties of the task loop *)
(* ===================================================================== *)

Module MonitorMore.
Import Monitor MonitorTrace MonitorFacts.


Lemma attempt_cooldown (c : cycle) :
  run_survived (run_outcome c) ->
  exists pre,
    seconds_slept pre = 0
    /\ attempt c = (pre ++ (cooldown c true).1, (cooldown c true).2).
Proof.
  intros Hrun. unfold attempt.
  destruct (cooldown c true) as [tr r]. cbn [fst snd].
  destruct (run_outcome c) as [e|]; [destruct e; try done|]; cbn.
  all: first
    [ by exists [Log Debug; Log Debug; Log Debug; RunRecorder; Log Error; Log Debug]
    | by exists [Log Debug; Log Debug; Log Debug; RunRecorder; Log Debug; Log Debug] ].
Qed.

Lemma runs_app (tr1 tr2 : list event) : runs (tr1 ++ tr2) = runs tr1 + runs tr2.
Proof.
  induction tr1 as [|e tr1 IH]; [done|].
  destruct e; simpl; lia.
Qed.

Lemma wait_runs (c : cycle) (b : bool) (n i : nat) : runs (wait c b i n).1 = 0.
Proof.
  revert i. induction n as [|n IH]; intros i; [done|].
  rewrite wait_S.
  destruct (negb (wait_running c i) || negb b); [done|].
  destruct (sleep_outcome c i).
  - cbn [fst]. rewrite runs_app. by destruct (i mod 10 =? 0)%nat.
  - specialize (IH (S i)). destruct (wait c b (S i) n) as [tr r].
    cbn [fst] in *. rewrite runs_app. cbn [runs]. rewrite IH.
    by destruct (i mod 10 =? 0)%nat.
Qed.

Lemma quiet_body (c : cycle) :
  quiet c ->
  (body c).2 = Normal
  /\ seconds_slept (body c).1 = interval_seconds c
  /\ runs (body c).1 = 1.
Proof.
  intros (_ & Hrun & [n Hn] & Hup & Hsleep).
  destruct (attempt_cooldown c Hrun) as (pre & Hpre & Hatt).
  assert (runs (attempt c).1 = 1) as Hruns.
  { unfold attempt. pose proof (wait_runs c true) as Hw.
    unfold cooldown. rewrite Hn. specialize (Hw (Z.to_nat n) 0).
    destruct (wait c true 0 (Z.to_nat n)) as [tr r]. cbn [fst] in Hw.
    destruct (run_outcome c) as [e|]; [destruct e; try done|];
      cbn; rewrite ?runs_app; cbn; by rewrite Hw. }
  unfold body. rewrite Hatt in *. cbn [fst] in Hruns.
  unfold cooldown in *. rewrite Hn in *.
  destruct (wait_until c (Z.to_nat n) (Z.to_nat n) 0 Hsleep) as [Hs Hr];
    [intros j _; by rewrite Hup|lia|by left|].
  rewrite Hr. cbn [fst snd]. split; [done|]. split; [|done].
  rewrite seconds_slept_app, Hpre, Hs. unfold interval_seconds. by rewrite Hn.
Qed.

(** X1. Over any number of quiet passes the loop goes on: the recorder is run
    once per pass and the task sleeps the sum of the intervals, an
    interval that is zero or negative adding nothing. *)
Theorem quiet_passes (cs : list cycle) :
  Forall quiet cs ->
  (while_loop cs).2 = Looping
  /\ runs (while_loop cs).1 = length cs
  /\ seconds_slept (while_loop cs).1 = sum_list (interval_seconds <$> cs).
Proof.
  induction 1 as [|c cs Hc _ IH]; [done|].
  destruct (quiet_body c Hc) as (Hr & Hs & Hn).
  destruct Hc as (Hup & _). cbn [while_loop]. rewrite Hup. cbn [negb].
  destruct (body c) as [tr r]. cbn [fst snd] in *. subst r.
  destruct (while_loop cs) as [tr' s]. cbn [fst snd] in *.
  destruct IH as (-> & IHr & IHs).
  split; [done|]. rewrite runs_app, seconds_slept_app, fmap_cons. cbn. lia.
Qed.

Lemma quiet_passes_witness :
  let pass (n : Z) :=
    {| loop_running := true; run_outcome := Some TimeoutError;
       interval := Some n; wait_running := never_stopped;
       sleep_outcome := fun _ => None; backoff_outcome := None |} in
  let cs := [pass 3%Z; pass 0%Z; pass (-2)%Z; pass 12%Z] in
  (while_loop cs).2 = Looping
  /\ runs (while_loop cs).1 = length cs
  /\ seconds_slept (while_loop cs).1 = sum_list (interval_seconds <$> cs).
Proof.
  intros pass cs. apply (quiet_passes cs).
  repeat constructor; by eexists.
Defined.



End MonitorMore.

Module OrchestratorMoreFacts.
Import Orchestrator OrchestratorMore OrchestratorFacts.

Lemma list_remove_middle (x : nat) (pre rest : list nat) :
  x ∉ pre -> list_remove x (pre ++ x :: rest) = Some (pre ++ rest).
Proof.
  induction pre as [|y pre IH]; intros Hx; simpl.
  - by rewrite Nat.eqb_refl.
  - apply not_elem_of_cons in Hx as [Hne Hx].
    destruct (Nat.eqb_spec y x); [congruence|]. by rewrite IH.
Qed.

(** Removing, one after the other, the members of a list that have a
    property leaves the members that do not have it, in their order. *)
Lemma remove_tasks_filter (P : nat -> bool) (l pre : list nat) :
  Forall (fun t => P t = false) pre ->
  remove_tasks (filter (fun t => P t = true) l) (pre ++ l)
  = Some (pre ++ filter (fun t => P t = false) l).
Proof.
  revert pre. induction l as [|y l IH]; intros pre Hpre; [done|].
  rewrite !filter_cons. destruct (P y) eqn:Hy.
  - rewrite decide_True, decide_False by done. cbn [remove_tasks].
    rewrite list_remove_middle.
    + by apply IH.
    + intros Hin. rewrite Forall_forall in Hpre. specialize (Hpre y Hin).
      congruence.
  - rewrite decide_False, decide_True by done.
    replace (pre ++ y :: l) with ((pre ++ [y]) ++ l) by by rewrite <-app_assoc.
    rewrite IH; [by rewrite <-app_assoc|].
    apply Forall_app. split; [done|by constructor].
Qed.

Lemma task_of_user_cancel started uid st tid tid' :
  task_of_user started uid (cancel_task st tid') tid
  = task_of_user started uid st tid.
Proof.
  unfold task_of_user, cancel_task. cbn [task_objs State.set_task_objs].
  destruct (decide (tid' = tid)) as [->|Hne].
  - rewrite lookup_alter_eq. destruct (task_objs st !! tid) as [t|]; [|done].
    cbn. by destruct (task_done t).
  - by rewrite lookup_alter_ne.
Qed.

Lemma task_of_user_cancel_tasks started uid ts : forall st tid,
  task_of_user started uid (cancel_tasks ts st) tid
  = task_of_user started uid st tid.
Proof.
  unfold cancel_tasks. induction ts as [|t ts IH]; intros st tid; [done|].
  cbn [fold_left]. by rewrite IH, task_of_user_cancel.
Qed.

Lemma cancel_tasks_snoc ts t st :
  cancel_tasks (ts ++ [t]) st = cancel_task (cancel_tasks ts st) t.
Proof. unfold cancel_tasks. by rewrite fold_left_app. Qed.

Lemma cancel_matching_fold started uid (st0 : state) (l : list nat) :
  forall done,
    fold_left (cancel_matching started uid) l (cancel_tasks done st0, done)
    = (cancel_tasks
         (done ++ filter (fun t => task_of_user started uid st0 t = true) l) st0,
       done ++ filter (fun t => task_of_user started uid st0 t = true) l).
Proof.
  induction l as [|t l IH]; intros done.
  - by rewrite app_nil_r.
  - cbn [fold_left]. unfold cancel_matching at 2. cbn [fst snd].
    rewrite task_of_user_cancel_tasks, filter_cons.
    destruct (task_of_user started uid st0 t) eqn:Ht.
    + rewrite decide_True by done. rewrite <-cancel_tasks_snoc, IH.
      by rewrite <-app_assoc.
    + rewrite decide_False by done. apply IH.
Qed.

Lemma cancel_tasks_streams ts st :
  streams (cancel_tasks ts st) = streams st
  /\ outputs (cancel_tasks ts st) = outputs st
  /\ timers (cancel_tasks ts st) = timers st
  /\ next_obj (cancel_tasks ts st) = next_obj st.
Proof. unfold cancel_tasks. split_and!; by apply fold_left_preserves. Qed.

(** X3. [stop_user] on a running recorder never raises. It takes out of
    [self.tasks] exactly the started tasks of the user, the other tasks
    keeping their order, and asks each task it takes out to cancel. It
    closes nothing: the registry, the streams, the outputs and the timers
    are as before, so a capture of that user goes on. *)
Theorem stop_user_removes_tasks (started : nat -> bool) (rid uid : nat)
    (st : state) (r : recorder) :
  recorders st !! rid = Some r ->
  running r = true ->
  let res := stop_user started rid uid st in
  res.2 = None
  /\ recorders res.1 !! rid
     = Some {| running := true;
               tasks := filter (fun t => task_of_user started uid st t = false)
                               (tasks r);
               loop := loop r; config_user := config_user r |}
  /\ (forall t, t ∈ tasks r -> task_of_user started uid st t = true ->
        cancel_seen t res.1)
  /\ recording res.1 = recording st
  /\ streams res.1 = streams st
  /\ outputs res.1 = outputs st
  /\ timers res.1 = timers st.
Proof.
  intros Hr Hrun. cbv zeta. unfold stop_user. rewrite Hr, Hrun. cbn [negb].
  pose proof (cancel_matching_fold started uid st (tasks r) []) as Hfold.
  cbn [app] in Hfold. unfold cancel_tasks at 1 in Hfold. cbn [fold_left] in Hfold.
  rewrite Hfold.
  pose proof (remove_tasks_filter (task_of_user started uid st) (tasks r) [])
    as Hrem.
  cbn [app] in Hrem. rewrite Hrem by constructor. cbn [fst snd].
  set (ts := filter (fun t => task_of_user started uid st t = true) (tasks r)).
  destruct (cancel_tasks_frame ts st) as (Hreg & _ & _).
  destruct (cancel_tasks_streams ts st) as (Hs & Ho & Ht & _).
  split_and!; try done.
  - cbn. by rewrite lookup_insert_eq.
  - intros t Hin Ht'. unfold cancel_seen. cbn [task_objs State.set_recorders].
    apply (cancel_tasks_cancel ts st t). subst ts.
    by apply list_elem_of_filter.
Qed.

Lemma stop_user_removes_tasks_witness :
  let started (t : nat) := true in
  let st := Scenario.capturing in
  let r := {| running := true; tasks := [2; 3]; loop := Some 1;
              config_user := [Scenario.kwai 1 "a"; Scenario.kwai 2 "b"] |} in
  let res := stop_user started 0 2 st in
  res.2 = None
  /\ recorders res.1 !! 0
     = Some {| running := true;
               tasks := filter (fun t => task_of_user started 2 st t = false)
                               (tasks r);
               loop := loop r; config_user := config_user r |}
  /\ (forall t, t ∈ tasks r -> task_of_user started 2 st t = true ->
        cancel_seen t res.1)
  /\ recording res.1 = recording st
  /\ streams res.1 = streams st
  /\ outputs res.1 = outputs st
  /\ timers res.1 = timers st.
Proof.
  intros started st r. apply (stop_user_removes_tasks started 0 2 st r).
  - vm_compute. reflexivity.
  - reflexivity.
Defined.

Lemma create_task_frame rid u st :
  recording (create_task rid u st) = recording st
  /\ streams (create_task rid u st) = streams st
  /\ outputs (create_task rid u st) = outputs st
  /\ loops (create_task rid u st) = loops st
  /\ forall rid', rid' <> rid ->
       recorders (create_task rid u st) !! rid' = recorders st !! rid'.
Proof.
  unfold create_task. cbn. split_and!; try done.
  intros rid' Hne. by rewrite lookup_alter_ne.
Qed.

Lemma add_user_running rid u st r :
  recorders st !! rid = Some r -> running r = true -> instantiate u = None ->
  add_user rid u st = (create_task rid u st, None).
Proof. intros Hr Hrun Hu. unfold add_user. by rewrite Hr, Hrun, Hu. Qed.

(** X4. [add_user] on a running recorder, for a user that can be
    instantiated, appends one task for that user and leaves the tasks in
    place, the other recorders and the registry alone. It does not look
    for a task the user already has: adding the same user again gives a
    second task for the same user id. *)
Theorem add_user_appends (rid : nat) (st : state) (r : recorder) (u : user) :
  recorders st !! rid = Some r ->
  running r = true ->
  instantiate u = None ->
  Forall (fun t => t < next_obj st) (tasks r) ->
  let st1 := (add_user rid u st).1 in
  let st2 := (add_user rid u st1).1 in
  (add_user rid u st).2 = None
  /\ task_users rid st1 = task_users rid st ++ [user_id u]
  /\ task_users rid st2 = task_users rid st ++ [user_id u; user_id u]
  /\ recording st2 = recording st
  /\ forall rid', rid' <> rid -> recorders st2 !! rid' = recorders st !! rid'.
Proof.
  intros Hr Hrun Hu Hts. cbv zeta.
  rewrite (add_user_running rid u st r Hr Hrun Hu). cbn [fst snd].
  assert (recorders st !! rid
          = Some {| running := running r; tasks := tasks r; loop := loop r;
                    config_user := config_user r |}) as Hr'
    by (by destruct r).
  destruct (create_task_users rid u st r (tasks r) Hr' Hts)
    as (Hr1 & Hn1 & _ & Ht1).
  set (st1 := create_task rid u st) in *.
  rewrite (add_user_running rid u st1 _ Hr1 Hrun Hu). cbn [fst snd].
  assert (Forall (fun t => t < next_obj st1) (tasks r ++ [next_obj st])) as Hts1.
  { rewrite Hn1. apply Forall_app. split.
    - eapply Forall_impl; [exact Hts|]. cbn. lia.
    - repeat constructor. }
  destruct (create_task_users rid u st1 r _ Hr1 Hts1) as (_ & _ & _ & Ht2).
  destruct (create_task_frame rid u st) as (Hreg1 & _ & _ & _ & Hrec1).
  destruct (create_task_frame rid u st1) as (Hreg2 & _ & _ & _ & Hrec2).
  fold st1 in Hreg1, Hrec1.
  split_and!; [done|done| |congruence|].
  - rewrite Ht2, Ht1. by rewrite <-app_assoc.
  - intros rid' Hne. by rewrite Hrec2, Hrec1.
Qed.

Lemma add_user_appends_witness :
  let st := Scenario.capturing in
  let r := {| running := true; tasks := [2; 3]; loop := Some 1;
              config_user := [Scenario.kwai 1 "a"; Scenario.kwai 2 "b"] |} in
  let u := Scenario.kwai 2 "b" in
  let st1 := (add_user 0 u st).1 in
  let st2 := (add_user 0 u st1).1 in
  (add_user 0 u st).2 = None
  /\ task_users 0 st1 = task_users 0 st ++ [user_id u]
  /\ task_users 0 st2 = task_users 0 st ++ [user_id u; user_id u]
  /\ recording st2 = recording st
  /\ forall rid', rid' <> 0 -> recorders st2 !! rid' = recorders st !! rid'.
Proof.
  intros st r u. apply (add_user_appends 0 st r u).
  - vm_compute. reflexivity.
  - reflexivity.
  - reflexivity.
  - vm_compute. repeat constructor.
Defined.

(** ** Stopping and starting again *)





End OrchestratorMoreFacts.

Module CaptureMoreFacts.
Import Capture CaptureMore CaptureFacts.

Lemma stop_registry rid st : recording (Orchestrator.stop rid st) = recording st.
Proof.
  unfold Orchestrator.stop.
  destruct (recorders st !! rid) as [r|]; [|done].
  destruct (running r); [|done]. cbn [negb].
  match goal with
  | |- context [Orchestrator.close_all ?s] =>
      set (s2 := s);
      assert (recording s2 = recording st) as H2
  end.
  { subst s2. destruct (tasks r); [done|].
    cbn [recording State.set_recorders].
    destruct (Orchestrator.loop_running r _); [|done].
    by destruct (OrchestratorFacts.cancel_tasks_frame (n :: l)
                   (State.set_recorders
                      (insert rid {| running := false; tasks := n :: l;
                                     loop := loop r;
                                     config_user := config_user r |}) st))
      as (-> & _). }
  destruct (OrchestratorFacts.close_all_frame s2) as (H3 & _).
  destruct (Orchestrator.loop_running r (Orchestrator.close_all s2));
    [|congruence].
  unfold Orchestrator.request_loop_stop. destruct (loop r); cbn; congruence.
Qed.

Lemma gui_timeout_callback_registry id st :
  recording (Orchestrator.gui_timeout_callback id st) = recording st.
Proof.
  unfold Orchestrator.gui_timeout_callback.
  set (s1 := match app_recorder st with Some _ => _ | None => _ end).
  assert (recording s1 = recording st) as H1.
  { subst s1. destruct (app_recorder st); [|done]. cbn. apply stop_registry. }
  by destruct (user_recording_status s1 !! id).
Qed.

Lemma keeps_registry_gui (gui : bool) :
  keeps_registry (if gui then Some Orchestrator.gui_timeout_callback else None).
Proof.
  intros f Hf id st. destruct gui; [|done].
  injection Hf as <-. apply gui_timeout_callback_registry.
Qed.

Lemma timeout_handler_registry self_id fd cb st :
  keeps_registry cb ->
  recording (timeout_handler self_id fd cb st) = recording st.
Proof.
  intros Hcb. unfold timeout_handler.
  set (s1 := if negb (stream_closed fd st) then _ else _).
  assert (recording s1 = recording st) as H1
    by (subst s1; by destruct (negb (stream_closed fd st))).
  destruct cb as [f|]; [|done]. destruct self_id; [|done].
  by rewrite (Hcb f eq_refl).
Qed.

Lemma run_phase_registry_cb (closes_stream : bool) self_id fd timer cb e st :
  keeps_registry cb ->
  recording (run_phase closes_stream self_id fd timer cb e st).1 = recording st.
Proof.
  intros Hcb. unfold run_phase.
  set (p := match e with StreamEnded => _ | _ => _ end).
  assert (recording p.1 = recording st) as Hp.
  { subst p. destruct e; cbn [fst]; try done.
    - destruct timer; cbn [fst]; [|done].
      by rewrite timeout_handler_registry.
    - apply OrchestratorFacts.close_all_frame. }
  destruct p as [s r]. cbn [fst] in *. by destruct closes_stream.
Qed.

Lemma release_registry (has_closed : bool) url fd out opened st :
  recording (release has_closed url fd out opened st)
  = delete url (recording st).
Proof.
  unfold release, unregister. cbn [recording State.set_recording]. f_equal.
  destruct (opened && negb (getattr_closed has_closed out st));
    match goal with
    | |- context [if ?b then _ else _] => by destruct b
    end.
Qed.

Lemma cleanup_registered_registry url st :
  recording (cleanup_registered url st) = delete url (recording st).
Proof.
  unfold cleanup_registered.
  destruct (recording st !! url) as [h|] eqn:Hreg.
  - done.
  - by rewrite delete_id.
Qed.

Lemma run_record_capture_registry (has_closed closes_stream : bool) self_id url
    duration duration_unit cb sc fd out st :
  keeps_registry cb ->
  recording (run_record_capture has_closed closes_stream self_id url duration
                                duration_unit cb sc fd out st).1
  = delete url (recording st).
Proof.
  intros Hcb. unfold run_record_capture.
  destruct (output_open_raises sc) as [e|].
  { cbn [fst]. apply release_registry. }
  destruct (timer_armed (timeout_of duration duration_unit)).
  - cbn [State.fresh].
    match goal with
    | |- context [run_phase ?c ?i ?f ?t ?k ?e ?s] =>
        pose proof (run_phase_registry_cb c i f t k e s Hcb) as Hreg;
        destruct (run_phase c i f t k e s) as [st1 r]
    end.
    cbn [fst] in *. rewrite release_registry.
    cbn [recording cancel_timer State.set_timers]. by rewrite Hreg.
  - match goal with
    | |- context [run_phase ?c ?i ?f ?t ?k ?e ?s] =>
        pose proof (run_phase_registry_cb c i f t k e s Hcb) as Hreg;
        destruct (run_phase c i f t k e s) as [st1 r]
    end.
    cbn [fst] in *. rewrite release_registry. by rewrite Hreg.
Qed.

Lemma outer_except_registry e url st :
  recording (outer_except e url st).1 = delete url (recording st)
  \/ (outer_except e url st = (st, Some e) /\ is_Exception e = false).
Proof.
  unfold outer_except. destruct (is_Exception e); cbn [fst].
  - left. apply cleanup_registered_registry.
  - by right.
Qed.

Lemma run_record_opened_registry (has_closed closes_stream : bool) self_id url
    duration duration_unit cb sc st :
  keeps_registry cb ->
  mkdir_raises sc = None -> open_stream_raises sc = None ->
  recording (run_record has_closed closes_stream self_id true url duration
                        duration_unit cb sc st).1
  = delete url (recording st).
Proof.
  intros Hcb Hmk Hop. unfold run_record, run_record_open. rewrite Hmk, Hop.
  cbn [negb State.fresh]. rewrite run_record_capture_registry by done.
  cbn. apply delete_insert_eq.
Qed.

Lemma run_record_failed_start (has_closed closes_stream : bool) self_id url
    duration duration_unit cb sc st e :
  mkdir_raises sc = Some e
  \/ (mkdir_raises sc = None /\ open_stream_raises sc = Some e) ->
  run_record has_closed closes_stream self_id true url duration
             duration_unit cb sc st
  = outer_except e url st.
Proof.
  unfold run_record, run_record_open. cbn [negb].
  by intros [->|[-> ->]].
Qed.

(** X6. The whole effect of [run_record] on the registry, whatever the script
    and for every callback that leaves the registry alone (the callback of
    the GUI is one): the entry of [url] is gone and every other entry is
    as it was; the one exception is an error outside the class
    [Exception] raised before the stream is open, which passes through
    with the state untouched. *)
Theorem run_record_registry_effect (has_closed closes_stream : bool)
    (self_id : option nat) (url : string) (duration : option Z)
    (duration_unit : option string) (cb : option (nat -> state -> state))
    (sc : script) (st : state) :
  keeps_registry cb ->
  let res := run_record has_closed closes_stream self_id true url duration
                        duration_unit cb sc st in
  recording res.1 = delete url (recording st)
  \/ (res.1 = st
      /\ exists e, res.2 = Some e /\ is_Exception e = false
         /\ (mkdir_raises sc = Some e
             \/ (mkdir_raises sc = None /\ open_stream_raises sc = Some e))).
Proof.
  intros Hcb. cbv zeta.
  destruct (mkdir_raises sc) as [e|] eqn:Hmk.
  { rewrite (run_record_failed_start _ _ _ _ _ _ _ sc _ e) by by left.
    destruct (outer_except_registry e url st) as [?|[-> ?]]; [by left|].
    right. eauto 10. }
  destruct (open_stream_raises sc) as [e|] eqn:Hop.
  { rewrite (run_record_failed_start _ _ _ _ _ _ _ sc _ e) by by right.
    destruct (outer_except_registry e url st) as [?|[-> ?]]; [by left|].
    right. eauto 10. }
  left. by apply run_record_opened_registry.
Qed.

Lemma run_record_registry_effect_witness :
  let cb := Some Orchestrator.gui_timeout_callback in
  let res := run_record true false (Some 3) true "http://live/c"
                        (Some 10%Z) (Some "seconds") cb
                        Scenario.timer_fires Scenario.global_and_single in
  recording res.1 = delete "http://live/c" (recording Scenario.global_and_single)
  \/ (res.1 = Scenario.global_and_single
      /\ exists e, res.2 = Some e /\ is_Exception e = false
         /\ (mkdir_raises Scenario.timer_fires = Some e
             \/ (mkdir_raises Scenario.timer_fires = None
                 /\ open_stream_raises Scenario.timer_fires = Some e))).
Proof.
  apply (run_record_registry_effect true false (Some 3) "http://live/c"
           (Some 10%Z) (Some "seconds")
           (Some Orchestrator.gui_timeout_callback)
           Scenario.timer_fires Scenario.global_and_single).
  exact (keeps_registry_gui true).
Defined.

(** X7. Once [run_record] has opened its stream, every way the capture can go
    ends the same: the stream it opened is closed, the registry has no
    entry for the URL, the timer it armed is armed no more, the output
    is closed when the output object has an attribute [closed], and the
    only exceptions that reach the caller are those outside the class
    [Exception] other than [KeyboardInterrupt]. *)
Theorem run_record_releases (has_closed closes_stream : bool)
    (self_id : option nat) (url : string) (duration : option Z)
    (duration_unit : option string) (cb : option (nat -> state -> state))
    (sc : script) (st : state) :
  mkdir_raises sc = None ->
  open_stream_raises sc = None ->
  let res := run_record has_closed closes_stream self_id true url duration
                        duration_unit cb sc st in
  let fd := next_obj st in
  let out := S (next_obj st) in
  let timer := S (S (next_obj st)) in
  recording res.1 !! url = None
  /\ stream_closed fd res.1 = true
  /\ (has_closed = true -> output_open_raises sc = None ->
      output_opened out res.1 = false)
  /\ (output_open_raises sc = None ->
      timer_armed (timeout_of duration duration_unit) = true ->
      forall z, timers res.1 !! timer <> Some (Armed z))
  /\ (forall e, res.2 = Some e ->
      is_Exception e = false /\ e <> KeyboardInterrupt
      /\ (output_open_raises sc = Some e \/ run_ends sc = RunRaises e)).
Proof.
  intros Hmk Hop. cbv zeta. unfold run_record, run_record_open.
  rewrite Hmk, Hop. cbn [negb State.fresh].
  match goal with
  | |- context [run_record_capture ?a ?b ?c ?d ?e ?f ?g ?h ?i ?j ?s] =>
      destruct (run_record_capture_releases a b c d e f g h i j s)
        as (H1 & H2 & H3 & H4)
  end.
  split_and!; [exact H1|exact H2|exact H3|exact H4|].
  intros e. unfold run_record_capture.
  destruct (output_open_raises sc) as [x|].
  { cbn [snd]. unfold propagates.
    destruct x; cbn; intros [= <-]; split_and!; try done; by left. }
  assert (forall s t (r : option exn),
            (run_phase closes_stream self_id (next_obj st) t cb (run_ends sc) s).2
            = r -> propagates r = Some e ->
            is_Exception e = false /\ e <> KeyboardInterrupt
            /\ run_ends sc = RunRaises e) as Hrun.
  { intros s t r <-. unfold run_phase.
    destruct (run_ends sc) as [|x| |]; cbn [snd]; try done.
    - unfold propagates.
      destruct x; cbn; intros [= <-]; split_and!; done.
    - destruct t; done. }
  destruct (timer_armed (timeout_of duration duration_unit)).
  - cbn [State.fresh].
    match goal with
    | |- context [run_phase ?c ?i ?f ?t ?k ?e ?s] =>
        pose proof (Hrun s t _ eq_refl) as Hr;
        destruct (run_phase c i f t k e s) as [st1 r]
    end.
    cbn [snd] in *. intros Hp. destruct (Hr Hp) as (? & ? & ?). auto.
  - match goal with
    | |- context [run_phase ?c ?i ?f ?t ?k ?e ?s] =>
        pose proof (Hrun s t _ eq_refl) as Hr;
        destruct (run_phase c i f t k e s) as [st1 r]
    end.
    cbn [snd] in *. intros Hp. destruct (Hr Hp) as (? & ? & ?). auto.
Qed.

Lemma run_record_releases_witness :
  let sc := Scenario.timer_fires in
  let st := Scenario.capturing in
  let res := run_record true false (Some 2) true "http://live/b"
                        (Some 10%Z) (Some "seconds") None sc st in
  recording res.1 !! "http://live/b" = None
  /\ stream_closed 6 res.1 = true
  /\ (true = true -> output_open_raises sc = None ->
      output_opened 7 res.1 = false)
  /\ (output_open_raises sc = None ->
      timer_armed (timeout_of (Some 10%Z) (Some "seconds")) = true ->
      forall z, timers res.1 !! 8 <> Some (Armed z))
  /\ (forall e, res.2 = Some e ->
      is_Exception e = false /\ e <> KeyboardInterrupt
      /\ (output_open_raises sc = Some e \/ run_ends sc = RunRaises e)).
Proof.
  apply (run_record_releases true false (Some 2) "http://live/b" (Some 10%Z)
           (Some "seconds") None Scenario.timer_fires Scenario.capturing);
    reflexivity.
Defined.

(** X8. A capture that fails before its stream is open, under a URL that an
    earlier capture holds in the registry: the handler of [run_record]
    closes the stream and the output of that earlier capture and takes
    its entry away; nothing is raised and no object is made. *)
Theorem failed_start_drops_entry (has_closed closes_stream : bool)
    (self_id : option nat) (url : string) (duration : option Z)
    (duration_unit : option string) (cb : option (nat -> state -> state))
    (sc : script) (st : state) (fd out : nat) (e : exn) :
  recording st !! url = Some (fd, out) ->
  mkdir_raises sc = Some e
  \/ (mkdir_raises sc = None /\ open_stream_raises sc = Some e) ->
  is_Exception e = true ->
  let res := run_record has_closed closes_stream self_id true url duration
                        duration_unit cb sc st in
  res.2 = None
  /\ recording res.1 = delete url (recording st)
  /\ stream_closed fd res.1 = true
  /\ output_opened out res.1 = false
  /\ next_obj res.1 = next_obj st.
Proof.
  intros Hreg Hfail He. cbv zeta.
  assert (run_record has_closed closes_stream self_id true url duration
                     duration_unit cb sc st
          = (cleanup_registered url st, None)) as ->.
  { unfold run_record, run_record_open, outer_except. cbn [negb].
    destruct Hfail as [->|[-> ->]]; by rewrite He. }
  cbn [fst snd]. split; [done|].
  split; [apply cleanup_registered_registry|].
  unfold cleanup_registered. rewrite Hreg.
  unfold stream_closed, output_opened, unregister, Orchestrator.close_pair.
  cbn. rewrite !lookup_alter_eq.
  split_and!; [by destruct (streams st !! fd)|by destruct (outputs st !! out)|done].
Qed.

Lemma failed_start_drops_entry_witness :
  let sc := {| mkdir_raises := Some OSError; open_stream_raises := None;
               output_open_raises := None; run_ends := StreamEnded |} in
  let st := Scenario.capturing in
  let res := run_record true false (Some 1) true "http://live/b"
                        None None None sc st in
  res.2 = None
  /\ recording res.1 = delete "http://live/b" (recording st)
  /\ stream_closed 4 res.1 = true
  /\ output_opened 5 res.1 = false
  /\ next_obj res.1 = next_obj st.
Proof.
  apply (failed_start_drops_entry true false (Some 1) "http://live/b" None
           None None
           {| mkdir_raises := Some OSError; open_stream_raises := None;
              output_open_raises := None; run_ends := StreamEnded |}
           Scenario.capturing 4 5 OSError).
  - vm_compute. reflexivity.
  - left. reflexivity.
  - reflexivity.
Defined.

Lemma kwai_call_run_guard (has_closed closes_stream : bool) st c :
  recording st !! "" = None ->
  recording (kwai_call_run has_closed closes_stream st c) !! "" = None.
Proof.
  intros Hno. unfold kwai_call_run, Kwai_run.
  destruct (bool_decide _); [|done].
  destruct (call_probe c) as [| |live_url]; try done.
  destruct (String.eqb_spec live_url "") as [|Hne]; [done|].
  assert (keeps_registry
            (Some (fun (_ : nat) (s : state) =>
                     match (if call_gui c
                            then Some Orchestrator.gui_timeout_callback
                            else None) with
                     | Some g => g (call_self c) s
                     | None => s
                     end))) as Hcb.
  { intros f [= <-] id s. destruct (call_gui c); [|done].
    apply gui_timeout_callback_registry. }
  destruct (mkdir_raises (call_script c)) as [e|] eqn:Hmk.
  { rewrite (run_record_failed_start _ _ _ _ _ _ _ _ _ e) by by left.
    destruct (outer_except_registry e live_url st) as [->|[-> _]]; [|done].
    by rewrite lookup_delete_ne. }
  destruct (open_stream_raises (call_script c)) as [e|] eqn:Hop.
  { rewrite (run_record_failed_start _ _ _ _ _ _ _ _ _ e) by by right.
    destruct (outer_except_registry e live_url st) as [->|[-> _]]; [|done].
    by rewrite lookup_delete_ne. }
  rewrite run_record_opened_registry by done.
  by rewrite lookup_delete_ne.
Qed.

(** X9. The guard of [Kwai.run] tests the registry for the key [url = f''],
    and no activation of [Kwai.run] ever registers that key: from a
    registry without it, after any number of activations by any users,
    whatever the probes give and however the captures go, the key is
    still absent before each activation and after the last, so the guard
    lets every activation through. *)
Theorem kwai_guard_never_blocks (has_closed closes_stream : bool)
    (calls : list kwai_call) (st : state) (n : nat) :
  recording st !! "" = None ->
  recording (kwai_calls has_closed closes_stream (take n calls) st) !! ""
  = None.
Proof.
  revert n st. induction calls as [|c calls IH]; intros n st Hno.
  - by rewrite take_nil.
  - destruct n as [|n]; [done|]. cbn [take]. unfold kwai_calls. cbn [fold_left].
    apply IH. by apply kwai_call_run_guard.
Qed.

Lemma kwai_guard_never_blocks_witness :
  let c1 := {| call_self := 2; call_duration := None; call_unit := None;
               call_gui := false; call_probe := Live "http://live/b";
               call_script := Scenario.stream_ends |} in
  let c2 := {| call_self := 1; call_duration := Some 10%Z;
               call_unit := Some "seconds"; call_gui := true;
               call_probe := Live "http://live/a";
               call_script := Scenario.timer_fires |} in
  recording (kwai_calls true false (take 2 [c1; c2]) Scenario.capturing) !! ""
  = None.
Proof.
  intros c1 c2.
  apply (kwai_guard_never_blocks true false [c1; c2] Scenario.capturing 2).
  vm_compute. reflexivity.
Defined.

End CaptureMoreFacts.

Module SignatureMoreFacts.
Import Signature PyFacts SignatureFacts.

Lemma StronglySorted_filter {A} (R : relation A) (P : A -> Prop)
    `{!forall x, Decision (P x)} (l : list A) :
  StronglySorted R l -> StronglySorted R (filter P l).
Proof.
  induction 1 as [|x l Hl IH Hx]; [constructor|].
  rewrite filter_cons. destruct (decide (P x)); [|done].
  constructor; [done|].
  apply Forall_forall. intros y [_ Hy]%list_elem_of_filter.
  by eapply Forall_forall in Hx.
Qed.

Section WithLibrary.

Variable unquote : string -> string.
Variable md5_hexdigest : string -> string.

(** The canonical string reads the parameters at the signed keys only. *)
Lemma canonical_agree (m m' : gmap string string) :
  (forall k, signed_key k = true -> m !! k = m' !! k) ->
  canonical unquote m = canonical unquote m'.
Proof.
  intros Hagree. unfold canonical.
  assert (filter (fun k => signed_key k = true) (sorted_keys m)
          = filter (fun k => signed_key k = true) (sorted_keys m')) as <-.
  { apply (StronglySorted_unique String.le).
    - apply StronglySorted_filter, StronglySorted_merge_sort; apply _.
    - apply StronglySorted_filter, StronglySorted_merge_sort; apply _.
    - apply NoDup_Permutation.
      + apply NoDup_filter. unfold sorted_keys.
        rewrite merge_sort_Permutation. apply NoDup_elements.
      + apply NoDup_filter. unfold sorted_keys.
        rewrite merge_sort_Permutation. apply NoDup_elements.
      + intros k. rewrite !list_elem_of_filter. unfold sorted_keys.
        rewrite !merge_sort_Permutation, !elem_of_elements, !elem_of_dom.
        split; intros [Hk Hin]; (split; [done|]).
        * by rewrite <-Hagree.
        * by rewrite Hagree. }
  f_equal. apply map_ext_in. intros k Hk.
  apply list_elem_of_In, list_elem_of_filter in Hk as [Hk _].
  by rewrite (Hagree k Hk).
Qed.

(** X10. The signature is a function of the merged parameters at the keys
    other than [sig], [__NS_sig3] and [__NStokensig]: two requests whose
    merged parameters agree at every other key get the same signature,
    whatever they hold under these three keys, and in whatever order the
    pairs and the post items come. *)
Theorem signature_of_signed_params (pairs pairs' : list (string * string))
    (post post' : list (string * Py.value)) :
  pairs <> [] -> Forall well_formed_pair pairs ->
  pairs' <> [] -> Forall well_formed_pair pairs' ->
  (forall k, k ∉ excluded ->
     merged pairs post !! k = merged pairs' post' !! k) ->
  create_signature unquote md5_hexdigest (render_query pairs) post
  = create_signature unquote md5_hexdigest (render_query pairs') post'.
Proof.
  intros Hne Hwf Hne' Hwf' Hagree. unfold create_signature.
  rewrite !url_string_of_dict, !map_object_render by done.
  do 2 f_equal. apply canonical_agree.
  intros k Hk. apply Hagree. intros Hin.
  unfold signed_key in Hk. apply negb_true_iff in Hk.
  assert (existsb (String.eqb k) excluded = true) as Hex; [|congruence].
  apply existsb_exists. exists k. split; [by apply list_elem_of_In|].
  apply String.eqb_refl.
Qed.

(** X11. The order of the pairs of a query string with distinct keys does not
    matter to the signature. *)
Theorem signature_query_order (pairs pairs' : list (string * string))
    (post : list (string * Py.value)) :
  pairs <> [] -> Forall well_formed_pair pairs ->
  NoDup pairs.*1 -> pairs ≡ₚ pairs' ->
  create_signature unquote md5_hexdigest (render_query pairs') post
  = create_signature unquote md5_hexdigest (render_query pairs) post.
Proof.
  intros Hne Hwf Hnd Hperm. unfold create_signature.
  assert (pairs' <> []) as Hne'.
  { intros ->. by apply Permutation_nil_r in Hperm. }
  assert (Forall well_formed_pair pairs') as Hwf' by by rewrite <-Hperm.
  rewrite !url_string_of_dict, !map_object_render by done.
  do 3 f_equal. unfold merged, params. f_equal.
  apply list_to_map_proper.
  - by rewrite fmap_reverse, reverse_Permutation, <-Hperm.
  - by rewrite !reverse_Permutation.
Qed.

End WithLibrary.

Lemma signature_of_signed_params_witness :
  let pairs := [("b", "2"); ("sig", "0"); ("a", "1%20x")] in
  let pairs' := [("a", "7"); ("__NS_sig3", "zz"); ("b", "2")] in
  let post := [("a", Py.VStr "9"); ("sig", Py.VInt 5)] in
  let post' := [("a", Py.VInt 9)] in
  create_signature id id (render_query pairs) post
  = create_signature id id (render_query pairs') post'.
Proof.
  intros pairs pairs' post post'.
  apply (signature_of_signed_params id id pairs pairs' post post').
  - done.
  - repeat constructor.
  - done.
  - repeat constructor.
  - intros k Hk. vm_compute in Hk.
    unfold merged, params, pairs, pairs', post, post'. cbn.
    destruct (decide (k = "a")) as [->|Ha]; [done|].
    destruct (decide (k = "b")) as [->|Hb]; [done|].
    destruct (decide (k = "sig")) as [->|Hs].
    { exfalso. apply Hk. set_solver. }
    destruct (decide (k = "__NS_sig3")) as [->|Hn].
    { exfalso. apply Hk. set_solver. }
    rewrite !lookup_union, !lookup_insert_ne, !lookup_empty by done.
    done.
Defined.

Lemma signature_query_order_witness :
  let pairs := [("b", "2"); ("a", "1%20x"); ("sig", "0")] in
  let pairs' := [("sig", "0"); ("b", "2"); ("a", "1%20x")] in
  let post := [("page", Py.VInt 1)] in
  create_signature id id (render_query pairs') post
  = create_signature id id (render_query pairs) post.
Proof.
  intros pairs pairs' post.
  apply (signature_query_order id id pairs pairs' post).
  - done.
  - repeat constructor.
  - apply (bool_decide_unpack (NoDup _)). vm_compute. reflexivity.
  - unfold pairs, pairs'.
    change [("b", "2"); ("a", "1%20x"); ("sig", "0")]
      with ([("b", "2"); ("a", "1%20x")] ++ [("sig", "0")]).
    apply Permutation_app_comm.
Defined.

End SignatureMoreFacts.

Module UstrFacts.
Import Ustr.

Lemma startswith_app (p s : str) : startswith p (p ++ s) = true.
Proof.
  induction p as [|c p IH]; [done|]. cbn. by rewrite N.eqb_refl, IH.
Qed.

Lemma startswith_spec (p s : str) :
  startswith p s = true <-> exists r, s = p ++ r.
Proof.
  split.
  - revert s. induction p as [|a p IH]; intros s Hs; [by exists s|].
    destruct s as [|b s]; [done|]. cbn in Hs.
    apply andb_true_iff in Hs as [->%N.eqb_eq Hs].
    destruct (IH s Hs) as [r ->]. by exists r.
  - intros [r ->]. apply startswith_app.
Qed.

(** Replacing a one-character string is a substitution of characters. *)
Lemma replace_one (a b : N) (s : str) :
  replace [a] [b] s = (fun c => if N.eqb c a then b else c) <$> s.
Proof.
  unfold replace. induction s as [|c s IH]; [done|].
  cbn. rewrite N.eqb_sym.
  destruct (N.eqb c a); cbn; by rewrite IH.
Qed.

(** A string without the second character of [old] has no occurrence. *)
Lemma replace_absent (a b : N) (old' new s : str) :
  b ∉ s -> replace (a :: b :: old') new s = s.
Proof.
  unfold replace. induction s as [|c s IH]; [done|].
  intros Hb. apply not_elem_of_cons in Hb as [Hc Hs].
  cbn -[startswith]. 
  assert (startswith (a :: b :: old') (c :: s) = false) as ->.
  { cbn. destruct (N.eqb a c); [|done]. cbn.
    destruct s as [|d s]; [done|]. 
    apply not_elem_of_cons in Hs as [Hd _].
    by apply N.eqb_neq in Hd as ->. }
  by rewrite IH.
Qed.

End UstrFacts.

Module ReFacts.
Import Ustr Re.

Lemma nullable_lang (r : re) : nullable r = true <-> lang r [].
Proof.
  induction r as [| |P|r1 IH1 r2 IH2|r1 IH1 r2 IH2|r IH]; cbn.
  - split; [done|inversion 1].
  - split; [constructor|done].
  - split; [done|inversion 1].
  - rewrite andb_true_iff, IH1, IH2. split.
    + intros [H1 H2]. by apply (lang_seq _ _ [] []).
    + inversion 1 as [| |? ? s1 s2 H1 H2 [E1 E2] E| | | |]; subst.
      by apply app_eq_nil in E as [-> ->].
  - rewrite orb_true_iff, IH1, IH2. split.
    + intros [?|?]; [by apply lang_alt_l|by apply lang_alt_r].
    + inversion 1; subst; auto.
  - split; [constructor|done].
Qed.

Lemma lang_star_cons (r : re) (c : N) (s : str) :
  lang (Star r) (c :: s) ->
  exists s1 s2, s = s1 ++ s2 /\ lang r (c :: s1) /\ lang (Star r) s2.
Proof.
  intros H. remember (Star r) as r' eqn:Hr. remember (c :: s) as t eqn:Ht.
  revert Hr s Ht.
  induction H as [| | | | | |r0 s1 s2 H1 _ H2 IH2]; intros Hr s' Ht;
    try discriminate.
  injection Hr as ->. destruct s1 as [|d s1].
  - cbn in Ht. by apply IH2.
  - injection Ht as -> <-. by exists s1, s2.
Qed.

Lemma deriv_lang (r : re) (c : N) (s : str) :
  lang (deriv c r) s <-> lang r (c :: s).
Proof.
  revert s.
  induction r as [| |P|r1 IH1 r2 IH2|r1 IH1 r2 IH2|r IH]; intros s; cbn.
  - split; inversion 1.
  - split; inversion 1.
  - destruct (P c) eqn:HP; split.
    + inversion 1; subst. by constructor.
    + inversion 1; subst. constructor.
    + inversion 1.
    + inversion 1; subst. congruence.
  - assert (lang (Seq (deriv c r1) r2) s
            <-> exists s1 s2, s = s1 ++ s2 /\ lang r1 (c :: s1) /\ lang r2 s2)
      as Hseq.
    { split.
      - inversion 1 as [| |? ? s1 s2 H1 H2| | | |]; subst.
        exists s1, s2. by rewrite <-IH1.
      - intros (s1 & s2 & -> & H1 & H2). constructor; [by apply IH1|done]. }
    assert (lang (Seq r1 r2) (c :: s)
            <-> (exists s1 s2, s = s1 ++ s2 /\ lang r1 (c :: s1) /\ lang r2 s2)
                \/ (lang r1 [] /\ lang r2 (c :: s))) as Hcons.
    { split.
      - inversion 1 as [| |? ? s1 s2 H1 H2 [E1 E2] E| | | |]; subst.
        destruct s1 as [|d s1].
        + cbn in E. subst. by right.
        + injection E as -> <-. left. by exists s1, s2.
      - intros [(s1 & s2 & -> & H1 & H2)|[H1 H2]].
        + by apply (lang_seq _ _ (c :: s1) s2).
        + by apply (lang_seq _ _ [] (c :: s)). }
    rewrite Hcons. destruct (nullable r1) eqn:Hn.
    + apply nullable_lang in Hn. split.
      * inversion 1; subst; [left; by apply Hseq|right; by rewrite <-IH2].
      * intros [H|[_ H]]; [apply lang_alt_l; by apply Hseq|].
        apply lang_alt_r. by apply IH2.
    + rewrite Hseq. split; [by left|]. intros [H|[H _]]; [done|].
      apply nullable_lang in H. congruence.
  - split.
    + inversion 1; subst;
        [apply lang_alt_l; by apply IH1|apply lang_alt_r; by apply IH2].
    + inversion 1; subst;
        [apply lang_alt_l; by apply IH1|apply lang_alt_r; by apply IH2].
  - split.
    + inversion 1 as [| |? ? s1 s2 H1 H2| | | |]; subst.
      apply (lang_star_app _ (c :: s1) s2); [by apply IH|done].
    + intros (s1 & s2 & -> & H1 & H2)%lang_star_cons.
      constructor; [by apply IH|done].
Qed.

Lemma fullmatch_lang (r : re) (s : str) : fullmatch r s = true <-> lang r s.
Proof.
  unfold fullmatch. revert r. induction s as [|c s IH]; intros r; cbn.
  - apply nullable_lang.
  - by rewrite IH, deriv_lang.
Qed.

Lemma lang_Lit (p s : str) : lang (Lit p) s <-> s = p.
Proof.
  revert s. induction p as [|c p IH]; intros s; cbn.
  - split; [by inversion 1|intros ->; constructor].
  - split.
    + inversion 1 as [| |? ? s1 s2 H1 H2| | | |]; subst.
      apply IH in H2 as ->. inversion H1; subst.
      by match goal with H : N.eqb _ _ = true |- _ => apply N.eqb_eq in H as -> end.
    + intros ->. apply (lang_seq _ _ [c] p).
      * constructor. apply N.eqb_refl.
      * by apply IH.
Qed.

Lemma lang_Star_Class (P : N -> bool) (s : str) :
  lang (Star (Class P)) s <-> forallb P s = true.
Proof.
  split.
  - intros H. remember (Star (Class P)) as r eqn:Hr.
    induction H as [| | | | | |r0 s1 s2 H1 _ H2 IH2]; try discriminate; [done|].
    injection Hr as ->. inversion H1; subst. cbn.
    rewrite IH2 by done. by rewrite andb_true_r.
  - induction s as [|c s IH]; cbn; [constructor|].
    intros [Hc Hs]%andb_true_iff.
    apply (lang_star_app _ [c] s); [by constructor|by apply IH].
Qed.

Lemma lang_Plus_Class (P : N -> bool) (s : str) :
  lang (Plus (Class P)) s <-> s <> [] /\ forallb P s = true.
Proof.
  unfold Plus. split.
  - inversion 1 as [| |? ? s1 s2 H1 H2| | | |]; subst.
    inversion H1; subst. apply lang_Star_Class in H2. cbn.
    split; [done|]. by rewrite H2, andb_true_r.
  - intros [Hne Hs]. destruct s as [|c s]; [done|]. cbn in Hs.
    apply andb_true_iff in Hs as [Hc Hs].
    apply (lang_seq _ _ [c] s); [by constructor|by apply lang_Star_Class].
Qed.

Lemma lang_Seq (r1 r2 : re) (s : str) :
  lang (Seq r1 r2) s <-> exists s1 s2, s = s1 ++ s2 /\ lang r1 s1 /\ lang r2 s2.
Proof.
  split.
  - inversion 1; subst. eauto.
  - intros (s1 & s2 & -> & H1 & H2). by constructor.
Qed.

Lemma lang_Alt (r1 r2 : re) (s : str) :
  lang (Alt r1 r2) s <-> lang r1 s \/ lang r2 s.
Proof.
  split.
  - inversion 1; subst; auto.
  - intros [?|?]; [by apply lang_alt_l|by apply lang_alt_r].
Qed.

Lemma lang_Eps (s : str) : lang Eps s <-> s = [].
Proof. split; [by inversion 1|intros ->; constructor]. Qed.

Lemma lang_Class (P : N -> bool) (s : str) :
  lang (Class P) s <-> exists c, s = [c] /\ P c = true.
Proof.
  split.
  - inversion 1; subst. eauto.
  - intros (c & -> & Hc). by constructor.
Qed.

End ReFacts.

Module ProxyFacts.
Import Ustr Re Proxy ReFacts UstrFacts.

Section WithUnicode.

Variable is_decimal : N -> bool.

Lemma proxy_pattern_lang (s : str) :
  lang (proxy_pattern is_decimal) s
  <-> exists scheme host port, proxy_form is_decimal s scheme host port [].
Proof.
  unfold proxy_pattern, proxy_form, schemes. split.
  - intros (s1 & s2 & -> & Hs & Hrest)%lang_Seq.
    apply lang_Seq in Hrest as (t1 & t2 & -> & ->%lang_Lit & Hrest).
    apply lang_Seq in Hrest as (host & t3 & -> & [Hh1 Hh2]%lang_Plus_Class & Hrest).
    apply lang_Seq in Hrest as (t4 & port & -> & ->%lang_Lit & [Hp1 Hp2]%lang_Plus_Class).
    exists s1, host, port. rewrite app_nil_r.
    split_and!; try done; [|by left].
    apply lang_Alt in Hs as [->%lang_Lit|Hs]; [set_solver|].
    apply lang_Seq in Hs as (a & b & -> & ->%lang_Lit & Hopt).
    apply lang_Alt in Hopt as [(c & -> & Hc)%lang_Class| ->%lang_Eps].
    + unfold four_or_five in Hc.
      apply orb_true_iff in Hc as [->%N.eqb_eq| ->%N.eqb_eq].
      * do 2 right. left.
      * do 3 right. left.
    + rewrite app_nil_r. right. left.
  - intros (scheme & host & port & -> & Hs & Hh1 & Hh2 & Hp1 & Hp2 & _).
    rewrite app_nil_r.
    apply lang_seq; [|apply lang_seq; [by apply lang_Lit|]].
    + apply lang_Alt.
      rewrite !elem_of_cons in Hs.
      destruct Hs as [->|[->|[->|[->|Hs]]]]; [| | | |by apply elem_of_nil in Hs].
      * left. by apply lang_Lit.
      * right. apply (lang_seq _ _ (lit "socks") []); [by apply lang_Lit|].
        apply lang_alt_r. constructor.
      * right. apply (lang_seq _ _ (lit "socks") [52%N]); [by apply lang_Lit|].
        apply lang_alt_l. by constructor.
      * right. apply (lang_seq _ _ (lit "socks") [53%N]); [by apply lang_Lit|].
        apply lang_alt_l. by constructor.
    + apply lang_seq; [by apply lang_Plus_Class|].
      apply lang_seq; [by apply lang_Lit|by apply lang_Plus_Class].
Qed.

Lemma match_to_dollar_lang (r : re) (s : str) :
  match_to_dollar r s = true
  <-> lang r s \/ exists s', s = s' ++ [10%N] /\ lang r s'.
Proof.
  unfold match_to_dollar. rewrite orb_true_iff, fullmatch_lang.
  destruct s as [|c s _] using rev_ind.
  - cbn. split; [intros [?|?]; [by left|done]|].
    intros [?|(s' & Hs & _)]; [by left|]. by destruct s'.
  - rewrite reverse_snoc, reverse_involutive, andb_true_iff, N.eqb_eq,
      fullmatch_lang.
    split; (intros [?|H]; [by left|right]).
    + destruct H as [-> H]. by exists s.
    + destruct H as (s' & [-> [= ->]]%app_inj_tail & H). done.
Qed.

(** An accepted text that is not empty starts with a scheme and [://]. *)
Lemma validate_proxy_scheme (p : str) :
  validate_proxy is_decimal p = true -> p <> [] ->
  exists scheme host port nl, proxy_form is_decimal p scheme host port nl.
Proof.
  unfold validate_proxy. destruct p as [|c p]; [done|]. intros Hm _.
  apply match_to_dollar_lang in Hm as [H|(s' & Hs & H)];
    apply proxy_pattern_lang in H as (scheme & host & port & H).
  - by exists scheme, host, port, [].
  - exists scheme, host, port, [10%N].
    destruct H as (-> & ? & ? & ? & ? & ? & _). rewrite app_nil_r in Hs.
    split_and!; try done; [|by right].
    rewrite Hs. by rewrite <-!app_assoc.
Qed.

(** X12. What [validate_proxy] accepts: the empty text, and the texts
    [scheme://host:port] with one of the schemes [http], [socks],
    [socks4], [socks5], a non-empty host of ASCII letters, digits, dots
    and hyphens and a non-empty port of decimal digits, with or without
    one newline behind the port. *)
Theorem validate_proxy_accepts (p : str) :
  validate_proxy is_decimal p = true
  <-> p = []
      \/ exists scheme host port nl, proxy_form is_decimal p scheme host port nl.
Proof.
  split.
  - intros Hv. destruct p as [|c p]; [by left|].
    right. by apply validate_proxy_scheme.
  - intros [->|(scheme & host & port & nl & H)]; [done|].
    assert (p <> []) as Hne.
    { destruct H as (-> & Hs & _). unfold schemes in Hs.
      rewrite !elem_of_cons in Hs.
      destruct Hs as [->|[->|[->|[->|Hs]]]]; [done..|by apply elem_of_nil in Hs]. }
    unfold validate_proxy. destruct p as [|c p]; [done|].
    apply match_to_dollar_lang.
    destruct H as (Hp & ? & ? & ? & ? & ? & [->| ->]).
    + left. apply proxy_pattern_lang. exists scheme, host, port.
      by split_and!; try done; left.
    + right. exists (scheme ++ lit "://" ++ host ++ lit ":" ++ port).
      split; [by rewrite Hp, <-!app_assoc|].
      apply proxy_pattern_lang. exists scheme, host, port.
      split_and!; try done; [by rewrite app_nil_r|by left].
Qed.

(** X13. The proxy of [requests.post] for a text that [validate_proxy]
    accepted: texts with the schemes [http] and [socks5] are passed on
    as they are, the latter only if the module [socks] can be imported;
    the accepted schemes [socks] and [socks4] are not among the prefixes
    that [user_search] knows, so [http://] is put before the whole
    text. *)
Theorem requests_proxy_of_accepted (socks_installed : bool) (p : str) :
  validate_proxy is_decimal p = true -> p <> [] ->
  exists scheme rest,
    p = scheme ++ lit "://" ++ rest
    /\ scheme ∈ schemes
    /\ requests_proxy socks_installed (Some p)
       = if decide (scheme = lit "http") then Some p
         else if decide (scheme = lit "socks5")
              then (if socks_installed then Some p else None)
              else Some (lit "http://" ++ p).
Proof.
  intros Hv Hne.
  destruct (validate_proxy_scheme p Hv Hne)
    as (scheme & host & port & nl & -> & Hs & _).
  exists scheme, (host ++ lit ":" ++ port ++ nl).
  split; [done|]. split; [done|].
  generalize (host ++ lit ":" ++ port ++ nl). intros rest.
  unfold schemes in Hs. rewrite !elem_of_cons in Hs.
  destruct Hs as [->|[->|[->|[->|Hs]]]]; [| | | |by apply elem_of_nil in Hs];
    destruct socks_installed; vm_compute; reflexivity.
Qed.

Lemma forallb_not_elem (P : N -> bool) (c : N) (s : str) :
  P c = false -> forallb P s = true -> c ∉ s.
Proof.
  intros Hc Hs Hin. apply forallb_forall with (x := c) in Hs; [congruence|].
  by apply list_elem_of_In.
Qed.

(** X14. The option [http-proxy] of streamlink for a text that
    [validate_proxy] accepted: when the text holds [socks] anywhere, in
    the scheme or in the host, [h] is put behind the scheme, whatever the
    scheme is; each of the schemes [socks], [socks4] and [socks5] is such
    a case. *)
Theorem streamlink_proxy_of_accepted (p : str) :
  is_decimal 47 = false ->
  validate_proxy is_decimal p = true -> p <> [] ->
  exists scheme rest,
    p = scheme ++ lit "://" ++ rest
    /\ scheme ∈ schemes
    /\ streamlink_proxy (Some p)
       = Some (if contains (lit "socks") p
               then scheme ++ lit "h://" ++ rest else p)
    /\ (scheme <> lit "http" -> contains (lit "socks") p = true).
Proof.
  intros Hslash Hv Hne.
  destruct (validate_proxy_scheme p Hv Hne)
    as (scheme & host & port & nl & -> & Hs & _ & Hhost & _ & Hport & Hnl).
  exists scheme, (host ++ lit ":" ++ port ++ nl).
  split; [done|]. split; [done|].
  assert (47%N ∉ host ++ lit ":" ++ port ++ nl) as Hrest.
  { rewrite !not_elem_of_app. split_and!.
    - by apply (forallb_not_elem host_char).
    - change (lit ":") with [58%N].
      apply not_elem_of_cons; split; [done|apply not_elem_of_nil].
    - by apply (forallb_not_elem is_decimal).
    - destruct Hnl as [->| ->]; [apply not_elem_of_nil|].
      apply not_elem_of_cons; split; [done|apply not_elem_of_nil]. }
  revert Hrest. generalize (host ++ lit ":" ++ port ++ nl). intros rest Hrest.
  assert (replace (lit "://") (lit "h://") rest = rest) as Hrep
    by by apply (replace_absent 58 47 [47%N]).
  unfold schemes in Hs. rewrite !elem_of_cons in Hs.
  destruct Hs as [->|[->|[->|[->|Hs]]]]; [| | | |by apply elem_of_nil in Hs].
  - split; [|done]. unfold streamlink_proxy.
    change (lit "http" ++ lit "://" ++ rest)
      with (104 :: 116 :: 116 :: 112 :: 58 :: 47 :: 47 :: rest)%N.
    destruct (contains _ _); [|done]. f_equal.
    transitivity (lit "http" ++ lit "h://" ++ replace (lit "://") (lit "h://") rest);
      [vm_compute; reflexivity|by rewrite Hrep].
  - split; [|intros _; vm_compute; reflexivity].
    transitivity (Some (lit "socks" ++ lit "h://"
                        ++ replace (lit "://") (lit "h://") rest));
      [vm_compute; reflexivity|]. rewrite Hrep.
    assert (contains (lit "socks") (lit "socks" ++ lit "://" ++ rest) = true)
      as -> by (vm_compute; reflexivity). done.
  - split; [|intros _; vm_compute; reflexivity].
    transitivity (Some (lit "socks4" ++ lit "h://"
                        ++ replace (lit "://") (lit "h://") rest));
      [vm_compute; reflexivity|]. rewrite Hrep.
    assert (contains (lit "socks") (lit "socks4" ++ lit "://" ++ rest) = true)
      as -> by (vm_compute; reflexivity). done.
  - split; [|intros _; vm_compute; reflexivity].
    transitivity (Some (lit "socks5" ++ lit "h://"
                        ++ replace (lit "://") (lit "h://") rest));
      [vm_compute; reflexivity|]. rewrite Hrep.
    assert (contains (lit "socks") (lit "socks5" ++ lit "://" ++ rest) = true)
      as -> by (vm_compute; reflexivity). done.
Qed.

End WithUnicode.

Lemma requests_proxy_of_accepted_witness :
  let p := lit "socks4://proxy.example:1080" in
  exists scheme rest,
    p = scheme ++ lit "://" ++ rest
    /\ scheme ∈ schemes
    /\ requests_proxy true (Some p)
       = if decide (scheme = lit "http") then Some p
         else if decide (scheme = lit "socks5")
              then (if true then Some p else None)
              else Some (lit "http://" ++ p).
Proof.
  apply (requests_proxy_of_accepted ascii_digit true
           (lit "socks4://proxy.example:1080")).
  - vm_compute. reflexivity.
  - vm_compute. discriminate.
Defined.

Lemma streamlink_proxy_of_accepted_witness :
  let p := lit "http://socks.example:8080" in
  exists scheme rest,
    p = scheme ++ lit "://" ++ rest
    /\ scheme ∈ schemes
    /\ streamlink_proxy (Some p)
       = Some (if contains (lit "socks") p
               then scheme ++ lit "h://" ++ rest else p)
    /\ (scheme <> lit "http" -> contains (lit "socks") p = true).
Proof.
  apply (streamlink_proxy_of_accepted ascii_digit
           (lit "http://socks.example:8080")).
  - reflexivity.
  - vm_compute. reflexivity.
  - vm_compute. discriminate.
Defined.

End ProxyFacts.

Module FilenameFacts.
Import Ustr Filename UstrFacts.

Lemma sanitise_fmap (title : str) : sanitise title = full_width <$> title.
Proof.
  unfold sanitise, char_dict. cbn [fold_left fst snd].
  rewrite !replace_one, <-!list_fmap_compose.
  apply list_fmap_ext. intros _ c _. unfold compose, full_width, halves.
  cbn [existsb fmap list_fmap char_dict fst].
  repeat match goal with
         | |- context [N.eqb c ?k] =>
             destruct (N.eqb_spec c k) as [->|?]; [vm_compute; reflexivity|]
         end.
  reflexivity.
Qed.

Lemma full_width_not_half (c : N) : full_width c ∉ halves.
Proof.
  unfold full_width. destruct (existsb (N.eqb c) halves) eqn:Hc.
  - apply existsb_exists in Hc as (h & Hh & ->%N.eqb_eq).
    apply list_elem_of_In in Hh. unfold halves in *. cbn in Hh.
    rewrite !elem_of_cons in Hh.
    destruct Hh as [->|[->|[->|[->|[->|[->|[->|[->|[->|Hh]]]]]]]]];
      try (by apply elem_of_nil in Hh);
      (intros Hin; cbn in Hin; rewrite !elem_of_cons in Hin;
       repeat (destruct Hin as [Hin|Hin]; [discriminate Hin|]);
       by apply elem_of_nil in Hin).
  - intros Hin. apply list_elem_of_In in Hin.
    assert (existsb (N.eqb c) halves = true); [|congruence].
    apply existsb_exists. exists c. split; [done|apply N.eqb_refl].
Qed.

Lemma elem_of_take_1 {A} (n : nat) (l : list A) (x : A) :
  x ∈ take n l -> x ∈ l.
Proof.
  intros Hin. rewrite <-(take_drop n l). apply elem_of_app. by left.
Qed.

Lemma sanitise_clean (title : str) (c : N) : c ∈ halves -> c ∉ sanitise title.
Proof.
  intros Hc. rewrite sanitise_fmap.
  intros (y & -> & _)%list_elem_of_fmap. by apply (full_width_not_half y).
Qed.

(** X15. The part of a file name that comes from the title has at most fifty
    characters, one for each of the first fifty characters of the title,
    and none of the nine characters that [get_filename] replaces. The
    time, the flag and the format go into the name as they are: the name
    holds one of the nine characters exactly when one of these does, and
    the flag of a recorder holds every character of the user's name. *)
Theorem get_filename_title_clean (live_time flag_ title format : str) :
  let part := take 50 (sanitise title) in
  length part = 50 `min` length title
  /\ (forall c, c ∈ halves -> c ∉ part)
  /\ (forall c, c ∈ halves ->
        c ∈ get_filename live_time flag_ title format
        <-> c ∈ live_time \/ c ∈ flag_ \/ c ∈ format)
  /\ (forall platform name c, c ∈ name ->
        c ∈ get_filename live_time (flag platform name) title format).
Proof.
  cbv zeta. split_and!.
  - rewrite length_take, sanitise_fmap, length_fmap. lia.
  - intros c Hc Hin. apply (sanitise_clean title c Hc).
    by eapply elem_of_take_1.
  - intros c Hc. unfold get_filename. rewrite !elem_of_app.
    assert (c ∉ take 50 (sanitise title)) as Hpart.
    { intros Hin. apply (sanitise_clean title c Hc). by eapply elem_of_take_1. }
    assert ((c ∉ lit "[") /\ (c ∉ lit "]") /\ (c ∉ lit ".")) as (H1 & H2 & H3).
    { unfold halves in Hc. cbn in Hc. rewrite !elem_of_cons in Hc.
      change (lit "[") with [91%N]. change (lit "]") with [93%N].
      change (lit ".") with [46%N]. rewrite !list_elem_of_singleton.
      destruct Hc as [->|[->|[->|[->|[->|[->|[->|[->|[->|Hc]]]]]]]]];
        try (by apply elem_of_nil in Hc); done. }
    tauto.
  - intros platform name c Hc. unfold get_filename, flag.
    rewrite !elem_of_app. tauto.
Qed.

End FilenameFacts.

Module ConfigManagerFacts.
Import ConfigManager.

Lemma find_id_app (l1 l2 : list row) (j : Z) :
  List.find (fun r => Z.eqb (row_id r) j) (l1 ++ l2)
  = match List.find (fun r => Z.eqb (row_id r) j) l1 with
    | Some r => Some r
    | None => List.find (fun r => Z.eqb (row_id r) j) l2
    end.
Proof.
  induction l1 as [|x l1 IH]; [done|]. cbn.
  by destruct (Z.eqb (row_id x) j).
Qed.

Lemma find_id_none (l : list row) (j : Z) :
  j ∉ row_id <$> l -> List.find (fun r => Z.eqb (row_id r) j) l = None.
Proof.
  induction l as [|x l IH]; [done|]. rewrite fmap_cons, not_elem_of_cons.
  intros [Hx Hl]. cbn. destruct (Z.eqb_spec (row_id x) j); [done|]. by apply IH.
Qed.

Lemma find_id_some (l : list row) (j : Z) (r : row) :
  List.find (fun r => Z.eqb (row_id r) j) l = Some r -> r ∈ l /\ row_id r = j.
Proof.
  induction l as [|x l IH]; [done|]. cbn.
  destruct (Z.eqb_spec (row_id x) j).
  - intros [= <-]. split; [left|done].
  - intros [? ?]%IH. split; [by right|done].
Qed.

Lemma beyond_sequence (d : db) (j : Z) :
  consistent d -> (sequence d < j)%Z -> j ∉ row_id <$> users d.
Proof.
  intros [_ Hle] Hj (r & -> & Hr)%list_elem_of_fmap.
  eapply Forall_forall in Hle; [|done]. cbn in Hle. lia.
Qed.

Lemma StronglySorted_snoc (l : list Z) (x : Z) :
  StronglySorted Z.lt l -> Forall (fun y => (y < x)%Z) l ->
  StronglySorted Z.lt (l ++ [x]).
Proof.
  intros Hl Hx. apply StronglySorted_app_2; [|done|repeat constructor].
  intros y z Hy ->%list_elem_of_singleton.
  by eapply Forall_forall in Hx.
Qed.

Lemma sorted_ids_NoDup (l : list Z) : StronglySorted Z.lt l -> NoDup l.
Proof.
  induction 1 as [|x l _ IH Hx]; constructor; [|done].
  intros Hin. eapply Forall_forall in Hx; [|exact Hin]. lia.
Qed.

Lemma add_user_consistent (m : manager) (u : user_dict) (p n : string) (i : Z) :
  consistent (store m) ->
  u_platform u = Some p -> u_name u = Some n -> u_interval u = Some i ->
  consistent (store (add_user u m).1)
  /\ sequence (store (add_user u m).1) = (sequence (store m) + 1)%Z
  /\ (add_user u m).2 = inr (sequence (store m) + 1)%Z.
Proof.
  intros [Hs Hle] Hp Hn Hi. unfold add_user. rewrite Hp, Hn, Hi.
  cbn [fst snd store users sequence set_store _notify_observers].
  split; [|done]. split; cbn [users sequence].
  - rewrite fmap_app. apply StronglySorted_snoc; [done|].
    apply Forall_fmap. eapply Forall_impl; [done|]. cbn. intros; lia.
  - apply Forall_app_2; [|repeat constructor; cbn; lia].
    eapply Forall_impl; [done|]. cbn. intros; lia.
Qed.

(** X16. [add_user] with the three keys it needs: it returns an id that no
    row has and that is beyond every id the table has ever held, the row
    it stores is found under that id (with [duration] and
    [duration_unit] as given, NULL when absent), the rows that were there
    are found as before, and the new row comes last in
    [get_all_users]. *)
Theorem add_user_fresh (m : manager) (u : user_dict) (p n : string) (i : Z) :
  consistent (store m) ->
  u_platform u = Some p -> u_name u = Some n -> u_interval u = Some i ->
  let user_id := (sequence (store m) + 1)%Z in
  let r := {| row_id := user_id; row_platform := p; row_name := n;
              row_interval := i; row_duration := u_duration u;
              row_duration_unit := u_duration_unit u |} in
  let res := add_user u m in
  res.2 = inr user_id
  /\ get_user_by_id user_id m = None
  /\ get_user_by_id user_id res.1 = Some r
  /\ (forall j, j <> user_id ->
        get_user_by_id j res.1 = get_user_by_id j m)
  /\ get_all_users res.1 = get_all_users m ++ [r]
  /\ get_all_global_config res.1 = get_all_global_config m
  /\ consistent (store res.1).
Proof.
  intros Hc Hp Hn Hi. cbv zeta. unfold add_user. rewrite Hp, Hn, Hi.
  cbn [fst snd].
  assert (List.find (fun r => Z.eqb (row_id r) (sequence (store m) + 1))
                    (users (store m)) = None) as Hnone.
  { apply find_id_none, beyond_sequence; [done|lia]. }
  unfold get_user_by_id, get_all_users, get_all_global_config.
  cbn [store users sequence global_config set_store _notify_observers].
  split_and!; try done.
  - rewrite find_id_app, Hnone. cbn [List.find row_id]. by rewrite Z.eqb_refl.
  - intros j Hj. rewrite find_id_app.
    destruct (List.find (fun r => Z.eqb (row_id r) j) (users (store m)));
      [done|].
    cbn [List.find row_id].
    destruct (Z.eqb_spec (sequence (store m) + 1) j); [congruence|done].
  - destruct (add_user_consistent m u p n i Hc Hp Hn Hi) as (H & _).
    unfold add_user in H. by rewrite Hp, Hn, Hi in H.
Qed.

Lemma add_user_fresh_witness :
  let m := (add_user {| u_id := None; u_platform := Some "Kwai";
                        u_name := Some "a"; u_interval := Some 30%Z;
                        u_duration := None; u_duration_unit := None |}
                     new_manager).1 in
  let u := {| u_id := None; u_platform := Some "Kwai"; u_name := Some "b";
              u_interval := Some 60%Z; u_duration := Some 10%Z;
              u_duration_unit := Some "seconds" |} in
  let user_id := (sequence (store m) + 1)%Z in
  let r := {| row_id := user_id; row_platform := "Kwai"; row_name := "b";
              row_interval := 60%Z; row_duration := u_duration u;
              row_duration_unit := u_duration_unit u |} in
  let res := add_user u m in
  res.2 = inr user_id
  /\ get_user_by_id user_id m = None
  /\ get_user_by_id user_id res.1 = Some r
  /\ (forall j, j <> user_id ->
        get_user_by_id j res.1 = get_user_by_id j m)
  /\ get_all_users res.1 = get_all_users m ++ [r]
  /\ get_all_global_config res.1 = get_all_global_config m
  /\ consistent (store res.1).
Proof.
  intros m u.
  apply (add_user_fresh m u "Kwai" "b" 60%Z); [|reflexivity..].
  split; cbn.
  - repeat constructor.
  - repeat constructor. cbn. lia.
Defined.

(** ** The counter only grows *)

Lemma insert_row_spec (r : row) (l : list row) (l' : list row) :
  insert_row r l = Some l' ->
  StronglySorted Z.lt (row_id <$> l) ->
  StronglySorted Z.lt (row_id <$> l')
  /\ (forall x, x ∈ l' <-> x = r \/ x ∈ l).
Proof.
  revert l'. induction l as [|x l IH]; intros l' Hins Hs; cbn in Hins.
  - injection Hins as <-. split; [repeat constructor|].
    intros y. rewrite list_elem_of_singleton, elem_of_nil. tauto.
  - destruct (Z.ltb_spec (row_id r) (row_id x)) as [Hlt|Hge].
    + injection Hins as <-. split.
      * rewrite fmap_cons. constructor; [done|].
        rewrite fmap_cons in *. apply StronglySorted_inv in Hs as [Hs Hx].
        constructor; [done|]. eapply Forall_impl; [exact Hx|]. cbn. intros; lia.
      * intros y. rewrite !elem_of_cons. tauto.
    + destruct (Z.eqb_spec (row_id r) (row_id x)) as [|Hne]; [done|].
      destruct (insert_row r l) as [l1|] eqn:Hl1; [|done].
      injection Hins as <-. rewrite fmap_cons in Hs.
      apply StronglySorted_inv in Hs as [Hs Hx].
      destruct (IH l1 eq_refl Hs) as [Hs1 Hin1]. split.
      * rewrite fmap_cons. constructor; [done|].
        apply Forall_forall. intros j (y & -> & Hy)%list_elem_of_fmap.
        apply Hin1 in Hy as [->|Hy]; [lia|].
        eapply Forall_forall in Hx; [exact Hx|]. by apply list_elem_of_fmap_2.
      * intros y. rewrite !elem_of_cons, Hin1. tauto.
Qed.

Lemma import_users_consistent (us : list user_dict) : forall rows seq rows' seq',
  fold_left import_user us (inr (rows, seq)) = inr (rows', seq') ->
  consistent {| users := rows; sequence := seq; global_config := ∅ |} ->
  consistent {| users := rows'; sequence := seq'; global_config := ∅ |}
  /\ (seq <= seq')%Z.
Proof.
  induction us as [|u us IH]; intros rows seq rows' seq' Hf Hc; cbn in Hf.
  - injection Hf as <- <-. split; [done|lia].
  - destruct (u_id u) as [i|], (u_platform u) as [p|], (u_name u) as [n|],
      (u_interval u) as [iv|];
      try (exfalso; clear -Hf; induction us; cbn in Hf; [discriminate|auto]).
    match type of Hf with
    | context [insert_row ?r rows] =>
        destruct (insert_row r rows) as [rows1|] eqn:Hins
    end; [|exfalso; clear -Hf; induction us; cbn in Hf; [discriminate|auto]].
    destruct Hc as [Hs Hle]. cbn in Hs, Hle.
    destruct (insert_row_spec _ _ _ Hins Hs) as [Hs1 Hin1].
    destruct (IH rows1 (Z.max seq i) rows' seq' Hf) as [Hc' Hseq].
    + split; cbn; [done|]. apply Forall_forall. intros x [->|Hx]%Hin1.
      * cbn. lia.
      * eapply Forall_forall in Hle; [|done]. cbn in Hle. lia.
    + split; [done|lia].
Qed.

Lemma run_call_consistent (m : manager) (c : call) :
  consistent (store m) ->
  consistent (store (run_call m c))
  /\ (sequence (store m) <= sequence (store (run_call m c)))%Z.
Proof.
  intros Hc. destruct c as [k v|u|u|j|cfg|o|o]; cbn.
  - split; [exact Hc|lia].
  - unfold add_user.
    destruct (u_platform u) as [p|] eqn:Hp, (u_name u) as [n|] eqn:Hn,
      (u_interval u) as [i|] eqn:Hi; cbn; try (split; [exact Hc|lia]).
    destruct (add_user_consistent m u p n i Hc Hp Hn Hi) as (H & _).
    unfold add_user in H. rewrite Hp, Hn, Hi in H. cbn in H.
    split; [exact H|lia].
  - unfold update_user.
    destruct (u_id u) as [j|]; [|cbn [fst]; split; [exact Hc|lia]].
    destruct (u_platform u) as [p|], (u_name u) as [n|], (u_interval u) as [i|];
      cbn; try (split; [exact Hc|lia]).
    split; [|lia]. destruct Hc as [Hs Hle]. split; cbn.
    + rewrite <-list_fmap_compose.
      erewrite list_fmap_ext; [exact Hs|]. intros _ r _. cbn.
      by destruct (Z.eqb (row_id r) j).
    + apply Forall_fmap. eapply Forall_impl; [exact Hle|]. cbn. intros r ?.
      by destruct (Z.eqb (row_id r) j).
  - split; [|lia]. destruct Hc as [Hs Hle]. split; cbn.
    + clear Hle. induction (users (store m)) as [|x l IH]; [constructor|].
      rewrite fmap_cons in Hs. apply StronglySorted_inv in Hs as [Hs Hx].
      rewrite filter_cons. destruct (decide (row_id x <> j)); [|by apply IH].
      rewrite fmap_cons. constructor; [by apply IH|].
      apply Forall_forall. intros i (y & -> & [_ Hy]%list_elem_of_filter)%list_elem_of_fmap.
      eapply Forall_forall in Hx; [exact Hx|]. by apply list_elem_of_fmap_2.
    + apply Forall_forall. intros x [_ Hx]%list_elem_of_filter.
      by eapply Forall_forall in Hle.
  - unfold import_config.
    destruct (fold_left import_user _ _) as [e|[rows seq]] eqn:Hf; cbn.
    { split; [exact Hc|lia]. }
    destruct (import_users_consistent _ _ _ _ _ Hf) as [[Hs Hle] Hseq].
    + split; cbn; constructor.
    + split; [by split|done].
  - split; [exact Hc|lia].
  - split; [exact Hc|lia].
Qed.

Lemma run_calls_consistent (calls : list call) : forall m,
  consistent (store m) ->
  consistent (store (fold_left run_call calls m))
  /\ (sequence (store m) <= sequence (store (fold_left run_call calls m)))%Z.
Proof.
  induction calls as [|c calls IH]; intros m Hc; cbn; [split; [done|lia]|].
  destruct (run_call_consistent m c Hc) as [Hc1 Hs1].
  destruct (IH _ Hc1) as [Hc2 Hs2]. split; [done|lia].
Qed.

(** X17. An id is given once: whatever calls are made on a [ConfigManager],
    users added, changed, deleted, configurations imported, the id that a
    later [add_user] returns is greater than the id of every row that the
    table held before these calls, also of rows that were deleted in
    between; and the ids of the table stay distinct. *)
Theorem ids_never_reused (m : manager) (calls : list call) (u : user_dict)
    (r : row) (user_id : Z) :
  consistent (store m) ->
  r ∈ get_all_users m ->
  let m' := fold_left run_call calls m in
  (add_user u m').2 = inr user_id ->
  (row_id r < user_id)%Z
  /\ get_user_by_id user_id m' = None
  /\ NoDup (row_id <$> get_all_users (add_user u m').1).
Proof.
  intros Hc Hr m' Hadd.
  destruct (run_calls_consistent calls m Hc) as [Hc' Hseq]. fold m' in Hc', Hseq.
  unfold add_user in Hadd.
  destruct (u_platform u) as [p|] eqn:Hp, (u_name u) as [n|] eqn:Hn,
    (u_interval u) as [i|] eqn:Hi; try discriminate.
  injection Hadd as <-.
  destruct (add_user_consistent m' u p n i Hc' Hp Hn Hi) as ([Hs _] & _).
  split_and!; [|apply find_id_none, beyond_sequence; [done|lia]|].
  - destruct Hc as [_ Hle]. eapply Forall_forall in Hle; [|exact Hr].
    cbn in Hle. lia.
  - by apply sorted_ids_NoDup.
Qed.

Lemma ids_never_reused_witness :
  let u := {| u_id := None; u_platform := Some "Kwai"; u_name := Some "a";
              u_interval := Some 30%Z; u_duration := None;
              u_duration_unit := None |} in
  let m := (add_user u new_manager).1 in
  let r := {| row_id := 1; row_platform := "Kwai"; row_name := "a";
              row_interval := 30; row_duration := None;
              row_duration_unit := None |} in
  let m' := fold_left run_call [DeleteUser 1%Z] m in
  (row_id r < 2)%Z
  /\ get_user_by_id 2%Z m' = None
  /\ NoDup (row_id <$> get_all_users (add_user u m').1).
Proof.
  intros u m r.
  apply (ids_never_reused m [DeleteUser 1%Z] u r 2%Z).
  - split; cbn; repeat constructor. cbn. lia.
  - cbn. left.
  - reflexivity.
Defined.

(** ** update_user and delete_user *)

Lemma find_id_fmap (f : row -> row) (l : list row) (j : Z) :
  (forall r, row_id (f r) = row_id r) ->
  List.find (fun r => Z.eqb (row_id r) j) (f <$> l)
  = f <$> List.find (fun r => Z.eqb (row_id r) j) l.
Proof.
  intros Hf. induction l as [|x l IH]; [done|].
  rewrite fmap_cons. cbn [List.find]. rewrite Hf.
  by destruct (Z.eqb (row_id x) j).
Qed.

(** X18. [update_user] with its keys: nothing is raised; a row with the id
    is replaced by the values given, [duration] and [duration_unit]
    becoming NULL when they are absent; every other row, the ids of the
    table and their order stay; and when no row has the id, the call
    succeeds all the same and the tables are as before. Without the key
    [id] the call raises [ValueError] and changes nothing. *)
Theorem update_user_one_row (m : manager) (u : user_dict) (user_id : Z)
    (p n : string) (i : Z) :
  u_id u = Some user_id ->
  u_platform u = Some p -> u_name u = Some n -> u_interval u = Some i ->
  let r := {| row_id := user_id; row_platform := p; row_name := n;
              row_interval := i; row_duration := u_duration u;
              row_duration_unit := u_duration_unit u |} in
  let res := update_user u m in
  res.2 = None
  /\ get_user_by_id user_id res.1
     = (fun _ => r) <$> get_user_by_id user_id m
  /\ (forall j, j <> user_id -> get_user_by_id j res.1 = get_user_by_id j m)
  /\ row_id <$> get_all_users res.1 = row_id <$> get_all_users m
  /\ (get_user_by_id user_id m = None -> store res.1 = store m)
  /\ (forall u', u_id u' = None ->
        update_user u' m = (m, Some Exc.ValueError)).
Proof.
  intros Hid Hp Hn Hi. cbv zeta. unfold update_user.
  rewrite Hid, Hp, Hn, Hi. cbn [fst snd].
  unfold get_user_by_id, get_all_users.
  cbn [store users sequence global_config set_store set_users _notify_observers].
  set (f := fun r : row => if Z.eqb (row_id r) user_id then _ else r).
  assert (forall r, row_id (f r) = row_id r) as Hf.
  { intros r. unfold f. by destruct (Z.eqb (row_id r) user_id). }
  split_and!.
  - done.
  - rewrite find_id_fmap by done.
    destruct (List.find _ (users (store m))) as [r|] eqn:Hr; [|done].
    apply find_id_some in Hr as [_ Hr]. cbn. unfold f.
    apply Z.eqb_eq in Hr as Hr'. rewrite Hr'. by rewrite Hr.
  - intros j Hj. rewrite find_id_fmap by done.
    destruct (List.find _ (users (store m))) as [r|] eqn:Hr; [|done].
    apply find_id_some in Hr as [_ Hr]. cbn. unfold f.
    destruct (Z.eqb_spec (row_id r) user_id); [congruence|done].
  - rewrite <-list_fmap_compose. apply list_fmap_ext. intros _ r _. apply Hf.
  - intros Hnone. destruct (store m) as [us sq gc]. cbn in *.
    unfold set_users. cbn. f_equal.
    induction us as [|x us IH]; [done|]. cbn in Hnone. rewrite fmap_cons.
    destruct (Z.eqb (row_id x) user_id) eqn:Hx; [done|].
    unfold f at 1. rewrite Hx. f_equal. by apply IH.
  - by intros u' ->.
Qed.

Lemma update_user_one_row_witness :
  let m := (add_user {| u_id := None; u_platform := Some "Kwai";
                        u_name := Some "a"; u_interval := Some 30%Z;
                        u_duration := Some 10%Z;
                        u_duration_unit := Some "seconds" |}
                     new_manager).1 in
  let u := {| u_id := Some 1%Z; u_platform := Some "Kwai"; u_name := Some "b";
              u_interval := Some 60%Z; u_duration := None;
              u_duration_unit := None |} in
  let r := {| row_id := 1; row_platform := "Kwai"; row_name := "b";
              row_interval := 60; row_duration := u_duration u;
              row_duration_unit := u_duration_unit u |} in
  let res := update_user u m in
  res.2 = None
  /\ get_user_by_id 1%Z res.1 = (fun _ => r) <$> get_user_by_id 1%Z m
  /\ (forall j, j <> 1%Z -> get_user_by_id j res.1 = get_user_by_id j m)
  /\ row_id <$> get_all_users res.1 = row_id <$> get_all_users m
  /\ (get_user_by_id 1%Z m = None -> store res.1 = store m)
  /\ (forall u', u_id u' = None ->
        update_user u' m = (m, Some Exc.ValueError)).
Proof.
  intros m u.
  apply (update_user_one_row m u 1%Z "Kwai" "b" 60%Z); reflexivity.
Defined.

(** X19. [delete_user]: no row has the id afterwards and every other row is
    found as before; deleting an id that no row has changes no table;
    the counter of ids stays, so the id is not given again. *)
Theorem delete_user_forgets (m : manager) (user_id : Z) :
  let m' := delete_user user_id m in
  get_user_by_id user_id m' = None
  /\ (forall j, j <> user_id -> get_user_by_id j m' = get_user_by_id j m)
  /\ (get_user_by_id user_id m = None -> store m' = store m)
  /\ sequence (store m') = sequence (store m)
  /\ get_all_global_config m' = get_all_global_config m.
Proof.
  cbv zeta. unfold delete_user, get_user_by_id, get_all_global_config.
  cbn [store users sequence global_config set_store set_users _notify_observers].
  split_and!; try done.
  - apply find_id_none. intros (r & Hr & [Hne _]%list_elem_of_filter)%list_elem_of_fmap.
    congruence.
  - intros j Hj. induction (users (store m)) as [|x l IH]; [done|].
    rewrite filter_cons. cbn [List.find].
    destruct (decide (row_id x <> user_id)) as [Hx|Hx].
    + cbn [List.find]. by rewrite IH.
    + apply dec_stable in Hx.
      destruct (Z.eqb_spec (row_id x) j); [congruence|done].
  - intros Hnone. destruct (store m) as [us sq gc]. cbn in *.
    unfold set_users. cbn. f_equal.
    induction us as [|x us IH]; [done|]. cbn in Hnone.
    destruct (Z.eqb_spec (row_id x) user_id) as [|Hx]; [done|].
    rewrite filter_cons_True by done. f_equal. by apply IH.
Qed.

(** ** export_config and import_config *)

Lemma insert_row_last (r : row) (l : list row) :
  Forall (fun x => (row_id x < row_id r)%Z) l ->
  insert_row r l = Some (l ++ [r]).
Proof.
  induction 1 as [|x l Hx _ IH]; [done|]. cbn.
  destruct (Z.ltb_spec (row_id r) (row_id x)); [lia|].
  destruct (Z.eqb_spec (row_id r) (row_id x)); [lia|]. by rewrite IH.
Qed.

Lemma import_exported_rows (l : list row) : forall (acc : list row) (seq : Z),
  StronglySorted Z.lt (row_id <$> (acc ++ l)) ->
  Forall (fun r => (row_id r <= seq)%Z) l ->
  fold_left import_user (row_dict <$> l) (inr (acc, seq))
  = inr (acc ++ (reimported <$> l), seq).
Proof.
  induction l as [|r l IH]; intros acc seq Hs Hle.
  - by rewrite app_nil_r.
  - rewrite fmap_cons. cbn [fold_left import_user row_dict u_id u_platform
                            u_name u_interval].
    apply Forall_cons in Hle as [Hr Hle].
    rewrite insert_row_last.
    + rewrite Z.max_l by done.
      rewrite IH; [by rewrite <-app_assoc| |done].
      rewrite <-app_assoc. cbn. by rewrite fmap_app, fmap_cons in *.
    + cbn [row_id]. rewrite fmap_app, fmap_cons in Hs.
      apply StronglySorted_app in Hs as (Hall & _ & _).
      apply Forall_forall. intros x Hx.
      apply Hall; [by apply list_elem_of_fmap_2|left].
Qed.

(** X20. An export followed by an import of what was exported: no error; the
    rows come back with their ids, platforms, names and intervals, but
    every [duration] is 120 and every [duration_unit] is [minutes], also
    for a user that had no duration; the global settings come back
    except one under the key [user]; the counter of ids stays. *)
Theorem export_import_resets_duration (m : manager) :
  consistent (store m) ->
  let res := import_config (export_config m) m in
  res.2 = None
  /\ get_all_users res.1 = reimported <$> get_all_users m
  /\ get_all_global_config res.1 = delete "user" (get_all_global_config m)
  /\ sequence (store res.1) = sequence (store m)
  /\ (forall j, get_user_by_id j res.1 = reimported <$> get_user_by_id j m)
  /\ import_config (export_config res.1) res.1
     = (_notify_observers "config_imported" res.1, None).
Proof.
  intros [Hs Hle].
  assert (forall m0 : manager,
            StronglySorted Z.lt (row_id <$> users (store m0)) ->
            Forall (fun r => (row_id r <= sequence (store m0))%Z)
                   (users (store m0)) ->
            import_config (export_config m0) m0
            = (_notify_observers "config_imported"
                 (set_store
                    {| users := reimported <$> users (store m0);
                       sequence := sequence (store m0);
                       global_config := delete "user" (global_config (store m0)) |}
                    m0), None)) as Himp.
  { intros m0 Hs0 Hle0. unfold import_config, export_config, get_all_users,
      get_all_global_config. cbn [cfg_user cfg_globals from_option id].
    rewrite (import_exported_rows _ [] _ Hs0 Hle0). cbn [app].
    do 4 f_equal. apply map_eq. intros k.
    rewrite lookup_fmap, map_lookup_filter, lookup_fmap.
    destruct (decide (k = "user")) as [->|Hk].
    - rewrite lookup_delete_eq. done.
    - rewrite lookup_delete_ne by done.
      destruct (global_config (store m0) !! k) as [v|]; [|done].
      cbn. by rewrite option_guard_True. }
  cbv zeta. rewrite (Himp m Hs Hle). cbn [fst snd].
  unfold get_all_users, get_all_global_config, get_user_by_id.
  cbn [store users sequence global_config set_store _notify_observers].
  split_and!; try done.
  - intros j. by apply find_id_fmap.
  - rewrite Himp.
    + unfold _notify_observers, set_store. cbn. do 3 f_equal.
      * rewrite <-list_fmap_compose. by apply list_fmap_ext.
      * apply delete_id, lookup_delete_eq.
    + cbn. rewrite <-list_fmap_compose.
      erewrite list_fmap_ext; [exact Hs|]. done.
    + cbn. apply Forall_fmap. eapply Forall_impl; [exact Hle|]. done.
Qed.

Lemma export_import_resets_duration_witness :
  let m := set_global_config "proxy" "http://127.0.0.1:7890"
             (add_user {| u_id := None; u_platform := Some "Kwai";
                          u_name := Some "a"; u_interval := Some 30%Z;
                          u_duration := None; u_duration_unit := None |}
                       new_manager).1 in
  let res := import_config (export_config m) m in
  res.2 = None
  /\ get_all_users res.1 = reimported <$> get_all_users m
  /\ get_all_global_config res.1 = delete "user" (get_all_global_config m)
  /\ sequence (store res.1) = sequence (store m)
  /\ (forall j, get_user_by_id j res.1 = reimported <$> get_user_by_id j m)
  /\ import_config (export_config res.1) res.1
     = (_notify_observers "config_imported" res.1, None).
Proof.
  intros m. apply (export_import_resets_duration m).
  split; cbn; repeat constructor. cbn. lia.
Defined.

End ConfigManagerFacts.

Module GuiFacts.
Import ConfigManager Gui ConfigManagerFacts.

Lemma all_fail_no_task (l : list user) :
  Forall (fun u => Orchestrator.instantiate u <> None) l ->
  filter (fun u => Orchestrator.instantiate u = None) l = []
  /\ length (omap (fun u => pair (user_id u) <$> Orchestrator.instantiate u) l)
     = length l.
Proof.
  induction 1 as [|u l Hu _ [IH1 IH2]]; [done|].
  rewrite filter_cons_False by done. split; [done|]. cbn.
  destruct (Orchestrator.instantiate u); [cbn; by rewrite IH2|done].
Qed.

(** X21. A store in which the key [proxy] was never set (the field of the
    proxy never lost the focus): the configuration that
    [toggle_recording] builds for the global recording has no key
    [proxy], so the constructor of every [Kwai] recorder raises, and the
    [run_loop] of the global recorder, which logs such an error and goes
    on, creates no task at all, one error being logged per user. The
    configuration that [start_user_recording] builds always has the key,
    with the default [''], and the constructor succeeds with it. *)
Theorem global_start_needs_proxy (isdir : string -> bool)
    (client_raises : row -> option exn) (m : manager) (st0 : state) :
  get_all_global_config m !! "proxy" = None ->
  Forall (fun r => row_platform r = "Kwai") (get_all_users m) ->
  let cfg := global_recording_config isdir m in
  let users := orchestrator_user client_raises cfg <$> rc_user cfg in
  let rid := (Orchestrator.new_recorder users st0).1 in
  let s0 := (Orchestrator.new_recorder users st0).2 in
  let s1 := (Orchestrator.start rid s0).1 in
  let res := Orchestrator.run_loop rid s1 in
  rc_proxy cfg = None
  /\ (forall r, exists e, Kwai_init (client_raises r) cfg r = inl e)
  /\ (Orchestrator.start rid s0).2 = true
  /\ Orchestrator.task_users rid res.1 = []
  /\ length res.2 = length (get_all_users m)
  /\ (forall r cfg',
        user_recording_config isdir m r = Some cfg' ->
        exists k, Kwai_init None cfg' r = inr k /\ k_proxy k = "").
Proof.
  intros Hproxy Hkwai. cbv zeta.
  assert (rc_proxy (global_recording_config isdir m) = None) as Hrc.
  { unfold global_recording_config, export_config. cbn [rc_proxy cfg_globals].
    rewrite lookup_fmap, lookup_delete_ne by done.
    by rewrite Hproxy. }
  assert (forall r, exists e,
            Kwai_init (client_raises r) (global_recording_config isdir m) r
            = inl e) as Hinit.
  { intros r. unfold Kwai_init. rewrite Hrc.
    destruct (client_raises r); eauto. }
  set (cfg := global_recording_config isdir m) in *.
  set (users := orchestrator_user client_raises cfg <$> rc_user cfg).
  assert (Forall (fun u => Orchestrator.instantiate u <> None) users) as Hfail.
  { subst users. apply Forall_fmap, Forall_forall. intros r Hr. cbn.
    eapply Forall_forall in Hkwai; [|exact Hr].
    unfold Orchestrator.instantiate, orchestrator_user. cbn.
    rewrite Hkwai. cbn. destruct (Hinit r) as [e ->]. done. }
  destruct (OrchestratorFacts.start_run_loop st0 users)
    as (Hstart & _ & _ & Htasks & Hlog).
  split_and!; [done|done|done| | |].
  - rewrite Htasks. by destruct (all_fail_no_task users Hfail) as [-> _].
  - rewrite Hlog. destruct (all_fail_no_task users Hfail) as [_ ->].
    subst users. by rewrite length_fmap.
  - intros r cfg'. unfold user_recording_config.
    destruct (_ && _); [done|]. intros [= <-]. unfold Kwai_init. cbn.
    eexists. split; [reflexivity|]. cbn. unfold get_global_config.
    unfold get_all_global_config in Hproxy. by rewrite Hproxy.
Qed.

Lemma global_start_needs_proxy_witness :
  let isdir := fun _ : string => true in
  let client_raises := fun _ : row => @None exn in
  let m := set_global_config "output" "/videos"
             (ConfigManager.add_user
                {| u_id := None; u_platform := Some "Kwai";
                   u_name := Some "a"; u_interval := Some 30%Z;
                   u_duration := None; u_duration_unit := None |}
                new_manager).1 in
  let cfg := global_recording_config isdir m in
  let users := orchestrator_user client_raises cfg <$> rc_user cfg in
  let rid := (Orchestrator.new_recorder users State.init).1 in
  let s0 := (Orchestrator.new_recorder users State.init).2 in
  let s1 := (Orchestrator.start rid s0).1 in
  let res := Orchestrator.run_loop rid s1 in
  rc_proxy cfg = None
  /\ (forall r, exists e, Kwai_init (client_raises r) cfg r = inl e)
  /\ (Orchestrator.start rid s0).2 = true
  /\ Orchestrator.task_users rid res.1 = []
  /\ length res.2 = length (get_all_users m)
  /\ (forall r cfg',
        user_recording_config isdir m r = Some cfg' ->
        exists k, Kwai_init None cfg' r = inr k /\ k_proxy k = "").
Proof.
  intros isdir client_raises m.
  apply (global_start_needs_proxy isdir client_raises m State.init).
  - vm_compute. reflexivity.
  - repeat constructor.
Defined.

Section WithBuiltins.

Variable strip : string -> string.
Variable lower : string -> string.
Variable int : string -> option Z.

Lemma same_id_same_row (l : list row) (r r' : row) :
  StronglySorted Z.lt (row_id <$> l) ->
  r ∈ l -> r' ∈ l -> row_id r = row_id r' -> r = r'.
Proof.
  intros Hs%sorted_ids_NoDup. induction l as [|x l IH]; [by intros ?%elem_of_nil|].
  rewrite fmap_cons in Hs. apply NoDup_cons in Hs as [Hx Hs].
  rewrite !elem_of_cons. intros [->|Hr] [->|Hr'] Hid; [done| | |by apply IH].
  - exfalso. apply Hx. rewrite Hid. by apply list_elem_of_fmap_2.
  - exfalso. apply Hx. rewrite <-Hid. by apply list_elem_of_fmap_2.
Qed.

Lemma sound_select (m : manager) (cur : row) :
  consistent (store m) ->
  NoDup (user_key lower <$> get_all_users m) ->
  cur ∈ get_all_users m ->
  sound lower {| config_manager := m; current_user := Some cur |}.
Proof.
  intros Hc Hk Hcur. split_and!; [done|done|].
  cbn. intros ? r [= <-] Hr Hid. f_equal.
  destruct Hc as [Hs _]. by apply (same_id_same_row (users (store m))).
Qed.

Lemma sound_none (m : manager) :
  consistent (store m) ->
  NoDup (user_key lower <$> get_all_users m) ->
  sound lower {| config_manager := m; current_user := None |}.
Proof. intros Hc Hk. by split_and!. Qed.

Lemma sound_refresh (a : app) : sound lower a -> sound lower (refresh_users_table a).
Proof.
  intros Ha. unfold refresh_users_table.
  destruct (current_user a) as [cur|] eqn:Hcur; [done|].
  destruct (get_all_users (config_manager a)) as [|x l] eqn:Hl; [done|].
  destruct Ha as (Hc & Hk & _).
  apply sound_select; [done|done|rewrite Hl; left].
Qed.

Lemma same_user_key (name platform : string) (r : row) :
  same_user lower name platform r = true
  <-> user_key lower r = (lower name, lower platform).
Proof.
  unfold same_user, user_key. rewrite andb_true_iff, !String.eqb_eq.
  split; [by intros [-> ->]|by intros [= -> ->]].
Qed.

Lemma key_absent (name platform : string) (l : list row) :
  existsb (same_user lower name platform) l = false ->
  (lower name, lower platform) ∉ user_key lower <$> l.
Proof.
  intros Hex (r & Hk & Hr)%list_elem_of_fmap.
  assert (existsb (same_user lower name platform) l = true); [|congruence].
  apply existsb_exists. exists r. split; [by apply list_elem_of_In|].
  by apply same_user_key.
Qed.

Lemma clear_after_refresh (a : app) :
  clear_user_form (refresh_users_table a)
  = {| config_manager := config_manager a; current_user := None |}.
Proof.
  unfold clear_user_form, refresh_users_table.
  by destruct (current_user a), (get_all_users (config_manager a)).
Qed.

Lemma sound_add_user (f : form) (a : app) :
  sound lower a -> sound lower (add_user strip lower int f a).
Proof.
  intros Ha. unfold add_user.
  destruct (validate_user_input strip int f); [|done]. cbn [negb].
  destruct (form_values strip int f) as [[[interval duration] duration_unit]|];
    [|done].
  destruct (existsb _ _) eqn:Hex; [done|].
  destruct Ha as (Hc & Hk & _).
  set (new_user := {| u_id := None; u_platform := _ |}).
  rewrite clear_after_refresh. cbn [config_manager].
  apply sound_none.
  - by eapply add_user_consistent.
  - unfold ConfigManager.add_user, get_all_users. cbn.
    rewrite fmap_app. apply NoDup_app. split_and!; [done| |repeat constructor].
    + intros k Hk1 ->%list_elem_of_singleton.
      by apply (key_absent _ _ _ Hex).
    + apply not_elem_of_nil.
Qed.

Lemma replace_row_keys (l : list row) (j : Z) (new : row) :
  row_id new = j ->
  StronglySorted Z.lt (row_id <$> l) ->
  NoDup (user_key lower <$> l) ->
  (user_key lower new ∉ user_key lower <$> l
   \/ forall r, r ∈ l -> row_id r = j -> user_key lower r = user_key lower new) ->
  NoDup (user_key lower
           <$> ((fun r => if Z.eqb (row_id r) j then new else r) <$> l)).
Proof.
  intros Hnew Hs Hk [Hfresh|Hsame].
  - induction l as [|x l IH]; [constructor|].
    rewrite !fmap_cons in *. apply NoDup_cons in Hk as [Hx Hk].
    apply StronglySorted_inv in Hs as [Hs Hlt].
    apply not_elem_of_cons in Hfresh as [Hne Hfresh].
    destruct (Z.eqb_spec (row_id x) j) as [Hj|Hj].
    + assert ((fun r => if Z.eqb (row_id r) j then new else r) <$> l = l) as ->.
      { clear -Hlt Hj. induction l as [|y l IH]; [done|].
        rewrite fmap_cons in *. apply Forall_cons in Hlt as [Hy Hlt].
        destruct (Z.eqb_spec (row_id y) j); [lia|]. by rewrite IH. }
      by constructor.
    + constructor; [|by apply IH].
      intros (r & Hkr & (r0 & -> & Hr0)%list_elem_of_fmap)%list_elem_of_fmap.
      destruct (Z.eqb (row_id r0) j).
      * by rewrite Hkr in Hne.
      * apply Hx. rewrite Hkr. by apply list_elem_of_fmap_2.
  - assert (user_key lower
              <$> ((fun r => if Z.eqb (row_id r) j then new else r) <$> l)
            = user_key lower <$> l) as ->; [|done].
    rewrite <-list_fmap_compose. apply list_fmap_ext. intros i r Hr. cbn.
    destruct (Z.eqb_spec (row_id r) j); [|done].
    symmetry. apply Hsame; [by eapply list_elem_of_lookup_2|done].
Qed.

Lemma sound_update_user (f : form) (a : app) :
  sound lower a -> sound lower (update_user strip lower int f a).
Proof.
  intros Ha. unfold update_user.
  destruct (current_user a) as [cur|] eqn:Hcur; [|done].
  destruct (validate_user_input strip int f); [|done]. cbn [negb].
  destruct (form_values strip int f) as [[[interval duration] duration_unit]|];
    [|done].
  destruct (_ && _) eqn:Hcheck; [done|].
  destruct Ha as (Hc & Hk & Hsel).
  set (updated_user := {| u_id := Some (row_id cur); u_platform := _ |}).
  set (new := {| row_id := row_id cur; row_platform := platform_select f |}).
  assert (users (store (ConfigManager.update_user updated_user (config_manager a)).1)
          = (fun r => if Z.eqb (row_id r) (row_id cur) then new else r)
              <$> users (store (config_manager a))) as Husers.
  { unfold ConfigManager.update_user. cbn. apply list_fmap_ext.
    intros _ r _. destruct (Z.eqb_spec (row_id r) (row_id cur)) as [Heq|];
      [|done]. unfold new. by rewrite Heq. }
  destruct (run_call_consistent (config_manager a)
              (ConfigManager.UpdateUser updated_user) Hc) as [Hc' _].
  cbn [run_call] in Hc'.
  split_and!; cbn [config_manager current_user].
  - done.
  - unfold get_all_users. rewrite Husers.
    apply replace_row_keys; [done|by destruct Hc|done|].
    apply andb_false_iff in Hcheck as [Hsame|Hex].
    + right. intros r Hr Hid. rewrite (Hsel cur r Hcur Hr Hid).
      apply orb_false_iff in Hsame as [H1 H2].
      apply negb_false_iff, String.eqb_eq in H1, H2.
      unfold user_key. cbn. by rewrite H1, H2.
    + left. by apply key_absent.
  - intros ? r [= <-]. unfold get_all_users. rewrite Husers.
    intros (r0 & -> & Hr0)%list_elem_of_fmap Hid.
    destruct (Z.eqb_spec (row_id r0) (row_id cur)); [done|].
    cbn in Hid. congruence.
Qed.

Lemma sound_delete_user (a : app) : sound lower a -> sound lower (delete_user a).
Proof.
  intros Ha. unfold delete_user.
  destruct (current_user a) as [cur|] eqn:Hcur; [|done].
  destruct Ha as (Hc & Hk & _).
  rewrite clear_after_refresh. cbn [config_manager].
  apply sound_none.
  - destruct (run_call_consistent (config_manager a)
                (ConfigManager.DeleteUser (row_id cur)) Hc) as [Hc' _].
    exact Hc'.
  - unfold ConfigManager.delete_user, get_all_users in *. cbn.
    eapply sublist_NoDup; [exact Hk|].
    apply fmap_sublist, sublist_filter.
Qed.

Lemma sound_on_user_selected (selection : option Z) (a : app) :
  sound lower a -> sound lower (on_user_selected selection a).
Proof.
  intros (Hc & Hk & _). unfold on_user_selected.
  destruct selection as [j|]; [|by apply sound_none].
  destruct (get_user_by_id j (config_manager a)) as [cur|] eqn:Hget;
    [|by apply sound_none].
  apply sound_select; [done|done|].
  by apply find_id_some in Hget as [? _].
Qed.

Lemma sound_handle (a : app) (x : action) :
  sound lower a -> sound lower (handle strip lower int a x).
Proof.
  destruct x; cbn.
  - apply sound_add_user.
  - apply sound_update_user.
  - apply sound_delete_user.
  - apply sound_on_user_selected.
  - apply sound_refresh.
Qed.

(** X22. The user form never makes two users of the same name on the same
    platform, compared without regard to case: from a store whose rows
    differ in this way, whatever is added, changed, deleted or selected
    through the handlers of the GUI, in any order and with any input,
    the rows of the store still differ in name or platform, and their
    ids are distinct. *)
Theorem gui_keeps_users_distinct (m : manager) (actions : list action) :
  consistent (store m) ->
  NoDup (user_key lower <$> get_all_users m) ->
  let a := fold_left (handle strip lower int) actions
                     {| config_manager := m; current_user := None |} in
  NoDup (user_key lower <$> get_all_users (config_manager a))
  /\ NoDup (row_id <$> get_all_users (config_manager a)).
Proof.
  intros Hc Hk. cbv zeta.
  assert (sound lower (fold_left (handle strip lower int) actions
                           {| config_manager := m; current_user := None |}))
    as (Hc' & Hk' & _).
  { generalize (sound_none m Hc Hk).
    generalize ({| config_manager := m; current_user := None |}).
    induction actions as [|x actions IH]; intros a Ha; [done|].
    cbn. by apply IH, sound_handle. }
  split; [done|]. destruct Hc' as [Hs _]. by apply sorted_ids_NoDup.
Qed.

End WithBuiltins.

Lemma gui_keeps_users_distinct_witness :
  let int := fun s : string =>
               if String.eqb s "30" then Some 30%Z
               else if String.eqb s "60" then Some 60%Z else None in
  let f (name : string) :=
    {| platform_select := "Kwai"; name_input := name; interval_input := "30";
       duration_input := "60"; unit_select := "seconds" |} in
  let actions := [AddUser (f "a"); AddUser (f "b"); AddUser (f "a");
                  Select (Some 2%Z); UpdateUser (f "a"); DeleteUser;
                  AddUser (f "b")] in
  let a := fold_left (handle id id int) actions
                     {| config_manager := new_manager; current_user := None |} in
  NoDup (user_key id <$> get_all_users (config_manager a))
  /\ NoDup (row_id <$> get_all_users (config_manager a)).
Proof.
  intros int f actions.
  apply (gui_keeps_users_distinct id id int new_manager actions).
  - split; constructor.
  - constructor.
Defined.

End GuiFacts.
